(** * matid / systax: symmetry normalisation and defect classification

    A shallow embedding of the parts of

      - [systax/core/linkedunits.py]      (module [LinkedUnits])
      - [systax/symmetry/symmetryanalyzer.py] (module [SymmetryAnalyzer])

    that the specification talks about, together with the properties the
    specification states for them.

    Conventions of the embedding.
      - A Python [dict] is a [gmap], a Python [set] is a [gset]; the array
        [np.array(list(s))] of a set [s] is [elements s].
      - A memoised attribute that starts as [None] is an [option] field of
        the instance record; a method that reads or writes such attributes
        takes the instance and returns its result with the new instance.
      - An exception is a constructor of the result type.
      - Floating point numbers are rationals ([Q]): the arithmetic is the
        exact one, rounding errors are not modelled. *)

From Stdlib Require Import ZArith QArith Qabs Qround Qfield Qminmax Lqa List Lia
  Ascii String.
From stdpp Require Import base gmap sets list strings sorting.

Open Scope nat_scope.

(* ===================================================================== *)
(** * systax/core/linkedunits.py                                          *)
(* ===================================================================== *)

Module LinkedUnits.

(** [Substitution]: the constructor takes a position as well, but does not
    store it. *)
Record Substitution := {
  index : nat;
  original_element : nat;
  substitutional_element : nat;
}.

(** [LinkedUnit], with the position type of the vacancies (atoms of the
    [ase] library) left open. *)
Record LinkedUnit (Position : Type) := {
  basis_indices : list (option nat);
  substitutions : list Substitution;
  vacancies : list Position;
}.
Arguments basis_indices {Position} _.
Arguments substitutions {Position} _.
Arguments vacancies {Position} _.

(** ** [LinkedUnitCollection.__setitem__] *)

(** What a caller may pass as key: something [tuple()] cannot iterate
    over, or a sequence of integers (the class documents its keys as
    sequences of three integers). *)
Inductive PyKey :=
| NotIterable
| Sequence (items : list Z).

(** [tuple(key)]; [None] when the call raises. *)
Definition tuple (key : PyKey) : option (list Z) :=
  match key with
  | NotIterable => None
  | Sequence items => Some items
  end.

Inductive SetItemError :=
| TypeError_no_tuple        (* "Could not transform the given key ... into tuple." *)
| ValueError_components     (* "... does not have three components." *)
| ValueError_override.      (* "Overriding existing units is not supported." *)

Section SetItem.
Context {Unit : Type}.

Definition __setitem__ (self : gmap (list Z) Unit) (key : PyKey) (value : Unit)
  : SetItemError + gmap (list Z) Unit :=
  match tuple key with
  | None => inl TypeError_no_tuple
  | Some key =>
      if negb (length key =? 3) then inl ValueError_components
      else if bool_decide (key ∈ dom self) then inl ValueError_override
      else inr (<[key := value]> self)
  end.

(** The contents of the dictionary after the call: an exception leaves the
    dictionary as it was. *)
Definition after_setitem (self : gmap (list Z) Unit) (key : PyKey) (value : Unit)
  : gmap (list Z) Unit :=
  match __setitem__ self key value with
  | inl _ => self
  | inr self' => self'
  end.

End SetItem.

(** ** [LinkedUnitCollection.get_chemical_distance] *)

(** A chemical environment: atomic number -> number of neighbours. *)
Abbreviation Environment := (gmap nat nat).

(** [score/max_score] is a true division.  With an empty or all-zero ideal
    environment [max_score] is zero: Python integers raise
    [ZeroDivisionError], NumPy integers give [nan]; both are [None] here. *)
Definition get_chemical_distance (ideal_env real_env : Environment) : option Q :=
  let max_score := sum_list (snd <$> map_to_list ideal_env) in
  let score :=
    foldl (λ score '(ideal_key, ideal_value),
             match real_env !! ideal_key with
             | Some real_value => score + real_value `min` ideal_value
             | None => score
             end) 0 (map_to_list ideal_env) in
  if max_score =? 0 then None
  else Some (inject_Z (Z.of_nat score) / inject_Z (Z.of_nat max_score))%Q.

(** The formula of the specification: every species counts, one that an
    environment does not list has count zero. *)
Definition count (env : Environment) (species : nat) : nat :=
  default 0 (env !! species).

Definition overlap (ideal_env real_env : Environment) : nat :=
  sum_list_with (λ species, count ideal_env species `min` count real_env species)
                (elements (dom ideal_env ∪ dom real_env)).

Definition total (env : Environment) : nat :=
  sum_list_with (count env) (elements (dom env)).

Definition chemical_distance_spec (ideal_env real_env : Environment) : Q :=
  (inject_Z (Z.of_nat (overlap ideal_env real_env))
   / inject_Z (Z.of_nat (total ideal_env)))%Q.

(** ** The collection and its memoised classification *)

(** What the methods take from the [ase] structure [self.system], from the
    prototype [self.cell], from the thresholds and from [systax.geometry]
    (whose [get_tetrahedra_decomposition] and [get_neighbour_cells] they
    call); all of it is fixed when the collection is made. *)
Record Geometry (Position Tesselation : Type) := {
  (** [self.system.get_positions()[i]] *)
  positions : nat → Position;
  (** [systax.geometry.get_tetrahedra_decomposition(self.system[basis_indices],
      self.delaunay_threshold)] *)
  tetrahedra_decomposition : list nat → Tesselation;
  (** [tesselation.find_simplex(pos)] *)
  find_simplex : Tesselation → Position → option nat;
  (** [self.get_chemical_environment(self.system, index, ...)] *)
  real_environment : nat → Environment;
  (** [self.get_basis_atom_neighbourhood()[i_index]]; the tiling has one
      slot for each atom of the prototype cell. *)
  neighbour_map : nat → Environment;
  (** [systax.geometry.get_clusters(self.system, ...)] *)
  clusters : list (list nat);
}.
Arguments positions {Position Tesselation} _ _.
Arguments tetrahedra_decomposition {Position Tesselation} _ _.
Arguments find_simplex {Position Tesselation} _ _ _.
Arguments real_environment {Position Tesselation} _ _.
Arguments neighbour_map {Position Tesselation} _ _.
Arguments clusters {Position Tesselation} _.

Section Collection.
Context {Position Tesselation : Type}.
Variable geometry : Geometry Position Tesselation.

(** The instance: the attributes the methods read, the dictionary itself
    ([items]) and the attributes [__init__] sets to [None]. *)
Record LinkedUnitCollection := {
  n_atoms : nat;                        (* len(self.system) *)
  is_2d : bool;
  items : gmap (list Z) (LinkedUnit Position);
  _decomposition : option Tesselation;
  _inside_indices : option (list nat);
  _outside_indices : option (list nat);
  _adsorbates : option (list nat);
  _substitutions : option (list Substitution);
  _vacancies : option (list Position);
  _clusters : option (list (gset nat));
  _basis_indices : option (list nat);
}.

Definition __init__ (n_atoms : nat) (is_2d : bool) : LinkedUnitCollection :=
  {| n_atoms := n_atoms; is_2d := is_2d; items := ∅;
     _decomposition := None; _inside_indices := None;
     _outside_indices := None; _adsorbates := None; _substitutions := None;
     _vacancies := None; _clusters := None; _basis_indices := None |}.

(** [self[key] = value] on the instance. *)
Definition setitem (self : LinkedUnitCollection) (key : PyKey)
    (value : LinkedUnit Position) : SetItemError + LinkedUnitCollection :=
  match __setitem__ (items self) key value with
  | inl e => inl e
  | inr d =>
      inr {| n_atoms := n_atoms self; is_2d := is_2d self; items := d;
             _decomposition := _decomposition self;
             _inside_indices := _inside_indices self;
             _outside_indices := _outside_indices self;
             _adsorbates := _adsorbates self;
             _substitutions := _substitutions self;
             _vacancies := _vacancies self; _clusters := _clusters self;
             _basis_indices := _basis_indices self |}
  end.

(** Attribute assignments. *)
Definition set_decomposition (self : LinkedUnitCollection) v :=
  {| n_atoms := n_atoms self; is_2d := is_2d self; items := items self;
     _decomposition := v;
     _inside_indices := _inside_indices self;
     _outside_indices := _outside_indices self;
     _adsorbates := _adsorbates self; _substitutions := _substitutions self;
     _vacancies := _vacancies self; _clusters := _clusters self;
     _basis_indices := _basis_indices self |}.

Definition set_inside_outside (self : LinkedUnitCollection) i o :=
  {| n_atoms := n_atoms self; is_2d := is_2d self; items := items self;
     _decomposition := _decomposition self;
     _inside_indices := i; _outside_indices := o;
     _adsorbates := _adsorbates self; _substitutions := _substitutions self;
     _vacancies := _vacancies self; _clusters := _clusters self;
     _basis_indices := _basis_indices self |}.

Definition set_adsorbates (self : LinkedUnitCollection) v :=
  {| n_atoms := n_atoms self; is_2d := is_2d self; items := items self;
     _decomposition := _decomposition self;
     _inside_indices := _inside_indices self;
     _outside_indices := _outside_indices self;
     _adsorbates := v; _substitutions := _substitutions self;
     _vacancies := _vacancies self; _clusters := _clusters self;
     _basis_indices := _basis_indices self |}.

Definition set_substitutions (self : LinkedUnitCollection) v :=
  {| n_atoms := n_atoms self; is_2d := is_2d self; items := items self;
     _decomposition := _decomposition self;
     _inside_indices := _inside_indices self;
     _outside_indices := _outside_indices self;
     _adsorbates := _adsorbates self; _substitutions := v;
     _vacancies := _vacancies self; _clusters := _clusters self;
     _basis_indices := _basis_indices self |}.

Definition set_vacancies (self : LinkedUnitCollection) v :=
  {| n_atoms := n_atoms self; is_2d := is_2d self; items := items self;
     _decomposition := _decomposition self;
     _inside_indices := _inside_indices self;
     _outside_indices := _outside_indices self;
     _adsorbates := _adsorbates self; _substitutions := _substitutions self;
     _vacancies := v; _clusters := _clusters self;
     _basis_indices := _basis_indices self |}.

Definition set_clusters (self : LinkedUnitCollection) v :=
  {| n_atoms := n_atoms self; is_2d := is_2d self; items := items self;
     _decomposition := _decomposition self;
     _inside_indices := _inside_indices self;
     _outside_indices := _outside_indices self;
     _adsorbates := _adsorbates self; _substitutions := _substitutions self;
     _vacancies := _vacancies self; _clusters := v;
     _basis_indices := _basis_indices self |}.

Definition set_basis_indices (self : LinkedUnitCollection) v :=
  {| n_atoms := n_atoms self; is_2d := is_2d self; items := items self;
     _decomposition := _decomposition self;
     _inside_indices := _inside_indices self;
     _outside_indices := _outside_indices self;
     _adsorbates := _adsorbates self; _substitutions := _substitutions self;
     _vacancies := _vacancies self; _clusters := _clusters self;
     _basis_indices := v |}.

(** [self.values()].  A dictionary gives its values in the order of
    insertion, a [gmap] in an order of its keys; the order is that of the
    lists of substitutions and vacancies only, the index sets do not depend
    on it. *)
Definition values (self : LinkedUnitCollection) : list (LinkedUnit Position) :=
  snd <$> map_to_list (items self).

(** [get_all_indices]: [set(range(len(self.system)))] *)
Definition get_all_indices (self : LinkedUnitCollection) : gset nat :=
  list_to_set (seq 0 (n_atoms self)).

(** *** [get_basis_indices] *)

(** [chem_dist >= 0.4].  The environments that reach this test are made by
    [get_chemical_environment], whose counts are NumPy integers: a zero
    [max_score] gives [nan], and a comparison with [nan] is false. *)
Definition chem_dist_ok (i_index index : nat) : bool :=
  match get_chemical_distance (neighbour_map geometry i_index)
                              (real_environment geometry index) with
  | Some chem_dist => Qle_bool (4 # 10) chem_dist
  | None => false
  end.

(** The body of [for i_index, index in enumerate(unit.basis_indices)]. *)
Definition add_basis_of_unit (indices : gset nat) (unit : LinkedUnit Position)
  : gset nat :=
  foldl (λ indices '(i_index, index),
           match index with
           | Some index =>
               if chem_dist_ok i_index index then indices ∪ {[index]}
               else indices
           | None => indices
           end) indices (imap pair (basis_indices unit)).

Definition get_basis_indices (self : LinkedUnitCollection)
  : list nat * LinkedUnitCollection :=
  match _basis_indices self with
  | None =>
      let indices := foldl add_basis_of_unit ∅ (values self) in
      let result := elements indices in
      (result, set_basis_indices self (Some result))
  | Some result => (result, self)
  end.

(** *** [get_invalid_indices] *)
Definition get_invalid_indices (self : LinkedUnitCollection)
  : list nat * LinkedUnitCollection :=
  let all_indices := get_all_indices self in
  let '(basis_indices, self) := get_basis_indices self in
  let invalid_indices := all_indices ∖ list_to_set basis_indices in
  (elements invalid_indices, self).

(** *** [get_tetrahedra_decomposition] *)
Definition get_tetrahedra_decomposition (self : LinkedUnitCollection)
  : Tesselation * LinkedUnitCollection :=
  match _decomposition self with
  | None =>
      let '(basis_indices, self) := get_basis_indices self in
      let decomposition := tetrahedra_decomposition geometry basis_indices in
      (decomposition, set_decomposition self (Some decomposition))
  | Some decomposition => (decomposition, self)
  end.

(** *** [get_inside_and_outside_indices] *)

(** The loop over [zip(invalid_indices, invalid_pos)]: the pair of the
    [inside_indices] and the [outside_indices] lists. *)
Fixpoint split_inside_outside (tesselation : Tesselation) (invalid_indices : list nat)
  : list nat * list nat :=
  match invalid_indices with
  | [] => ([], [])
  | i :: rest =>
      let '(inside_indices, outside_indices) := split_inside_outside tesselation rest in
      match find_simplex geometry tesselation (positions geometry i) with
      | None => (inside_indices, i :: outside_indices)
      | Some _ => (i :: inside_indices, outside_indices)
      end
  end.

(** Both attributes are written together; the last case, where only one of
    them is set, is no state the methods produce. *)
Definition get_inside_and_outside_indices (self : LinkedUnitCollection)
  : list nat * list nat * LinkedUnitCollection :=
  match _inside_indices self, _outside_indices self with
  | None, None =>
      let '(invalid_indices, self) := get_invalid_indices self in
      let '(inside_indices, outside_indices, self) :=
        if negb (length invalid_indices =? 0) then
          let '(tesselation, self) := get_tetrahedra_decomposition self in
          let '(inside_indices, outside_indices) :=
            split_inside_outside tesselation invalid_indices in
          (inside_indices, outside_indices, self)
        else ([], [], self) in
      (inside_indices, outside_indices,
       set_inside_outside self (Some inside_indices) (Some outside_indices))
  | inside_indices, outside_indices =>
      (default [] inside_indices, default [] outside_indices, self)
  end.

(** *** [get_substitutions] *)
Definition all_substitutions (self : LinkedUnitCollection) : list Substitution :=
  foldl (λ all_substitutions cell,
           let subst := substitutions cell in
           if negb (length subst =? 0) then all_substitutions ++ subst
           else all_substitutions) [] (values self).

Definition get_substitutions (self : LinkedUnitCollection)
  : list Substitution * LinkedUnitCollection :=
  match _substitutions self with
  | None =>
      let all_substitutions := all_substitutions self in
      if is_2d self then
        (all_substitutions, set_substitutions self (Some all_substitutions))
      else
        let '(inside_indices, _, self) := get_inside_and_outside_indices self in
        let inside_set : gset nat := list_to_set inside_indices in
        let valid_subst :=
          List.filter (λ subst, bool_decide (index subst ∈ inside_set))
                      all_substitutions in
        (valid_subst, set_substitutions self (Some valid_subst))
  | Some result => (result, self)
  end.

(** *** [get_vacancies]: a vacancy is kept with its position. *)
Definition all_vacancies (self : LinkedUnitCollection) : list Position :=
  foldl (λ all_vacancies cell,
           let vacancies := vacancies cell in
           if negb (length vacancies =? 0) then all_vacancies ++ vacancies
           else all_vacancies) [] (values self).

Definition get_vacancies (self : LinkedUnitCollection)
  : list Position * LinkedUnitCollection :=
  match _vacancies self with
  | None =>
      let all_vacancies := all_vacancies self in
      if is_2d self then
        (all_vacancies, set_vacancies self (Some all_vacancies))
      else
        let '(tesselation, self) := get_tetrahedra_decomposition self in
        let valid_vacancies :=
          List.filter (λ vac_pos,
                         match find_simplex geometry tesselation vac_pos with
                         | Some _ => true
                         | None => false
                         end) all_vacancies in
        (valid_vacancies, set_vacancies self (Some valid_vacancies))
  | Some result => (result, self)
  end.

(** *** [get_interstitials] *)
Definition get_interstitials (self : LinkedUnitCollection)
  : list nat * LinkedUnitCollection :=
  let '(inside_indices, _, self) := get_inside_and_outside_indices self in
  let inside_indices : gset nat := list_to_set inside_indices in
  let '(substitutions, self) := get_substitutions self in
  let subst_indices : gset nat := list_to_set (index <$> substitutions) in
  let interstitials := inside_indices ∖ subst_indices in
  (elements interstitials, self).

(** *** [get_clusters] *)
Definition get_clusters (self : LinkedUnitCollection)
  : list (gset nat) * LinkedUnitCollection :=
  match _clusters self with
  | None =>
      let result : list (gset nat) := list_to_set <$> clusters geometry in
      (result, set_clusters self (Some result))
  | Some result => (result, self)
  end.

(** *** [get_adsorbates] *)
Definition get_adsorbates (self : LinkedUnitCollection)
  : list nat * LinkedUnitCollection :=
  match _adsorbates self with
  | None =>
      let '(_, outside_indices, self) := get_inside_and_outside_indices self in
      let '(outside_indices, self) :=
        if is_2d self then
          let '(substitutions, self) := get_substitutions self in
          let outside_indices : gset nat := list_to_set outside_indices in
          let substitutions : gset nat := list_to_set (index <$> substitutions) in
          (elements (outside_indices ∖ substitutions), self)
        else (outside_indices, self) in
      let adsorbates :=
        if negb (length outside_indices =? 0) then outside_indices else [] in
      (adsorbates, set_adsorbates self (Some adsorbates))
  | Some result => (result, self)
  end.

(** *** [get_unknowns] *)
Definition get_unknowns (self : LinkedUnitCollection)
  : list nat * LinkedUnitCollection :=
  let all_indices := get_all_indices self in
  let '(basis_indices, self) := get_basis_indices self in
  let basis_indices : gset nat := list_to_set basis_indices in
  let '(interstitials, self) := get_interstitials self in
  let interstitials : gset nat := list_to_set interstitials in
  let '(adsorbates, self) := get_adsorbates self in
  let adsorbates : gset nat := list_to_set adsorbates in
  let '(substitutions, self) := get_substitutions self in
  let subst_indices : gset nat := list_to_set (index <$> substitutions) in
  let combined := basis_indices ∪ interstitials ∪ adsorbates ∪ subst_indices in
  let unknowns := all_indices ∖ combined in
  (elements unknowns, self).

(** *** The classification of a region

    The six results as the regression tests read them off a region
    ([basis], [adsorbates], [interstitials], [substitutions], [vacancies],
    [unknowns], in this order, on one instance). *)
Record Classification := {
  basis : list nat;
  adsorbates : list nat;
  interstitials : list nat;
  substitution_list : list Substitution;
  vacancy_list : list Position;
  unknowns : list nat;
}.

Definition classify (region : LinkedUnitCollection)
  : Classification * LinkedUnitCollection :=
  let '(basis, region) := get_basis_indices region in
  let '(adsorbates, region) := get_adsorbates region in
  let '(interstitials, region) := get_interstitials region in
  let '(substitutions, region) := get_substitutions region in
  let '(vacancies, region) := get_vacancies region in
  let '(unknowns, region) := get_unknowns region in
  ({| basis := basis; adsorbates := adsorbates; interstitials := interstitials;
      substitution_list := substitutions; vacancy_list := vacancies;
      unknowns := unknowns |}, region).

End Collection.

(** ** Two regions

    A slab of six atoms, atom [i] at height [i]: the tiling has one unit
    with the basis atoms 0 and 4 and a substitution at atom 1; a point is in
    a simplex when it is not above the highest basis atom.  Every atom has
    the environment of the prototype. *)
Definition iron : Environment := {[ 26 := 8 ]}.

Definition slab_geometry : Geometry nat (list nat) :=
  {| positions := λ i, i;
     tetrahedra_decomposition := λ basis_indices, basis_indices;
     find_simplex := λ tesselation pos,
       if bool_decide (pos ≤ foldr max 0 tesselation) then Some 0 else None;
     real_environment := λ _, iron;
     neighbour_map := λ _, iron;
     clusters := [] |}.

Definition slab_unit : LinkedUnit nat :=
  {| basis_indices := [Some 0; Some 4];
     substitutions :=
       [ {| index := 1; original_element := 26; substitutional_element := 29 |} ];
     vacancies := [2] |}.

(** [region[key] = unit], for a key that is accepted. *)
Definition with_unit {Position Tesselation : Type}
    (region : @LinkedUnitCollection Position Tesselation)
    (key : list Z) (unit : LinkedUnit Position) :=
  match setitem region (Sequence key) unit with
  | inr region => region
  | inl _ => region
  end.

Definition slab : @LinkedUnitCollection nat (list nat) :=
  with_unit (__init__ 6 false) [0; 0; 0]%Z slab_unit.

(** A 2D sheet of two atoms whose tiling lists atom 1 both in the basis of
    its unit and as a substitution. *)
Definition sheet_unit : LinkedUnit nat :=
  {| basis_indices := [Some 0; Some 1];
     substitutions :=
       [ {| index := 1; original_element := 6; substitutional_element := 5 |} ];
     vacancies := [] |}.

Definition sheet : @LinkedUnitCollection nat (list nat) :=
  with_unit (__init__ 2 true) [0; 0; 0]%Z sheet_unit.

(** ** [LinkedUnitCollection.get_chemical_environment] *)

Section ChemicalEnvironment.

(** [ase.data.covalent_radii] and [self.bond_threshold]. *)
Variable covalent_radii : nat → Q.
Variable bond_threshold : Q.

(** A displacement or a translation, in Cartesian coordinates. *)
Definition Displacement : Type := Q * Q * Q.

(** One element of [D_trans_len - ij_radii <= self.bond_threshold].  The
    length is compared by its square: [sqrt(d2) <= r] is [0 <= r] and
    [d2 <= r^2]. *)
Definition is_neighbour (ij_radii : Q) (D : Displacement) : bool :=
  let '(x, y, z) := D in
  let reach := (bond_threshold + ij_radii)%Q in
  Qle_bool 0 reach && Qle_bool (x * x + y * y + z * z) (reach * reach).

(** [trans + ij_disp] *)
Definition add_displacement (ij_disp t : Displacement) : Displacement :=
  let '(x, y, z) := t in
  let '(dx, dy, dz) := ij_disp in
  (x + dx, y + dy, z + dz)%Q.

(** [ij_n_neigh] of the atom [j]. *)
Definition n_neigh (seed_num index : nat)
    (disp_tensor_finite : nat → nat → Displacement)
    (translations translations_reduced : list Displacement) (j j_num : nat)
  : nat :=
  let ij_disp := disp_tensor_finite index j in
  let trans := if decide (index = j) then translations_reduced else translations in
  let D_trans := add_displacement ij_disp <$> trans in
  let ij_radii := (covalent_radii seed_num + covalent_radii j_num)%Q in
  length (List.filter (is_neighbour ij_radii) D_trans).

(** The method, on the atomic numbers [num] of [system]; [neighbours] is a
    [defaultdict] with the default 0.  [None] is the [IndexError] of
    [num[index]]. *)
Definition get_chemical_environment (num : list nat) (index : nat)
    (disp_tensor_finite : nat → nat → Displacement)
    (translations translations_reduced : list Displacement)
  : option Environment :=
  seed_num ← num !! index;
  Some (foldl (λ (neighbours : Environment) '(j, j_num),
                 let ij_n_neigh :=
                   n_neigh seed_num index disp_tensor_finite translations
                           translations_reduced j j_num in
                 <[j_num := default 0 (neighbours !! j_num) + ij_n_neigh]>
                   neighbours)
              ∅ (imap pair num)).

End ChemicalEnvironment.
End LinkedUnits.

(* ===================================================================== *)
(** * systax/symmetry/symmetryanalyzer.py                                 *)
(* ===================================================================== *)

Module SymmetryAnalyzer.

(** ** [SymmetryAnalyzer.get_symmetry_dataset] *)

(** How [segfault_protect(spglib.get_symmetry_dataset, description,
    self.symmetry_tol)] ends: the worker process aborts and
    [segfault_protect] raises [RuntimeError], or the call returns what
    spglib returned, a dataset or [None]. *)
Inductive OracleOutcome (Dataset : Type) :=
| Aborted
| Returned (symmetry_dataset : option Dataset).
Arguments Aborted {Dataset}.
Arguments Returned {Dataset} _.

Inductive CellNormalizationError :=
| Segfault_in_spglib       (* "Segfault in spglib when finding symmetry dataset. ..." *)
| Spglib_error.            (* "Spglib error when finding symmetry dataset." *)

Section SymmetryDataset.
Context {System Dataset : Type}.
(** The oracle behind the fault boundary, on the description of a system
    and a tolerance. *)
Variable spglib_get_symmetry_dataset : System → Q → OracleOutcome Dataset.

(** The attributes of the analyzer the method reads and writes. *)
Record Analyzer := {
  _analyzed_system : System;
  symmetry_tol : Q;
  _symmetry_dataset : option Dataset;
}.

Definition get_symmetry_dataset (self : Analyzer)
  : (CellNormalizationError + Dataset) * Analyzer :=
  match _symmetry_dataset self with
  | Some symmetry_dataset => (inr symmetry_dataset, self)
  | None =>
      let description := _analyzed_system self in
      match spglib_get_symmetry_dataset description (symmetry_tol self) with
      | Aborted => (inl Segfault_in_spglib, self)
      | Returned None => (inl Spglib_error, self)
      | Returned (Some symmetry_dataset) =>
          (inr symmetry_dataset,
           {| _analyzed_system := _analyzed_system self;
              symmetry_tol := symmetry_tol self;
              _symmetry_dataset := Some symmetry_dataset |})
      end
  end.

End SymmetryDataset.

(** ** [SymmetryAnalyzer._find_wyckoff_ground_state]: the choice of the
    representation *)

(** A Wyckoff letter is a string of one character; Python orders such
    strings by the code of the character. *)
Abbreviation Letter := ascii.

Definition letter_le (a b : Letter) : Prop := nat_of_ascii a ≤ nat_of_ascii b.

#[global] Instance letter_le_dec : RelDecision letter_le.
Proof. intros a b. unfold letter_le. apply _. Defined.

Section GroundState.
(** The 4x4 matrix of a rigid transformation. *)
Context {Matrix : Type}.

(** An entry of [PROPER_RIGID_TRANSFORMATIONS] or
    [IMPROPER_RIGID_TRANSFORMATIONS]. *)
Record Transform := {
  transformation : Matrix;
  permutations : gmap Letter Letter;
}.

(** A representation: a transform with the number of atoms it puts at each
    (letter, atomic number). *)
Record Representation := {
  r_transformation : Matrix;
  r_permutations : gmap Letter Letter;
  wyckoff_positions : gmap (Letter * nat) nat;
}.

Inductive GroundStateError :=
| SystaxError     (* "Could not successfully decide best Wyckoff positions." *)
| KeyError        (* i_wyckoffs[key] for a key that is missing *)
| IndexError.     (* representations[0] of an empty list *)

(** [np.identity(4)] *)
Variable identity_matrix : Matrix.

(** The atoms of the system: the old Wyckoff letter and the atomic number
    of each ([old_wyckoff_letters] and [system.get_atomic_numbers()] have
    one entry for each atom). *)
Implicit Types atoms : list (Letter * nat).

Definition identity atoms : Transform :=
  {| transformation := identity_matrix;
     permutations :=
       list_to_map ((λ atom : Letter * nat, (atom.1, atom.1)) <$> atoms) |}.

(** [transform_list] *)
Definition transform_list atoms
    (proper_rigid_trans improper_rigid_trans : option (list Transform))
    (is_flat : bool) : list Transform :=
  let transform_list := [identity atoms] in
  let transform_list :=
    match proper_rigid_trans with
    | Some proper_rigid_trans => transform_list ++ proper_rigid_trans
    | None => transform_list
    end in
  if is_flat then
    match improper_rigid_trans with
    | Some improper_rigid_trans => transform_list ++ improper_rigid_trans
    | None => transform_list
    end
  else transform_list.

(** The loop [for i_atom, old_w in enumerate(old_wyckoff_letters)]. *)
Definition count_positions (perm : gmap Letter Letter) atoms
  : gmap (Letter * nat) nat :=
  foldl (λ wyckoff_positions '(old_w, z),
           match perm !! old_w with
           | Some new_w =>
               match wyckoff_positions !! (new_w, z) with
               | None => <[(new_w, z) := 1]> wyckoff_positions
               | Some old_n_atoms =>
                   <[(new_w, z) := old_n_atoms + 1]> wyckoff_positions
               end
           | None => wyckoff_positions
           end) ∅ atoms.

Definition representation atoms (transform : Transform) : Representation :=
  {| r_transformation := transformation transform;
     r_permutations := permutations transform;
     wyckoff_positions := count_positions (permutations transform) atoms |}.

(** [sorted(wyckoff_letters)]: the new letters of all permutations. *)
Definition all_wyckoff_letters (transform_list : list Transform) : list Letter :=
  let wyckoff_letters : gset Letter :=
    foldl (λ letters transform,
             foldl (λ letters '(orig, new), letters ∪ {[new]}) letters
                   (map_to_list (permutations transform)))
          ∅ transform_list in
  merge_sort letter_le (elements wyckoff_letters).

(** [sorted(set(system.get_atomic_numbers()))] *)
Definition all_atomic_numbers atoms : list nat :=
  merge_sort Nat.le (elements (list_to_set (snd <$> atoms) : gset nat)).

(** The body of the loop over [z]: the representations after the key
    [(w, z)]. *)
Definition n_atoms_max (key : Letter * nat) (representations : list Representation)
  : nat :=
  foldl (λ n_atoms_max r,
           match wyckoff_positions r !! key with
           | Some i_n => if n_atoms_max <? i_n then i_n else n_atoms_max
           | None => n_atoms_max
           end) 0 representations.

Definition narrow (key : Letter * nat) (representations : list Representation)
  : list Representation :=
  let n_atoms_max := n_atoms_max key representations in
  if negb (n_atoms_max =? 0) then
    List.filter (λ r, bool_decide (wyckoff_positions r !! key = Some n_atoms_max))
                representations
  else representations.

(** The two loops; the state is [representations] and [found]. *)
Definition loop_z (w : Letter) (atomic_numbers : list nat)
    (state : list Representation * bool) : list Representation * bool :=
  foldl (λ (state : list Representation * bool) z,
           let '(representations, found) := state in
           let representations := narrow (w, z) representations in
           if length representations =? 1 then (representations, true)
           else (representations, found)) state atomic_numbers.

Definition loop_w (wyckoff_letters : list Letter) (atomic_numbers : list nat)
    (state : list Representation * bool) : list Representation * bool :=
  foldl (λ (state : list Representation * bool) w,
           let '(representations, found) := state in
           if found then (representations, found)
           else loop_z w atomic_numbers (representations, found))
        state wyckoff_letters.

(** The comparison of a remaining representation with the first one. *)
Definition compare_positions (new_wyckoffs i_wyckoffs : gmap (Letter * nat) nat)
  : option GroundStateError :=
  if negb (size i_wyckoffs =? size new_wyckoffs) then Some SystaxError
  else
    foldl (λ error '(key, n),
             match error with
             | Some e => Some e
             | None =>
                 match i_wyckoffs !! key with
                 | None => Some KeyError
                 | Some i_n => if negb (i_n =? n) then Some SystaxError else None
                 end
             end) None (map_to_list new_wyckoffs).

Definition check_equal (representations : list Representation)
  : option GroundStateError :=
  if 1 <? length representations then
    match representations with
    | [] => None
    | first :: rest =>
        foldl (λ error representation,
                 match error with
                 | Some e => Some e
                 | None => compare_positions (wyckoff_positions first)
                                             (wyckoff_positions representation)
                 end) None rest
    end
  else None.

(** The representation the method makes [self._best_transform].  When the
    identity is the only transform the method returns before it counts
    anything: the counts of the identity are given here all the same, so
    that the result has one type. *)
Definition best_representation atoms
    (proper_rigid_trans improper_rigid_trans : option (list Transform))
    (is_flat : bool) : GroundStateError + Representation :=
  let transform_list :=
    transform_list atoms proper_rigid_trans improper_rigid_trans is_flat in
  if length transform_list =? 1 then inr (representation atoms (identity atoms))
  else
    let representations := representation atoms <$> transform_list in
    let wyckoff_letters := all_wyckoff_letters transform_list in
    let atomic_numbers := all_atomic_numbers atoms in
    let '(representations, found) :=
      loop_w wyckoff_letters atomic_numbers (representations, false) in
    match check_equal representations with
    | Some error => inl error
    | None =>
        match representations with
        | best_representation :: _ => inr best_representation
        | [] => inl IndexError
        end
    end.

(** *** The selection in the words of the specification *)

(** The atom count of a representation at a key. *)
Definition atom_count (r : Representation) (key : Letter * nat) : nat :=
  default 0 (wyckoff_positions r !! key).

Definition max_atom_count (key : Letter * nat) (candidates : list Representation)
  : nat :=
  max_list ((λ r, atom_count r key) <$> candidates).

(** Discard the candidates that do not achieve the maximum count. *)
Definition discard_below_max (key : Letter * nat) (candidates : list Representation)
  : list Representation :=
  List.filter (λ r, atom_count r key =? max_atom_count key candidates) candidates.

(** Narrow key by key, stop as soon as exactly one candidate remains. *)
Fixpoint narrow_spec (keys : list (Letter * nat)) (candidates : list Representation)
  : list Representation :=
  match keys with
  | [] => candidates
  | key :: keys =>
      let candidates := discard_below_max key candidates in
      if length candidates =? 1 then candidates
      else narrow_spec keys candidates
  end.

(** Letters in alphabetical order, within a letter the species in
    ascending atomic number. *)
Definition keys_in_order (wyckoff_letters : list Letter) (atomic_numbers : list nat)
  : list (Letter * nat) :=
  w ← wyckoff_letters; z ← atomic_numbers; [(w, z)].

Definition same_counts (r1 r2 : Representation) : Prop :=
  wyckoff_positions r1 = wyckoff_positions r2.

#[global] Instance same_counts_dec : RelDecision same_counts.
Proof. intros r1 r2. unfold same_counts. apply _. Defined.

Definition ground_state_spec (wyckoff_letters : list Letter)
    (atomic_numbers : list nat) (candidates : list Representation)
  : GroundStateError + Representation :=
  let survivors :=
    narrow_spec (keys_in_order wyckoff_letters atomic_numbers) candidates in
  match survivors with
  | [] => inl IndexError
  | first :: rest =>
      if bool_decide (Forall (same_counts first) rest) then inr first
      else inl SystaxError
  end.

End GroundState.

(** A sodium atom at the letter b and a chlorine atom at the letter a, and
    a transformation (numbered 1, the identity is 0) that exchanges the two
    letters. *)
Definition exchange_a_b : @Transform nat :=
  {| transformation := 1;
     permutations := {[ "a"%char := "b"%char; "b"%char := "a"%char ]} |}.

Definition rock_salt_atoms : list (Letter * nat) :=
  [ ("b"%char, 11); ("a"%char, 17) ].

(** ** [SymmetryAnalyzer.get_conventional_lattice_fit] *)

Section LatticeFit.
Local Open Scope Q_scope.

(** A 3x3 array, by rows. *)
Definition Vector : Type := Q * Q * Q.
Definition Matrix3 : Type := Vector * Vector * Vector.

(** [np.linalg.det] *)
Definition det (m : Matrix3) : Q :=
  let '((a, b, c), (d, e, f), (g, h, i)) := m in
  a * (e * i - f * h) - b * (d * i - f * g) + c * (d * h - e * g).

(** [m.T] *)
Definition transpose (m : Matrix3) : Matrix3 :=
  let '((a, b, c), (d, e, f), (g, h, i)) := m in
  ((a, d, g), (b, e, h), (c, f, i)).

(** [np.dot(m, n)] *)
Definition dot (m n : Matrix3) : Matrix3 :=
  let '((a, b, c), (d, e, f), (g, h, i)) := m in
  let '((a', b', c'), (d', e', f'), (g', h', i')) := n in
  ((a * a' + b * d' + c * g', a * b' + b * e' + c * h', a * c' + b * f' + c * i'),
   (d * a' + e * d' + f * g', d * b' + e * e' + f * h', d * c' + e * f' + f * i'),
   (g * a' + h * d' + i * g', g * b' + h * e' + i * h', g * c' + h * f' + i * i')).

(** [m * k] *)
Definition scale (k : Q) (m : Matrix3) : Matrix3 :=
  let '((a, b, c), (d, e, f), (g, h, i)) := m in
  ((k * a, k * b, k * c), (k * d, k * e, k * f), (k * g, k * h, k * i)).

Definition map_matrix (f : Q → Q) (m : Matrix3) : Matrix3 :=
  let '((a, b, c), (d, e, f'), (g, h, i)) := m in
  ((f a, f b, f c), (f d, f e, f f'), (f g, f h, f i)).

(** [np.linalg.inv]; [None] for a singular matrix ([LinAlgError]). *)
Definition inv (m : Matrix3) : option Matrix3 :=
  let '((a, b, c), (d, e, f), (g, h, i)) := m in
  let dt := det m in
  if Qeq_bool dt 0 then None
  else Some (((e * i - f * h) / dt, (c * h - b * i) / dt, (b * f - c * e) / dt),
             ((f * g - d * i) / dt, (a * i - c * g) / dt, (c * d - a * f) / dt),
             ((d * h - e * g) / dt, (b * g - a * h) / dt, (a * e - b * d) / dt)).

(** [Fraction(n, d)] for integers. *)
Definition Fraction (n d : Z) : Q := Qred (inject_Z n / inject_Z d).

(** The loop of [Fraction.limit_denominator] of Python's [fractions]: the
    convergents of the continued fraction of [n/d]. *)
Fixpoint convergents (fuel : nat) (max_denominator p0 q0 p1 q1 n d : Z)
  : Z * Z * Z * Z :=
  match fuel with
  | O => (p0, q0, p1, q1)
  | S fuel =>
      let a := (n / d)%Z in
      let q2 := (q0 + a * q1)%Z in
      if (max_denominator <? q2)%Z then (p0, q0, p1, q1)
      else convergents fuel max_denominator p1 q1 (p0 + a * p1)%Z q2 d (n - a * d)%Z
  end.

(** [Fraction(x).limit_denominator(max_denominator)]: the closest fraction
    to [x] whose denominator is at most [max_denominator]. The denominators
    [q1] grow at every turn of the loop after the first, so that
    [max_denominator + 2] turns are enough. *)
Definition limit_denominator (x : Q) (max_denominator : Z) : Q :=
  let x := Qred x in
  let n := Qnum x in
  let d := Zpos (Qden x) in
  if (d <=? max_denominator)%Z then x
  else
    let '(p0, q0, p1, q1) :=
      convergents (Z.to_nat max_denominator + 2) max_denominator 0 1 1 0 n d in
    let k := ((max_denominator - q0) / q1)%Z in
    let bound1 := Fraction (p0 + k * p1) (q0 + k * q1) in
    let bound2 := Fraction p1 q1 in
    if Qle_bool (Qabs (bound2 - x)) (Qabs (bound1 - x)) then bound2 else bound1.

(** A quotient of floating point numbers; [None] when the divisor is zero
    (NumPy then gives [inf] or [nan], no number). *)
Definition divide (a b : Q) : option Q :=
  if Qeq_bool b 0 then None else Some (a / b).

(** [orig_sys.get_volume()] of [ase] *)
Definition get_volume (cell : Matrix3) : Q := Qabs (det cell).

(** The method, on the cell and the atom count of the conventional system
    and of the analyzed system; [None] when the result is no matrix of
    numbers. *)
Definition get_conventional_lattice_fit (conv_cell : Matrix3) (n_atoms_conv : nat)
    (orig_cell : Matrix3) (n_atoms_original : nat) : option Matrix3 :=
  orig_cell_inv ← inv (transpose orig_cell);
  let coeff := dot conv_cell orig_cell_inv in
  let coeff := map_matrix (λ old_value, limit_denominator old_value 10) coeff in
  let new_std_lattice := dot coeff orig_cell in
  let vol_original := get_volume orig_cell in
  let vol_conv := Qabs (det new_std_lattice) in
  vol_per_atom_orig ← divide vol_original (inject_Z (Z.of_nat n_atoms_original));
  vol_per_atom_conv ← divide vol_conv (inject_Z (Z.of_nat n_atoms_conv));
  factor ← divide vol_per_atom_orig vol_per_atom_conv;
  Some (scale factor new_std_lattice).

(** The lattice before the final scaling, and the factor. *)
Definition unscaled_lattice (conv_cell orig_cell : Matrix3) : option Matrix3 :=
  orig_cell_inv ← inv (transpose orig_cell);
  let coeff := dot conv_cell orig_cell_inv in
  let coeff := map_matrix (λ old_value, limit_denominator old_value 10) coeff in
  Some (dot coeff orig_cell).

(** [a] is [b] within the relative tolerance [rtol]. *)
Definition close_rel (rtol a b : Q) : bool :=
  Qle_bool (Qabs (a - b)) (rtol * Qabs b).

(** [np.allclose(a, b, atol=atol)] of the regression tests, with NumPy's
    default [rtol = 1e-5]. *)
Definition allclose (atol a b : Q) : bool :=
  Qle_bool (Qabs (a - b)) (atol + (1 # 100000) * Qabs b).

(** The volume per atom of a lattice. *)
Definition volume_per_atom (cell : Matrix3) (n_atoms : nat) : Q :=
  Qabs (det cell) / inject_Z (Z.of_nat n_atoms).

(** A simple cubic cell of edge 3 with one atom, and its supercell of
    eleven cells along the third axis. *)
Definition cubic_cell : Matrix3 := ((3, 0, 0), (0, 3, 0), (0, 0, 3)).
Definition supercell_11 : Matrix3 := ((3, 0, 0), (0, 3, 0), (0, 0, 33)).

End LatticeFit.

(** ** [SymmetryAnalyzer._get_wyckoff_groups]: the free variables of a group *)

Section FreeVariables.
Local Open Scope Q_scope.

(** The free variables ["x"], ["y"], ["z"]. *)
Inductive FreeVariable := var_x | var_y | var_z.

#[global] Instance FreeVariable_eq_dec : EqDecision FreeVariable.
Proof. solve_decision. Defined.

(** A coordinate expression of [WYCKOFF_POSITIONS], as [ast.parse] reads
    the string: numbers, names, the four binary operators and the unary
    minus that [eval_] knows. *)
Inductive Operator := Add | Sub | Mult | Div.

Inductive Expression :=
| Num (n : Q)
| Name (id : FreeVariable)
| BinOp (left_ : Expression) (op : Operator) (right_ : Expression)
| UnaryOp_USub (operand : Expression).

(** The three expressions of a position. *)
Definition Expressions : Type := Expression * Expression * Expression.

(** The dictionary [values]. *)
Definition Values : Type := FreeVariable → option Q.

Definition no_values : Values := λ _, None.

(** [values[variable] = value] *)
Definition set_value (values : Values) (variable : FreeVariable) (value : Q)
  : Values :=
  λ v, if decide (v = variable) then Some value else values v.

(** [expr.replace(variable, str(value))] for every variable of
    [variables_present], on the parsed expression. *)
Fixpoint replace (variables_present : list FreeVariable) (values : Values)
    (expr : Expression) : Expression :=
  match expr with
  | Num n => Num n
  | Name id =>
      if bool_decide (id ∈ variables_present) then
        match values id with
        | Some value => Num value
        | None => Name id
        end
      else Name id
  | BinOp left_ op right_ =>
      BinOp (replace variables_present values left_) op
            (replace variables_present values right_)
  | UnaryOp_USub operand => UnaryOp_USub (replace variables_present values operand)
  end.

(** [eval_]; [None] when it raises ([TypeError] for a name that is left,
    [ZeroDivisionError]). *)
Fixpoint eval_ (node : Expression) : option Q :=
  match node with
  | Num n => Some n
  | Name _ => None
  | BinOp left_ op right_ =>
      l ← eval_ left_;
      r ← eval_ right_;
      match op with
      | Add => Some (l + r)
      | Sub => Some (l - r)
      | Mult => Some (l * r)
      | Div => if Qeq_bool r 0 then None else Some (l / r)
      end
  | UnaryOp_USub operand => v ← eval_ operand; Some (- v)
  end.

(** [systax.geometry.get_wrapped_positions], on one coordinate and on a
    position. *)
Definition wrap_coordinate (c : Q) : Q :=
  let c := c - inject_Z (Qfloor c) in
  let abs_zero := Qabs c in
  let abs_unity := Qabs (abs_zero - 1) in
  if Qlt_le_dec abs_unity (1 # 100000) then 0
  else if Qlt_le_dec abs_zero (1 # 100000) then 0
  else c.

Definition get_wrapped_positions (scaled_pos : Vector) : Vector :=
  let '(a, b, c) := scaled_pos in
  (wrap_coordinate a, wrap_coordinate b, wrap_coordinate c).

(** The displacement of [_search_periodic_positions], one coordinate. *)
Definition periodic_displacement (d : Q) : Q :=
  let d := if Qlt_le_dec (1 # 2) d then d - 1 else d in
  if Qlt_le_dec d (- (1 # 2)) then d + 1 else d.

(** The square of [np.linalg.norm] of [np.dot(displacement, cell.T)]. *)
Definition cartesian_distance2 (cell : Matrix3) (target_pos pos : Vector) : Q :=
  let '(t1, t2, t3) := target_pos in
  let '(p1, p2, p3) := pos in
  let d1 := periodic_displacement (p1 - t1) in
  let d2 := periodic_displacement (p2 - t2) in
  let d3 := periodic_displacement (p3 - t3) in
  let '((a, b, c), (d, e, f), (g, h, i)) := cell in
  let c1 := d1 * a + d2 * b + d3 * c in
  let c2 := d1 * d + d2 * e + d3 * f in
  let c3 := d1 * g + d2 * h + d3 * i in
  c1 * c1 + c2 * c2 + c3 * c3.

(** [np.argmin]: the first index of the least element, with the element. *)
Fixpoint argmin (distances : list Q) : option (nat * Q) :=
  match distances with
  | [] => None
  | d :: rest =>
      match argmin rest with
      | Some (j, m) => if Qlt_le_dec m d then Some (S j, m) else Some (O, d)
      | None => Some (O, d)
      end
  end.

(** [_search_periodic_positions]: the index of the closest position when
    its distance is at most [accuracy].  Distances are compared by their
    squares: [sqrt(d2) <= accuracy] is [0 <= accuracy] and
    [d2 <= accuracy^2]. *)
Definition _search_periodic_positions (target_pos : Vector)
    (positions : list Vector) (cell : Matrix3) (accuracy : Q) : option nat :=
  match argmin (cartesian_distance2 cell target_pos <$> positions) with
  | Some (min_index, min_distance2) =>
      if Qle_bool 0 accuracy && Qle_bool min_distance2 (accuracy * accuracy)
      then Some min_index else None
  | None => None
  end.

(** [_search_periodic_positions(target_pos, pos, cell, precision) is not
    None], for one position [pos]. *)
Definition found_position (target_pos pos : Vector) (cell : Matrix3)
    (precision : Q) : bool :=
  match _search_periodic_positions target_pos [pos] cell precision with
  | Some _ => true
  | None => false
  end.

(** The component of a position a variable stands for. *)
Definition component (pos : Vector) (variable : FreeVariable) : Q :=
  let '(a, b, c) := pos in
  match variable with var_x => a | var_y => b | var_z => c end.

(** The trial values of an atom. *)
Definition trial_values (variables_present : list FreeVariable) (pos : Vector)
  : Values :=
  foldl (λ values variable, set_value values variable (component pos variable))
        no_values variables_present.

(** A position of the table evaluated with the values, wrapped. *)
Definition evaluate (variables_present : list FreeVariable) (values : Values)
    (expression : Expressions) : option Vector :=
  let '(e1, e2, e3) := expression in
  v1 ← eval_ (replace variables_present values e1);
  v2 ← eval_ (replace variables_present values e2);
  v3 ← eval_ (replace variables_present values e3);
  Some (get_wrapped_positions (v1, v2, v3)).

Inductive Resolution :=
| Resolved (final_variables : Values)
| ValueError_not_resolved    (* "Could not resolve the free Wyckoff parameters ..." *)
| EvalError                  (* an exception of [eval_expr] *)
| IndexError_no_expression.  (* [coordinate_expressions[0]] of an empty list *)

(** The test of the other expressions for one atom: [None] when an
    expression cannot be evaluated, else [variables_ok].  The position that
    is searched among the atoms is [evaluated_pos], the position of the
    first expression; [eval_pos] is computed and not used. *)
Definition other_expressions_ok (variables_present : list FreeVariable)
    (values : Values) (evaluated_pos : Vector)
    (other_expressions : list Expressions)
    (group_positions : list Vector) (cell : Matrix3) (precision : Q)
  : option bool :=
  foldl (λ variables_ok expression,
           variables_ok ← variables_ok;
           eval_pos ← evaluate variables_present values expression;
           let wyckoff_coord_matched :=
             existsb (λ pos, found_position evaluated_pos pos cell precision)
                     group_positions in
           if negb wyckoff_coord_matched then Some false else Some variables_ok)
        (Some true) other_expressions.

(** The loop over the atoms of the group, whose positions are
    [group_positions]: [variables_values], or [None] when an expression
    cannot be evaluated. *)
Definition collect_variables_values (variables_present : list FreeVariable)
    (first_expression : Expressions) (other_expressions : list Expressions)
    (group_positions : list Vector) (cell : Matrix3) (precision : Q)
  : option (list Values) :=
  foldl (λ variables_values pos,
           variables_values ← variables_values;
           let values := trial_values variables_present pos in
           evaluated_pos ← evaluate variables_present values first_expression;
           if found_position evaluated_pos pos cell precision then
             variables_ok ← other_expressions_ok variables_present values
                              evaluated_pos other_expressions group_positions
                              cell precision;
             if variables_ok : bool then Some (variables_values ++ [values])
             else Some variables_values
           else Some variables_values)
        (Some []) group_positions.

(** [np.lexsort(keys)]: the indices that sort the rows, by the last key
    first, then by the one before, and so on; the sort is stable.
    [key_compare] takes the keys from the last to the first. *)
Fixpoint key_compare (keys_reversed : list (list Q)) (i j : nat) : comparison :=
  match keys_reversed with
  | [] => Eq
  | key :: rest =>
      match nth i key 0 ?= nth j key 0 with
      | Eq => key_compare rest i j
      | c => c
      end
  end.

Fixpoint insert_index (keys_reversed : list (list Q)) (i : nat) (sorted : list nat)
  : list nat :=
  match sorted with
  | [] => [i]
  | j :: rest =>
      match key_compare keys_reversed i j with
      | Lt => i :: j :: rest
      | _ => j :: insert_index keys_reversed i rest
      end
  end.

Definition lexsort (keys : list (list Q)) : list nat :=
  let n := match keys with [] => O | key :: _ => length key end in
  foldl (λ sorted i, insert_index (rev keys) i sorted) [] (seq 0 n).

(** [inversion_variables]: the values of x, y, z that are there, in this
    order. *)
Definition inversion_variables (variable_set : Values) : list Q :=
  option_list (variable_set var_x) ++ option_list (variable_set var_y)
  ++ option_list (variable_set var_z).

(** The choice among several sets of values: [variables_values[min_index]]. *)
Definition choose_variables (variables_values : list Values) : option Values :=
  let test_variables := inversion_variables <$> variables_values in
  let n_variables :=
    match test_variables with [] => O | row :: _ => length row end in
  let variable_columns :=
    (λ i_var, (λ row, nth i_var row 0) <$> test_variables) <$> seq 0 n_variables in
  let sorted_indices := lexsort variable_columns in
  min_index ← head sorted_indices;
  variables_values !! min_index.

(** The resolution of the free variables of one group. *)
Definition resolve_free_variables (variables_present : list FreeVariable)
    (coordinate_expressions : list Expressions)
    (group_positions : list Vector) (cell : Matrix3) (precision : Q)
  : Resolution :=
  match coordinate_expressions with
  | [] => IndexError_no_expression
  | first_expression :: other_expressions =>
      match collect_variables_values variables_present first_expression
              other_expressions group_positions cell precision with
      | None => EvalError
      | Some [] => ValueError_not_resolved
      | Some [final_variables] => Resolved final_variables
      | Some variables_values =>
          match choose_variables variables_values with
          | Some final_variables => Resolved final_variables
          | None => ValueError_not_resolved
          end
      end
  end.

(** *** The resolution in the words of the specification *)

(** The position of an expression matches some member atom. *)
Definition matches_member (variables_present : list FreeVariable)
    (values : Values) (group_positions : list Vector) (cell : Matrix3)
    (precision : Q) (expression : Expressions) : bool :=
  match evaluate variables_present values expression with
  | Some eval_pos =>
      bool_decide
        (is_Some (_search_periodic_positions eval_pos group_positions cell precision))
  | None => false
  end.

(** The trial values of an atom pass when every expression of the letter
    matches a member. *)
Definition passes (variables_present : list FreeVariable)
    (coordinate_expressions : list Expressions)
    (group_positions : list Vector) (cell : Matrix3) (precision : Q)
    (pos : Vector) : bool :=
  forallb (matches_member variables_present (trial_values variables_present pos)
             group_positions cell precision)
          coordinate_expressions.

(** The tuple (x, y, z) of a set is smaller, x first. *)
Fixpoint tuple_compare (t1 t2 : list Q) : comparison :=
  match t1, t2 with
  | a :: t1, b :: t2 =>
      match a ?= b with
      | Eq => tuple_compare t1 t2
      | c => c
      end
  | [], [] => Eq
  | [], _ :: _ => Lt
  | _ :: _, [] => Gt
  end.

(** The lexicographically smallest set, the first on a tie. *)
Definition smallest_variables (variables_values : list Values) : option Values :=
  foldl (λ best variable_set,
           match best with
           | None => Some variable_set
           | Some b =>
               match tuple_compare (inversion_variables variable_set)
                                   (inversion_variables b) with
               | Lt => Some variable_set
               | _ => Some b
               end
           end) None variables_values.

(** *** Two groups *)

(** A cubic cell of edge 10. *)
Definition cell_10 : Matrix3 := ((10, 0, 0), (0, 10, 0), (0, 0, 10)).

(** A letter with the positions (x, 0, 0) and (-x, 0, 0), and two atoms
    that are no images of each other. *)
Definition line_expressions : list Expressions :=
  [ (Name var_x, Num 0, Num 0); (UnaryOp_USub (Name var_x), Num 0, Num 0) ].
Definition line_group : list Vector := [ (1 # 10, 0, 0); (3 # 10, 0, 0) ].

(** A letter with the positions (x, y, 0) and (-x, -y, 0), and its two
    atoms. *)
Definition plane_expressions : list Expressions :=
  [ (Name var_x, Name var_y, Num 0);
    (UnaryOp_USub (Name var_x), UnaryOp_USub (Name var_y), Num 0) ].
Definition plane_group : list Vector := [ (1 # 10, 9 # 10, 0); (9 # 10, 1 # 10, 0) ].

End FreeVariables.

(** ** [SymmetryAnalyzer._wrap_positions] *)

Section WrapPositions.
Local Open Scope Q_scope.

(** What the method does to one element of the array: [%= 1], and the
    elements nearer than [precision] to unity or to zero are set to zero.
    The two masks are taken before the array is written to. *)
Definition _wrap_position (precision : Q) (c : Q) : Q :=
  let wrapped := c - inject_Z (Qfloor c) in
  let abs_zero := Qabs wrapped in
  let abs_unity := Qabs (abs_zero - 1) in
  if Qlt_le_dec abs_unity precision then 0
  else if Qlt_le_dec abs_zero precision then 0
  else wrapped.

(** The method returns the wrapped array; the second component is the
    array of the caller after the call, which is the returned array when
    [copy] is false. *)
Definition _wrap_positions (positions : list Vector) (precision : Q) (copy : bool)
  : list Vector * list Vector :=
  let wrapped_positions :=
    (λ '(a, b, c), (_wrap_position precision a, _wrap_position precision b,
                    _wrap_position precision c)) <$> positions in
  (wrapped_positions, if copy then positions else wrapped_positions).

End WrapPositions.

(** ** [SymmetryAnalyzer._get_primitive_system] *)

Section PrimitiveSystem.
Local Open Scope Q_scope.

(** What the method uses of [ase.Atoms]: the three getters of the
    conventional system, the constructor [Atoms(scaled_positions=...,
    symbols=..., cell=...)] and [wrap(pbc=True)], which gives the wrapped
    system here. *)
Context {System : Type}.
Variable get_cell : System → Matrix3.
Variable get_positions : System → list Vector.
Variable get_atomic_numbers : System → list nat.
Variable Atoms : list Vector → list nat → Matrix3 → System.
Variable wrap : System → System.

Inductive PrimitiveSystemError :=
| IndexError_empty_symbol    (* [space_group_international_short[0]] *)
| KeyError_centring          (* [primitive_transformations[centring]] *)
| LinAlgError_singular       (* [np.linalg.inv(prim_cell)] *)
| IndexError_inside_mask.    (* an index of [inside_mask] beyond an array *)

(** The dictionary of the method. *)
Definition primitive_transformations : gmap ascii Matrix3 :=
  {[ "A"%char := ((1, 0, 0),
                  (0, 1 # 2, - (1 # 2)),
                  (0, 1 # 2, 1 # 2));
     "C"%char := ((1 # 2, 1 # 2, 0),
                  (- (1 # 2), 1 # 2, 0),
                  (0, 0, 1));
     "R"%char := ((2 # 3, - (1 # 3), - (1 # 3)),
                  (1 # 3, 1 # 3, - (2 # 3)),
                  (1 # 3, 1 # 3, 1 # 3));
     "I"%char := ((- (1 # 2), 1 # 2, 1 # 2),
                  (1 # 2, - (1 # 2), 1 # 2),
                  (1 # 2, 1 # 2, - (1 # 2)));
     "F"%char := ((0, 1 # 2, 1 # 2),
                  (1 # 2, 0, 1 # 2),
                  (1 # 2, 1 # 2, 0)) ]}.

(** [np.dot(v, m)] for a row [v] of an Nx3 array. *)
Definition dot_vector (v : Vector) (m : Matrix3) : Vector :=
  let '(x, y, z) := v in
  let '((a, b, c), (d, e, f), (g, h, i)) := m in
  (x * a + y * d + z * g, x * b + y * e + z * h, x * c + y * f + z * i).

(** [np.unique(ar, return_index=True)]: the sorted values without
    repetition, and for each of them the index of its first occurrence in
    [ar] (every value is found, the default is never taken). *)
Definition unique (ar : list Z) : list Z * list nat :=
  let values := merge_sort Z.le (remove_dups ar) in
  (values, (λ v, from_option fst O (list_find (λ x, x = v) ar)) <$> values).

(** [ar[indices]] for an array of indices; [None] is the [IndexError]. *)
Definition index_array {A} (ar : list A) (indices : list nat) : option (list A) :=
  mapM (λ i, ar !! i) indices.

(** The method; [std_mapping_to_primitive] is
    [self._symmetry_dataset["std_mapping_to_primitive"]]. *)
Definition _get_primitive_system (std_mapping_to_primitive : list Z)
    (conv_system : System) (conv_wyckoff : list Letter)
    (conv_equivalent : list Z) (space_group_international_short : string)
  : PrimitiveSystemError + (System * list Letter * list Z) :=
  match space_group_international_short with
  | EmptyString => inl IndexError_empty_symbol
  | String centring _ =>
      if decide (centring = "P"%char) then
        inr (conv_system, conv_wyckoff, conv_equivalent)
      else
        match primitive_transformations !! centring with
        | None => inl KeyError_centring
        | Some transform =>
            let conv_cell := get_cell conv_system in
            let prim_cell := dot (transpose transform) conv_cell in
            let conv_pos := get_positions conv_system in
            match inv prim_cell with
            | None => inl LinAlgError_singular
            | Some prim_cell_inv =>
                let prim_pos :=
                  (λ pos, dot_vector pos prim_cell_inv) <$> conv_pos in
                let conv_num := get_atomic_numbers conv_system in
                let conv_to_prim_map := std_mapping_to_primitive in
                let inside_mask := (unique conv_to_prim_map).2 in
                match index_array prim_pos inside_mask,
                      index_array conv_num inside_mask,
                      index_array conv_wyckoff inside_mask,
                      index_array conv_equivalent inside_mask with
                | Some prim_pos, Some prim_num, Some prim_wyckoff,
                  Some prim_equivalent =>
                    let prim_sys := Atoms prim_pos prim_num prim_cell in
                    let prim_sys := wrap prim_sys in
                    inr (prim_sys, prim_wyckoff, prim_equivalent)
                | _, _, _, _ => inl IndexError_inside_mask
                end
            end
        end
  end.

End PrimitiveSystem.

End SymmetryAnalyzer.

(* ===================================================================== *)
(** * systax/geometry/geometry.py                                         *)
(* ===================================================================== *)

Module SystaxGeometry.

(** ** [Intervals]: a list of intervals with its merged form *)

Section IntervalsClass.
Local Open Scope Q_scope.

(** An interval is the tuple [(start, end)]. *)
Definition Interval : Type := Q * Q.

(** The attributes of an instance. *)
Record Intervals := {
  _intervals : list Interval;
  _merged_intervals : list Interval;
  _merged_intervals_need_update : bool;
}.

Inductive IntervalsError :=
| ValueError_length              (* "Intervals must be tuples of length 2!" *)
| ValueError_max_of_empty        (* [max] of an empty list *)
| IndexError_no_interval.        (* [sorted_by_start[0]], [merged[-1]] of an empty list *)

(** [add_interval]: the tuple stored is [(min(a, b), max(a, b))]. *)
Definition add_interval (self : Intervals) (a b : Q) : Intervals :=
  {| _intervals := _intervals self ++ [(Qmin a b, Qmax a b)];
     _merged_intervals := _merged_intervals self;
     _merged_intervals_need_update := true |}.

(** [add_intervals]: the intervals are sequences of numbers; the first one
    that does not have two components raises, after the ones before it
    were added. *)
Fixpoint add_intervals (self : Intervals) (intervals : list (list Q))
  : option IntervalsError * Intervals :=
  match intervals with
  | [] => (None, self)
  | interval :: intervals =>
      if (length interval =? 2)%nat then
        add_intervals (add_interval self (nth 0 interval 0) (nth 1 interval 0))
                      intervals
      else (Some ValueError_length, self)
  end.

(** [Intervals(intervals)]; [None] stands for the default argument. *)
Definition __init__ (intervals : option (list (list Q)))
  : option IntervalsError * Intervals :=
  let self := {| _intervals := []; _merged_intervals := [];
                 _merged_intervals_need_update := true |} in
  match intervals with
  | Some intervals => add_intervals self intervals
  | None => (None, self)
  end.

(** [set_intervals] *)
Definition set_intervals (self : Intervals) (intervals : list (list Q))
  : option IntervalsError * Intervals :=
  add_intervals {| _intervals := [];
                   _merged_intervals := _merged_intervals self;
                   _merged_intervals_need_update :=
                     _merged_intervals_need_update self |} intervals.

(** [remove_interval]: [del self._intervals[i]] takes a negative index from
    the end; the [IndexError] of an index out of range is caught and the
    instance stays as it is. *)
Definition remove_interval (self : Intervals) (i : Z) : Intervals :=
  let n := Z.of_nat (length (_intervals self)) in
  let i := if (i <? 0)%Z then (i + n)%Z else i in
  if ((0 <=? i) && (i <? n))%Z then
    {| _intervals := delete (Z.to_nat i) (_intervals self);
       _merged_intervals := _merged_intervals self;
       _merged_intervals_need_update := true |}
  else self.

Definition get_intervals (self : Intervals) : list Interval := _intervals self.

(** [sorted(l, key=key)]: the sort is stable, an element goes behind the
    elements that were there with a key that is not larger. *)
Fixpoint insert_sorted (key : Interval → Q) (x : Interval) (sorted : list Interval)
  : list Interval :=
  match sorted with
  | [] => [x]
  | y :: rest =>
      if Qlt_le_dec (key x) (key y) then x :: y :: rest
      else y :: insert_sorted key x rest
  end.

Definition sorted (key : Interval → Q) (l : list Interval) : list Interval :=
  foldl (λ sorted x, insert_sorted key x sorted) [] l.

Definition get_intervals_sorted_by_start (self : Intervals) : list Interval :=
  sorted fst (_intervals self).

Definition get_intervals_sorted_by_end (self : Intervals) : list Interval :=
  sorted snd (_intervals self).

(** The body of [for current in sorted_by_start[1:]]. *)
Definition merge_step (merged : list Interval) (current : Interval)
  : list Interval :=
  match last merged with
  | Some previous =>
      if Qlt_le_dec previous.2 current.1 then merged ++ [current]
      else if Qlt_le_dec previous.2 current.2 then
        <[(length merged - 1)%nat := (previous.1, current.2)]> merged
      else merged
  | None => merged
  end.

(** [get_merged_intervals].  With no interval the method returns
    [self._intervals] and leaves the flag as it is.  The sorted list of a
    list that is not empty is not empty: its last case is never taken. *)
Definition get_merged_intervals (self : Intervals) : list Interval * Intervals :=
  if _merged_intervals_need_update self then
    if (length (_intervals self) <? 1)%nat then (_intervals self, self)
    else
      let sorted_by_start := get_intervals_sorted_by_start self in
      match sorted_by_start with
      | first :: rest =>
          let merged := foldl merge_step [first] rest in
          (merged, {| _intervals := _intervals self;
                      _merged_intervals := merged;
                      _merged_intervals_need_update := false |})
      | [] => (_merged_intervals self, self)
      end
  else (_merged_intervals self, self).

(** [max(distances)]: the first of the largest elements. *)
Definition max_ (l : list Q) : option Q :=
  match l with
  | [] => None
  | d :: rest => Some (foldl Qmax d rest)
  end.

(** The distances between the merged intervals that follow each other. *)
Fixpoint distances (merged_intervals : list Interval) : list Q :=
  match merged_intervals with
  | previous :: (next :: _) as rest =>
      Qabs (next.1 - previous.2) :: distances rest
  | _ => []
  end.

(** [get_max_distance_between_intervals]: [inr None] is Python's [None]. *)
Definition get_max_distance_between_intervals (self : Intervals)
  : (IntervalsError + option Q) * Intervals :=
  if (length (_intervals self) <? 2)%nat then (inr None, self)
  else
    let '(merged_intervals, self) := get_merged_intervals self in
    if (length merged_intervals =? 1)%nat then (inr (Some 0), self)
    else
      match max_ (distances merged_intervals) with
      | Some d => (inr (Some d), self)
      | None => (inl ValueError_max_of_empty, self)
      end.

(** [_add_up] *)
Definition _add_up (intervals : list Interval) : option Q :=
  if (length intervals <? 1)%nat then None
  else Some (foldl (λ result interval, result + Qabs (interval.2 - interval.1))
                   0 intervals).

Definition add_up_intervals (self : Intervals) : option Q :=
  _add_up (_intervals self).

Definition add_up_merged_intervals (self : Intervals) : option Q * Intervals :=
  let '(merged_intervals, self) := get_merged_intervals self in
  (_add_up merged_intervals, self).

End IntervalsClass.

(** ** [get_center_of_mass] *)

Section CenterOfMass.
Local Open Scope Q_scope.

(** A position, and an atom of an [ase.Atoms] object as the function reads
    it: its mass and its position. *)
Definition Vector : Type := Q * Q * Q.
Definition Atom : Type := Q * Vector.

Definition get_positions (system : list Atom) : list Vector := snd <$> system.
Definition get_masses (system : list Atom) : list Q := fst <$> system.

(** [weights.sum()] *)
Definition sum (weights : list Q) : Q := foldl Qplus 0 weights.

(** [np.dot(weights, rows)] for a vector and an Nx3 array of the same
    length. *)
Definition dot_weights (weights : list Q) (rows : list Vector) : Vector :=
  foldl (λ '(cx, cy, cz) '(w, (x, y, z)), (cx + w * x, cy + w * y, cz + w * z))
        (0, 0, 0) (zip weights rows).

(** The function.  With atoms and weights that sum to zero the elements of
    [positions/weights.sum()] are [inf] or [nan], and so are those of the
    result: [None].  With no atom the array is empty and the result is the
    zero vector. *)
Definition get_center_of_mass (system : list Atom) (weight : bool) : option Vector :=
  let positions := get_positions system in
  let weights :=
    if weight then get_masses system else replicate (length system) 1 in
  let total := sum weights in
  if bool_decide (positions ≠ []) && Qeq_bool total 0 then None
  else
    let cm := dot_weights weights
                ((λ '(x, y, z), (x / total, y / total, z / total)) <$> positions) in
    Some cm.

End CenterOfMass.
End SystaxGeometry.

(* ===================================================================== *)
(** * Properties of systax/core/linkedunits.py                            *)
(* ===================================================================== *)

Module LinkedUnitsTheory.
Import LinkedUnits.

(** ** Chemical distance *)

Section ChemicalDistance.
Implicit Types ideal_env real_env env : Environment.

(** The contribution of one entry of the ideal environment to the score. *)
Definition contribution real_env (item : nat * nat) : nat :=
  match real_env !! item.1 with
  | Some real_value => real_value `min` item.2
  | None => 0
  end.

Lemma score_loop real_env (l : list (nat * nat)) (acc : nat) :
  foldl (λ score '(ideal_key, ideal_value),
           match real_env !! ideal_key with
           | Some real_value => score + real_value `min` ideal_value
           | None => score
           end) acc l
  = acc + sum_list_with (contribution real_env) l.
Proof.
  revert acc. induction l as [|[k v] l IH]; intros acc; simpl.
  - lia.
  - rewrite IH. unfold contribution at 2. simpl.
    destruct (real_env !! k); lia.
Qed.

Lemma elements_dom_keys env : elements (dom env) ≡ₚ (map_to_list env).*1.
Proof.
  apply NoDup_Permutation.
  - apply NoDup_elements.
  - apply NoDup_fst_map_to_list.
  - intros k. rewrite elem_of_elements, elem_of_dom, list_elem_of_fmap.
    split.
    + intros [v Hv]. exists (k, v). split; [done|].
      by apply elem_of_map_to_list.
    + intros [[k' v] [-> Hin]]. exists v. by apply elem_of_map_to_list.
Qed.

Lemma sum_list_with_fmap {A B} (f : B → nat) (g : A → B) (l : list A) :
  sum_list_with f (g <$> l) = sum_list_with (f ∘ g) l.
Proof. induction l as [|a l IH]; csimpl; [done|]. by rewrite IH. Qed.

Lemma sum_list_with_ext_in {A} (f g : A → nat) (l : list A) :
  (∀ x, x ∈ l → f x = g x) → sum_list_with f l = sum_list_with g l.
Proof.
  induction l as [|a l IH]; intros H; simpl; [done|].
  rewrite (H a), IH; [done| |]; [|constructor].
  intros x Hx. apply H. by constructor.
Qed.

Lemma sum_list_with_le {A} (f g : A → nat) (l : list A) :
  (∀ x, x ∈ l → f x ≤ g x) → sum_list_with f l ≤ sum_list_with g l.
Proof.
  induction l as [|a l IH]; intros H; simpl; [done|].
  assert (f a ≤ g a) by (apply H; constructor).
  assert (sum_list_with f l ≤ sum_list_with g l).
  { apply IH. intros x Hx. apply H. by constructor. }
  lia.
Qed.

Lemma sum_list_with_zero {A} (f : A → nat) (l : list A) :
  (∀ x, x ∈ l → f x = 0) → sum_list_with f l = 0.
Proof.
  induction l as [|a l IH]; intros H; simpl; [done|].
  rewrite (H a), IH; [done| |constructor].
  intros x Hx. apply H. by constructor.
Qed.

(** [sum(ideal_env.values())] is the total of the specification. *)
Lemma max_score_total env : sum_list (map_to_list env).*2 = total env.
Proof.
  unfold total. rewrite (elements_dom_keys env).
  rewrite sum_list_with_fmap.
  pose proof (NoDup_fst_map_to_list env) as Hnd.
  assert (Hin : ∀ k v, (k, v) ∈ map_to_list env → env !! k = Some v).
  { intros k v. apply elem_of_map_to_list. }
  induction (map_to_list env) as [|[k v] l IH]; csimpl; [done|].
  unfold count at 1. rewrite (Hin k v) by constructor. simpl.
  rewrite IH; [done| |].
  - by inversion Hnd.
  - intros k' v' Hkv. apply Hin. by constructor.
Qed.

(** The score of the loop is the overlap of the specification. *)
Lemma score_overlap ideal_env real_env :
  sum_list_with (contribution real_env) (map_to_list ideal_env)
  = overlap ideal_env real_env.
Proof.
  unfold overlap.
  set (f := λ species, count ideal_env species `min` count real_env species).
  assert (Hsplit : dom ideal_env ∪ dom real_env
                   = dom ideal_env ∪ (dom real_env ∖ dom ideal_env)).
  { apply set_eq. intros x. rewrite !elem_of_union, elem_of_difference.
    destruct (decide (x ∈ dom ideal_env)); tauto. }
  assert (Hdisj : dom ideal_env ## dom real_env ∖ dom ideal_env).
  { intros x Hx [_ Hn]%elem_of_difference. done. }
  rewrite Hsplit, (elements_disj_union _ _ Hdisj).
  rewrite sum_list_with_app.
  rewrite (sum_list_with_zero f (elements (dom real_env ∖ dom ideal_env))).
  2:{ intros x [_ Hx]%elem_of_elements%elem_of_difference.
      apply not_elem_of_dom in Hx. unfold f, count. by rewrite Hx. }
  rewrite (elements_dom_keys ideal_env), sum_list_with_fmap, Nat.add_0_r.
  apply sum_list_with_ext_in. intros [k v] Hkv%elem_of_map_to_list.
  unfold contribution, f, count. simpl. rewrite Hkv. simpl.
  destruct (real_env !! k); simpl; lia.
Qed.

Lemma contribution_le real_env (item : nat * nat) :
  contribution real_env item ≤ item.2.
Proof. unfold contribution. destruct (real_env !! item.1); lia. Qed.

Lemma overlap_le_total ideal_env real_env :
  overlap ideal_env real_env ≤ total ideal_env.
Proof.
  rewrite <- score_overlap, <- max_score_total.
  assert (E : sum_list (map_to_list ideal_env).*2
              = sum_list_with snd (map_to_list ideal_env)).
  { induction (map_to_list ideal_env) as [|a l IH]; csimpl; [done|]. by rewrite IH. }
  rewrite E. apply sum_list_with_le. intros x _. apply contribution_le.
Qed.

(** What the method computes, in the terms of the specification. *)
Lemma get_chemical_distance_unfold ideal_env real_env :
  get_chemical_distance ideal_env real_env
  = if total ideal_env =? 0 then None
    else Some (chemical_distance_spec ideal_env real_env).
Proof.
  unfold get_chemical_distance, chemical_distance_spec.
  rewrite score_loop, max_score_total, score_overlap. done.
Qed.

Lemma ratio_bounds (a b : nat) :
  0 < b → a ≤ b →
  (0 <= inject_Z (Z.of_nat a) / inject_Z (Z.of_nat b)
   ∧ inject_Z (Z.of_nat a) / inject_Z (Z.of_nat b) <= 1)%Q.
Proof.
  intros Hb Hab.
  assert (Hb' : (0 < inject_Z (Z.of_nat b))%Q).
  { change 0%Q with (inject_Z 0). rewrite <- Zlt_Qlt. lia. }
  split.
  - apply Qle_shift_div_l; [done|]. rewrite Qmult_0_l.
    change 0%Q with (inject_Z 0). rewrite <- Zle_Qle. lia.
  - apply Qle_shift_div_r; [done|]. rewrite Qmult_1_l.
    rewrite <- Zle_Qle. lia.
Qed.

(** C8, as amended: when the ideal environment has at least one neighbour,
    the chemical distance returned is (sum over species of
    min(ideal count, real count)) / (sum of the ideal counts); it lies in
    [0, 1], is 1 when the real environment has at least the ideal count of
    every species, and is 0 when no species of the ideal environment is in
    the real one. *)
Theorem chemical_distance_positive_total ideal_env real_env :
  0 < total ideal_env →
  ∃ d : Q,
    get_chemical_distance ideal_env real_env = Some d
    ∧ (d == chemical_distance_spec ideal_env real_env)%Q
    ∧ (0 <= d)%Q ∧ (d <= 1)%Q
    ∧ ((∀ species, count ideal_env species ≤ count real_env species) → (d == 1)%Q)
    ∧ ((∀ species, species ∈ dom ideal_env → species ∉ dom real_env) → (d == 0)%Q).
Proof.
  intros Hpos. exists (chemical_distance_spec ideal_env real_env).
  rewrite get_chemical_distance_unfold.
  destruct (Nat.eqb_spec (total ideal_env) 0) as [E|_]; [lia|].
  pose proof (overlap_le_total ideal_env real_env) as Hle.
  destruct (ratio_bounds _ _ Hpos Hle) as [H0 H1].
  repeat split; try done.
  - intros Hall. unfold chemical_distance_spec.
    assert (E : overlap ideal_env real_env = total ideal_env).
    { rewrite <- score_overlap, <- max_score_total.
      transitivity (sum_list_with snd (map_to_list ideal_env)).
      - apply sum_list_with_ext_in. intros [k v] Hkv%elem_of_map_to_list.
        unfold contribution. simpl. specialize (Hall k). unfold count in Hall.
        rewrite Hkv in Hall. simpl in Hall.
        destruct (real_env !! k); simpl in Hall; lia.
      - induction (map_to_list ideal_env) as [|a l IH]; csimpl; [done|].
        by rewrite IH. }
    rewrite E. apply Qmult_inv_r. intros Hq.
    unfold Qeq in Hq. simpl in Hq. lia.
  - intros Hnone. unfold chemical_distance_spec.
    assert (E : overlap ideal_env real_env = 0).
    { rewrite <- score_overlap. apply sum_list_with_zero.
      intros [k v] Hkv%elem_of_map_to_list. unfold contribution. simpl.
      assert (Hk : k ∈ dom ideal_env) by (apply elem_of_dom; eauto).
      apply Hnone, not_elem_of_dom in Hk. by rewrite Hk. }
    rewrite E. simpl. unfold Qdiv. apply Qmult_0_l.
Qed.

(** The environments of a sodium atom in rock salt, ideal and with one
    neighbour missing and one replaced: species -> neighbour count. *)
Definition nacl_ideal : Environment := {[ 11 := 12; 17 := 6 ]}.
Definition nacl_real : Environment := {[ 11 := 12; 17 := 4; 35 := 1 ]}.

Lemma chemical_distance_positive_total_witness :
  0 < total nacl_ideal
  ∧ ∃ d : Q,
      get_chemical_distance nacl_ideal nacl_real = Some d
      ∧ (d == chemical_distance_spec nacl_ideal nacl_real)%Q
      ∧ (0 <= d)%Q ∧ (d <= 1)%Q
      ∧ ((∀ species, count nacl_ideal species ≤ count nacl_real species) → (d == 1)%Q)
      ∧ ((∀ species, species ∈ dom nacl_ideal → species ∉ dom nacl_real) → (d == 0)%Q).
Proof.
  assert (H : 0 < total nacl_ideal) by (vm_compute; lia).
  split; [exact H | exact (chemical_distance_positive_total nacl_ideal nacl_real H)].
Defined.

Example chemical_distance_nacl :
  get_chemical_distance nacl_ideal nacl_real = Some (16 # 18)%Q.
Proof. vm_compute. reflexivity. Qed.

(** The environment of an atom of the prototype cell that has no neighbour
    within the bond threshold: every species of the cell is a key, with
    count zero. *)
Definition isolated_env : Environment := {[ 26 := 0 ]}.

(** C8, counterexample: for an ideal environment without neighbours the
    method returns no number, although the real environment has the ideal
    count of every species (the claim gives 1.0 there). *)
Lemma chemical_distance_isolated_atom :
  (∀ species, count isolated_env species ≤ count isolated_env species)
  ∧ total isolated_env = 0
  ∧ get_chemical_distance isolated_env isolated_env = None.
Proof. split; [done|]. split; vm_compute; reflexivity. Qed.

(** *** The score as a function of the real environment *)

Lemma contribution_count real_env (item : nat * nat) :
  contribution real_env item = count real_env item.1 `min` item.2.
Proof. unfold contribution, count. by destruct (real_env !! item.1). Qed.

Lemma ratio_le (a a' b : nat) :
  0 < b → a ≤ a' →
  (inject_Z (Z.of_nat a) / inject_Z (Z.of_nat b)
   <= inject_Z (Z.of_nat a') / inject_Z (Z.of_nat b))%Q.
Proof.
  intros Hb Hle. unfold Qdiv. apply Qmult_le_compat_r.
  - rewrite <- Zle_Qle. lia.
  - apply Qinv_le_0_compat. change 0%Q with (inject_Z 0). rewrite <- Zle_Qle. lia.
Qed.

(** X1: the chemical distance never falls when the real environment gains
    neighbours: if every species has at least as many neighbours in
    [real_env'] as in [real_env], the distance to an ideal environment is at
    least as large for [real_env']. *)
Theorem chemical_distance_monotone ideal_env real_env real_env' (d d' : Q) :
  (∀ species, count real_env species ≤ count real_env' species) →
  get_chemical_distance ideal_env real_env = Some d →
  get_chemical_distance ideal_env real_env' = Some d' →
  (d <= d')%Q.
Proof.
  intros Hle. unfold get_chemical_distance. rewrite !score_loop. simpl.
  destruct (Nat.eqb_spec (sum_list (map_to_list ideal_env).*2) 0) as [|Hpos];
    [done|].
  intros [= <-] [= <-]. apply ratio_le; [lia|].
  apply sum_list_with_le. intros item _. rewrite !contribution_count.
  specialize (Hle item.1). lia.
Qed.

(** X2: the chemical distance sees the real environment only through the
    counts of the species of the ideal environment, each capped at its ideal
    count: species that the ideal environment does not have, and neighbours
    beyond the ideal count, change nothing. *)
Theorem chemical_distance_ignores_excess ideal_env real_env real_env' :
  (∀ species, species ∈ dom ideal_env →
     count real_env species `min` count ideal_env species
     = count real_env' species `min` count ideal_env species) →
  get_chemical_distance ideal_env real_env
  = get_chemical_distance ideal_env real_env'.
Proof.
  intros Hsame. unfold get_chemical_distance. rewrite !score_loop. simpl.
  assert (E : sum_list_with (contribution real_env) (map_to_list ideal_env)
              = sum_list_with (contribution real_env') (map_to_list ideal_env)).
  { apply sum_list_with_ext_in. intros [k v] Hkv%elem_of_map_to_list.
    rewrite !contribution_count. simpl.
    assert (Hk : k ∈ dom ideal_env) by (apply elem_of_dom; eauto).
    specialize (Hsame k Hk). unfold count at 2 4 in Hsame.
    rewrite Hkv in Hsame. exact Hsame. }
  by rewrite E.
Qed.

(** A sodium atom of rock salt with a full shell and two foreign atoms
    beside it. *)
Definition nacl_crowded : Environment := {[ 11 := 14; 17 := 6; 35 := 2 ]}.

Lemma chemical_distance_monotone_witness :
  (∀ species, count nacl_real species ≤ count nacl_crowded species)
  ∧ get_chemical_distance nacl_ideal nacl_real = Some (16 # 18)%Q
  ∧ get_chemical_distance nacl_ideal nacl_crowded = Some (18 # 18)%Q
  ∧ (16 # 18 <= 18 # 18)%Q.
Proof.
  assert (Hle : ∀ species, count nacl_real species ≤ count nacl_crowded species).
  { intros species. unfold count, nacl_real, nacl_crowded.
    destruct (decide (species = 11)) as [->|?]; [vm_compute; lia|].
    destruct (decide (species = 17)) as [->|?]; [vm_compute; lia|].
    destruct (decide (species = 35)) as [->|?]; [vm_compute; lia|].
    rewrite !lookup_insert_ne, !lookup_singleton_ne by done. simpl. lia. }
  assert (H1 : get_chemical_distance nacl_ideal nacl_real = Some (16 # 18)%Q)
    by (vm_compute; reflexivity).
  assert (H2 : get_chemical_distance nacl_ideal nacl_crowded = Some (18 # 18)%Q)
    by (vm_compute; reflexivity).
  split; [exact Hle|]. split; [exact H1|]. split; [exact H2|].
  exact (chemical_distance_monotone nacl_ideal nacl_real nacl_crowded _ _ Hle H1 H2).
Defined.

Lemma chemical_distance_ignores_excess_witness :
  (∀ species, species ∈ dom nacl_ideal →
     count nacl_crowded species `min` count nacl_ideal species
     = count nacl_ideal species `min` count nacl_ideal species)
  ∧ get_chemical_distance nacl_ideal nacl_crowded
    = get_chemical_distance nacl_ideal nacl_ideal.
Proof.
  assert (H : ∀ species, species ∈ dom nacl_ideal →
     count nacl_crowded species `min` count nacl_ideal species
     = count nacl_ideal species `min` count nacl_ideal species).
  { intros species Hin. unfold nacl_ideal in Hin.
    rewrite dom_insert, dom_singleton in Hin.
    assert (species = 11 ∨ species = 17) as [->| ->] by set_solver;
      vm_compute; reflexivity. }
  split; [exact H|].
  exact (chemical_distance_ignores_excess nacl_ideal nacl_crowded nacl_ideal H).
Defined.

End ChemicalDistance.

(** ** The chemical environment of an atom *)

Section ChemicalEnvironmentProperties.
Variable covalent_radii : nat → Q.
Variable bond_threshold : Q.

Local Abbreviation n_neigh := (n_neigh covalent_radii bond_threshold).
Local Abbreviation get_chemical_environment :=
  (get_chemical_environment covalent_radii bond_threshold).

(** The loop of the method adds the neighbours of every atom to the count of
    its species. *)
Lemma environment_loop (f : nat → nat → nat) (l : list (nat * nat))
    (neighbours : Environment) (species : nat) :
  count (foldl (λ (neighbours : Environment) '(j, j_num),
                  <[j_num := default 0 (neighbours !! j_num) + f j j_num]>
                    neighbours) neighbours l) species
  = count neighbours species
    + sum_list_with (λ '(j, j_num), if decide (j_num = species) then f j j_num else 0) l.
Proof.
  revert neighbours. induction l as [|[j j_num] l IH]; intros neighbours; simpl.
  - lia.
  - rewrite IH. unfold count.
    destruct (decide (j_num = species)) as [->|Hne].
    + rewrite lookup_insert_eq. simpl. lia.
    + rewrite lookup_insert_ne by done. lia.
Qed.

Lemma environment_loop_dom (f : nat → nat → nat) (l : list (nat * nat))
    (neighbours : Environment) :
  dom (foldl (λ (neighbours : Environment) '(j, j_num),
                <[j_num := default 0 (neighbours !! j_num) + f j j_num]>
                  neighbours) neighbours l)
  = dom neighbours ∪ list_to_set l.*2.
Proof.
  revert neighbours. induction l as [|[j j_num] l IH]; intros neighbours; simpl.
  - by rewrite (right_id_L ∅ (∪)).
  - rewrite IH, dom_insert_L.
    rewrite (comm_L (∪) {[j_num]} (dom neighbours)). by rewrite (assoc_L (∪)).
Qed.

Lemma sum_list_with_zero_inv {A} (f : A → nat) (l : list A) :
  sum_list_with f l = 0 → ∀ x, x ∈ l → f x = 0.
Proof.
  induction l as [|a l IH]; simpl; intros H x Hx.
  - by apply elem_of_nil in Hx.
  - apply elem_of_cons in Hx as [->|Hx]; [lia|]. apply IH; [lia|done].
Qed.

(** The neighbours of the species [species] among the atoms of [l]. *)
Definition neighbours_of_species (f : nat → nat → nat) (species : nat)
    (l : list (nat * nat)) : nat :=
  sum_list_with (λ '(j, j_num), if decide (j_num = species) then f j j_num else 0) l.

Lemma imap_pair_snd {A} (l : list A) : (imap pair l).*2 = l.
Proof.
  rewrite fmap_imap.
  assert (H : ∀ f : nat → A → A, (∀ n x, f n x = x) → imap f l = l).
  { induction l as [|a l IH]; intros f Hf; simpl; [done|].
    rewrite Hf. f_equal. apply IH. intros n x. apply Hf. }
  by apply H.
Qed.

Lemma elem_of_imap_pair {A} (l : list A) (j : nat) (a : A) :
  (j, a) ∈ imap pair l ↔ l !! j = Some a.
Proof.
  rewrite elem_of_lookup_imap. split.
  - by intros (i & x & [= -> ->] & Hi).
  - intros Hj. by exists j, a.
Qed.

(** X24: the environment that [get_chemical_environment] returns has a key
    for every species of the system, also for a species without neighbour,
    and no other key; the count of a species is the number of neighbours
    that the atoms of this species contribute. *)
Theorem chemical_environment_counts (num : list nat) (index seed_num : nat)
    disp_tensor_finite translations translations_reduced :
  num !! index = Some seed_num →
  ∃ env,
    get_chemical_environment num index disp_tensor_finite translations
                             translations_reduced = Some env
    ∧ dom env = list_to_set num
    ∧ ∀ species,
        count env species
        = neighbours_of_species
            (n_neigh seed_num index disp_tensor_finite translations
                     translations_reduced)
            species (imap pair num).
Proof.
  intros Hseed. unfold LinkedUnits.get_chemical_environment. rewrite Hseed. simpl.
  eexists. split; [done|]. split.
  - rewrite (environment_loop_dom
               (n_neigh seed_num index disp_tensor_finite translations
                        translations_reduced)).
    by rewrite dom_empty_L, (left_id_L ∅ (∪)), imap_pair_snd.
  - intros species.
    rewrite (environment_loop
               (n_neigh seed_num index disp_tensor_finite translations
                        translations_reduced)).
    unfold count. by rewrite lookup_empty.
Qed.

(** X25: the chemical distance to the environment of an atom as the ideal
    environment has no value (the division by zero of
    [get_chemical_distance]) exactly when no atom of the system, in no
    translation, is a neighbour of this atom. *)
Theorem chemical_distance_needs_a_neighbour (num : list nat)
    (index seed_num : nat) disp_tensor_finite translations translations_reduced :
  num !! index = Some seed_num →
  ∃ env,
    get_chemical_environment num index disp_tensor_finite translations
                             translations_reduced = Some env
    ∧ ∀ real_env,
        get_chemical_distance env real_env = None
        ↔ ∀ j j_num, num !! j = Some j_num →
            n_neigh seed_num index disp_tensor_finite translations
                    translations_reduced j j_num = 0.
Proof.
  intros Hseed. unfold LinkedUnits.get_chemical_environment. rewrite Hseed. simpl.
  set (f := n_neigh seed_num index disp_tensor_finite translations
                    translations_reduced).
  eexists. split; [done|]. intros real_env.
  rewrite get_chemical_distance_unfold.
  set (env := foldl _ ∅ (imap pair num)).
  assert (Hdom : dom env = list_to_set num).
  { unfold env. rewrite (environment_loop_dom f).
    by rewrite dom_empty_L, (left_id_L ∅ (∪)), imap_pair_snd. }
  assert (Hcount : ∀ species,
            count env species = neighbours_of_species f species (imap pair num)).
  { intros species. unfold env. rewrite (environment_loop f).
    unfold count. by rewrite lookup_empty. }
  split.
  - destruct (total env =? 0) eqn:E; [|done]. intros _.
    apply Nat.eqb_eq in E. intros j j_num Hj.
    assert (Hin : j_num ∈ elements (dom env)).
    { rewrite elem_of_elements, Hdom, elem_of_list_to_set.
      by eapply list_elem_of_lookup_2. }
    pose proof (sum_list_with_zero_inv _ _ E j_num Hin) as Hzero.
    rewrite Hcount in Hzero.
    assert (Hterm : (j, j_num) ∈ imap pair num) by by apply elem_of_imap_pair.
    pose proof (sum_list_with_zero_inv _ _ Hzero (j, j_num) Hterm) as Hf.
    simpl in Hf. by rewrite decide_True in Hf.
  - intros Hnone. replace (total env) with 0; [done|]. symmetry.
    apply sum_list_with_zero. intros species _. rewrite Hcount.
    apply sum_list_with_zero. intros [j j_num] Hin%elem_of_imap_pair.
    case_decide; [|done]. by apply Hnone.
Qed.
End ChemicalEnvironmentProperties.

(** Two iron atoms, 5 apart along the first axis of a cubic cell of edge
    10; with radii of 1 and a threshold of 1/2 neither has a neighbour.  With
    radii of 2.5 each is the neighbour of the other. *)
Definition far_disp (i j : nat) : Displacement :=
  if decide (i = j) then (0, 0, 0)%Q else (5, 0, 0)%Q.
Definition far_translations : list Displacement :=
  [ (0, 0, 0); (10, 0, 0); (-10, 0, 0) ]%Q.
Definition far_translations_reduced : list Displacement :=
  [ (10, 0, 0); (-10, 0, 0) ]%Q.

Example chemical_environment_two_iron :
  get_chemical_environment (λ _, 1%Q) (1 # 2)%Q [26; 26] 0 far_disp
    far_translations far_translations_reduced = Some {[ 26 := 0 ]}
  ∧ get_chemical_environment (λ _, 5 # 2)%Q (1 # 2)%Q [26; 26] 0 far_disp
      far_translations far_translations_reduced = Some {[ 26 := 2 ]}
  ∧ get_chemical_environment (λ _, 1%Q) (1 # 2)%Q [26; 26] 2 far_disp
      far_translations far_translations_reduced = None.
Proof. repeat split; by vm_compute. Qed.

Lemma chemical_environment_counts_witness :
  [26; 26] !! 0 = Some 26
  ∧ ∃ env,
      get_chemical_environment (λ _, 1%Q) (1 # 2)%Q [26; 26] 0 far_disp
        far_translations far_translations_reduced = Some env
      ∧ dom env = list_to_set [26; 26]
      ∧ ∀ species,
          count env species
          = neighbours_of_species
              (n_neigh (λ _, 1%Q) (1 # 2)%Q 26 0 far_disp far_translations
                       far_translations_reduced)
              species (imap pair [26; 26]).
Proof.
  assert (Hseed : [26; 26] !! 0 = Some 26) by reflexivity.
  split; [exact Hseed|].
  exact (chemical_environment_counts (λ _, 1%Q) (1 # 2)%Q [26; 26] 0 26
           far_disp far_translations far_translations_reduced Hseed).
Defined.

Lemma chemical_distance_needs_a_neighbour_witness :
  [26; 26] !! 0 = Some 26
  ∧ ∃ env,
      get_chemical_environment (λ _, 1%Q) (1 # 2)%Q [26; 26] 0 far_disp
        far_translations far_translations_reduced = Some env
      ∧ ∀ real_env,
          get_chemical_distance env real_env = None
          ↔ ∀ j j_num, [26; 26] !! j = Some j_num →
              n_neigh (λ _, 1%Q) (1 # 2)%Q 26 0 far_disp far_translations
                      far_translations_reduced j j_num = 0.
Proof.
  assert (Hseed : [26; 26] !! 0 = Some 26) by reflexivity.
  split; [exact Hseed|].
  exact (chemical_distance_needs_a_neighbour (λ _, 1%Q) (1 # 2)%Q [26; 26] 0 26
           far_disp far_translations far_translations_reduced Hseed).
Defined.

(** ** Insertion into the collection *)

Section SetItemProperties.
Context {Unit : Type}.
Implicit Types (self : gmap (list Z) Unit) (key : PyKey) (value : Unit).

Lemma setitem_cases self key value :
  match tuple key with
  | None => __setitem__ self key value = inl TypeError_no_tuple
  | Some t =>
      if decide (length t = 3) then
        if decide (t ∈ dom self) then
          __setitem__ self key value = inl ValueError_override
        else __setitem__ self key value = inr (<[t := value]> self)
      else __setitem__ self key value = inl ValueError_components
  end.
Proof.
  unfold __setitem__. destruct (tuple key) as [t|]; [|done].
  destruct (decide (length t = 3)) as [E|E].
  - rewrite E. simpl. destruct (decide (t ∈ dom self)) as [Hin|Hin].
    + by rewrite bool_decide_eq_true_2.
    + by rewrite bool_decide_eq_false_2.
  - apply Nat.eqb_neq in E. by rewrite E.
Qed.

(** C9: an insertion is rejected with an error when the key cannot be made
    a tuple, when its tuple does not have exactly three components, and when
    the tuple is already a key; every rejection leaves the contents as they
    were (the unit stored under an existing key stays), and an insertion
    under a fresh key of three components succeeds and stores the unit. *)
Theorem setitem_rejects_or_inserts self key value :
  (tuple key = None →
     __setitem__ self key value = inl TypeError_no_tuple)
  ∧ (∀ t, tuple key = Some t → length t ≠ 3 →
     __setitem__ self key value = inl ValueError_components)
  ∧ (∀ t unit, tuple key = Some t → length t = 3 → self !! t = Some unit →
     __setitem__ self key value = inl ValueError_override
     ∧ after_setitem self key value !! t = Some unit)
  ∧ (∀ e, __setitem__ self key value = inl e →
     after_setitem self key value = self)
  ∧ (∀ t, tuple key = Some t → length t = 3 → self !! t = None →
     __setitem__ self key value = inr (<[t := value]> self)
     ∧ after_setitem self key value !! t = Some value
     ∧ ∀ t', t' ≠ t → after_setitem self key value !! t' = self !! t').
Proof.
  pose proof (setitem_cases self key value) as Hc.
  repeat split.
  - intros E. by rewrite E in Hc.
  - intros t E Hlen. rewrite E in Hc. by destruct (decide (length t = 3)).
  - rewrite H in Hc. destruct (decide (length t = 3)); [|done].
    destruct (decide (t ∈ dom self)) as [|Hn]; [done|].
    exfalso. apply Hn, elem_of_dom. eauto.
  - unfold after_setitem. rewrite H in Hc.
    destruct (decide (length t = 3)); [|done].
    destruct (decide (t ∈ dom self)) as [|Hn].
    + by rewrite Hc.
    + exfalso. apply Hn, elem_of_dom. eauto.
  - intros e He. unfold after_setitem. by rewrite He.
  - rewrite H in Hc. destruct (decide (length t = 3)); [|done].
    destruct (decide (t ∈ dom self)) as [Hin|]; [|done].
    apply elem_of_dom in Hin. rewrite H1 in Hin. by destruct Hin.
  - unfold after_setitem. rewrite H in Hc.
    destruct (decide (length t = 3)); [|done].
    destruct (decide (t ∈ dom self)) as [Hin|].
    + apply elem_of_dom in Hin. rewrite H1 in Hin. by destruct Hin.
    + rewrite Hc. apply lookup_insert_eq.
  - intros t' Hne. unfold after_setitem. rewrite H in Hc.
    destruct (decide (length t = 3)); [|done].
    destruct (decide (t ∈ dom self)) as [Hin|].
    + apply elem_of_dom in Hin. rewrite H1 in Hin. by destruct Hin.
    + rewrite Hc. by apply lookup_insert_ne.
Qed.

End SetItemProperties.

(** ** The memoised classification *)

Section CollectionProperties.
Context {Position Tesselation : Type}.
Variable geometry : Geometry Position Tesselation.
Implicit Types self : @LinkedUnitCollection Position Tesselation.

(** *** What each method computes from the input of the collection

    The input is the atom count, the 2D flag and the units; the values
    below are those of the methods' bodies on an instance whose attributes
    are all unset. *)

Definition basis_value self : list nat :=
  elements (foldl (add_basis_of_unit geometry) ∅ (values self)).

Definition invalid_value self : list nat :=
  elements (get_all_indices self ∖ list_to_set (basis_value self)).

Definition decomposition_value self : Tesselation :=
  tetrahedra_decomposition geometry (basis_value self).

Definition inside_outside_value self : list nat * list nat :=
  split_inside_outside geometry (decomposition_value self) (invalid_value self).

Definition substitutions_value self : list Substitution :=
  if is_2d self then all_substitutions self
  else
    List.filter
      (λ subst, bool_decide
         (index subst ∈ (list_to_set (inside_outside_value self).1 : gset nat)))
      (all_substitutions self).

Definition vacancies_value self : list Position :=
  if is_2d self then all_vacancies self
  else
    List.filter
      (λ vac_pos,
         match find_simplex geometry (decomposition_value self) vac_pos with
         | Some _ => true
         | None => false
         end) (all_vacancies self).

Definition subst_indices_value self : gset nat :=
  list_to_set (index <$> substitutions_value self).

Definition interstitials_value self : list nat :=
  elements (list_to_set (inside_outside_value self).1 ∖ subst_indices_value self).

Definition adsorbates_value self : list nat :=
  let outside_indices :=
    if is_2d self then
      elements (list_to_set (inside_outside_value self).2 ∖ subst_indices_value self)
    else (inside_outside_value self).2 in
  if negb (length outside_indices =? 0) then outside_indices else [].

Definition unknowns_value self : list nat :=
  elements (get_all_indices self
            ∖ (list_to_set (basis_value self)
               ∪ list_to_set (interstitials_value self)
               ∪ list_to_set (adsorbates_value self)
               ∪ subst_indices_value self)).

(** An instance is coherent when every attribute that is set holds the
    value its method computes from the input. *)
Record coherent self : Prop := {
  coh_basis : ∀ v, _basis_indices self = Some v → v = basis_value self;
  coh_decomposition :
    ∀ v, _decomposition self = Some v → v = decomposition_value self;
  coh_inside_outside :
    (_inside_indices self = None ∧ _outside_indices self = None)
    ∨ (_inside_indices self = Some (inside_outside_value self).1
       ∧ _outside_indices self = Some (inside_outside_value self).2);
  coh_substitutions :
    ∀ v, _substitutions self = Some v → v = substitutions_value self;
  coh_vacancies : ∀ v, _vacancies self = Some v → v = vacancies_value self;
  coh_adsorbates : ∀ v, _adsorbates self = Some v → v = adsorbates_value self;
}.

(** [extends self self']: [self'] is [self] after some of its attributes
    were set: the input is the same, an attribute that is set keeps its
    value, and the inside and outside indices are set together or not at
    all. *)
Record extends self self' : Prop := {
  ext_n_atoms : n_atoms self' = n_atoms self;
  ext_is_2d : is_2d self' = is_2d self;
  ext_items : items self' = items self;
  ext_decomposition :
    ∀ v, _decomposition self = Some v → _decomposition self' = Some v;
  ext_inside_outside :
    ¬ (_inside_indices self = None ∧ _outside_indices self = None) →
    _inside_indices self' = _inside_indices self
    ∧ _outside_indices self' = _outside_indices self;
  ext_adsorbates : ∀ v, _adsorbates self = Some v → _adsorbates self' = Some v;
  ext_substitutions :
    ∀ v, _substitutions self = Some v → _substitutions self' = Some v;
  ext_vacancies : ∀ v, _vacancies self = Some v → _vacancies self' = Some v;
  ext_clusters : ∀ v, _clusters self = Some v → _clusters self' = Some v;
  ext_basis : ∀ v, _basis_indices self = Some v → _basis_indices self' = Some v;
}.

Lemma extends_refl self : extends self self.
Proof. by constructor. Qed.

Lemma extends_trans self1 self2 self3 :
  extends self1 self2 → extends self2 self3 → extends self1 self3.
Proof.
  intros [] []. constructor; try congruence; eauto.
  intros Hn. destruct (ext_inside_outside0 Hn) as [Ei Eo].
  destruct ext_inside_outside1 as [Ei' Eo'].
  - rewrite Ei, Eo. done.
  - split; congruence.
Qed.

(** The values depend on the input only. *)
Ltac by_input Hext :=
  let self := fresh in let self' := fresh in
  intros self self' Hext;
  destruct Hext as [? ? ? _ _ _ _ _ _ _];
  destruct self, self'; simpl in *; subst; reflexivity.

Lemma basis_value_ext : ∀ self self',
  extends self self' → basis_value self' = basis_value self.
Proof. by_input H. Qed.

Lemma invalid_value_ext : ∀ self self',
  extends self self' → invalid_value self' = invalid_value self.
Proof. by_input H. Qed.

Lemma decomposition_value_ext : ∀ self self',
  extends self self' → decomposition_value self' = decomposition_value self.
Proof. by_input H. Qed.

Lemma inside_outside_value_ext : ∀ self self',
  extends self self' → inside_outside_value self' = inside_outside_value self.
Proof. by_input H. Qed.

Lemma substitutions_value_ext : ∀ self self',
  extends self self' → substitutions_value self' = substitutions_value self.
Proof. by_input H. Qed.

Lemma vacancies_value_ext : ∀ self self',
  extends self self' → vacancies_value self' = vacancies_value self.
Proof. by_input H. Qed.

Lemma adsorbates_value_ext : ∀ self self',
  extends self self' → adsorbates_value self' = adsorbates_value self.
Proof. by_input H. Qed.

Lemma interstitials_value_ext : ∀ self self',
  extends self self' → interstitials_value self' = interstitials_value self.
Proof. by_input H. Qed.

Lemma unknowns_value_ext : ∀ self self',
  extends self self' → unknowns_value self' = unknowns_value self.
Proof. by_input H. Qed.

Lemma coherent_ext_values self self' :
  extends self self' →
  coherent self' ↔
  ((∀ v, _basis_indices self' = Some v → v = basis_value self)
   ∧ (∀ v, _decomposition self' = Some v → v = decomposition_value self)
   ∧ ((_inside_indices self' = None ∧ _outside_indices self' = None)
      ∨ (_inside_indices self' = Some (inside_outside_value self).1
         ∧ _outside_indices self' = Some (inside_outside_value self).2))
   ∧ (∀ v, _substitutions self' = Some v → v = substitutions_value self)
   ∧ (∀ v, _vacancies self' = Some v → v = vacancies_value self)
   ∧ (∀ v, _adsorbates self' = Some v → v = adsorbates_value self)).
Proof.
  intros Hext. split.
  - intros []. rewrite <- (basis_value_ext _ _ Hext),
      <- (decomposition_value_ext _ _ Hext),
      <- (inside_outside_value_ext _ _ Hext),
      <- (substitutions_value_ext _ _ Hext),
      <- (vacancies_value_ext _ _ Hext),
      <- (adsorbates_value_ext _ _ Hext). done.
  - rewrite <- (basis_value_ext _ _ Hext),
      <- (decomposition_value_ext _ _ Hext),
      <- (inside_outside_value_ext _ _ Hext),
      <- (substitutions_value_ext _ _ Hext),
      <- (vacancies_value_ext _ _ Hext),
      <- (adsorbates_value_ext _ _ Hext).
    intros (?&?&?&?&?&?). by constructor.
Qed.

(** *** The effect of a method on the attributes

    [effect kd kio ks kv ka self self']: [self'] extends [self], and the
    decomposition, the inside and outside indices, the substitutions, the
    vacancies, the adsorbates are as in [self] where the flag is [true]. *)
Definition kept {A} (flag : bool) (x y : A) : Prop :=
  if flag then y = x else True.

Record effect (kd kio ks kv ka : bool) self self' : Prop := {
  eff_extends : extends self self';
  eff_decomposition : kept kd (_decomposition self) (_decomposition self');
  eff_inside : kept kio (_inside_indices self) (_inside_indices self');
  eff_outside : kept kio (_outside_indices self) (_outside_indices self');
  eff_substitutions : kept ks (_substitutions self) (_substitutions self');
  eff_vacancies : kept kv (_vacancies self) (_vacancies self');
  eff_adsorbates : kept ka (_adsorbates self) (_adsorbates self');
}.

Lemma kept_trans {A} (f1 f2 : bool) (x y z : A) :
  kept f1 x y → kept f2 y z → kept (f1 && f2) x z.
Proof. destruct f1, f2; simpl; congruence. Qed.

Lemma effect_refl kd kio ks kv ka self : effect kd kio ks kv ka self self.
Proof.
  constructor; [apply extends_refl|..];
    match goal with |- kept ?f _ _ => by destruct f end.
Qed.

Lemma effect_trans kd kio ks kv ka kd' kio' ks' kv' ka' self1 self2 self3 :
  effect kd kio ks kv ka self1 self2 →
  effect kd' kio' ks' kv' ka' self2 self3 →
  effect (kd && kd') (kio && kio') (ks && ks') (kv && kv') (ka && ka')
         self1 self3.
Proof.
  intros [] []. constructor; eauto using extends_trans, kept_trans.
Qed.

Lemma effect_weaken kd kio ks kv ka kd' kio' ks' kv' ka' self self' :
  effect kd kio ks kv ka self self' →
  implb kd' kd = true → implb kio' kio = true → implb ks' ks = true →
  implb kv' kv = true → implb ka' ka = true →
  effect kd' kio' ks' kv' ka' self self'.
Proof.
  intros [] Hd Hio Hs Hv Ha. constructor; [done|..];
    match goal with
    | |- kept ?g _ _ => destruct g; simpl in *; [subst; done|done]
    end.
Qed.

(** One method after another. *)
Ltac effect_seq H1 H2 :=
  eapply effect_weaken;
  [ exact (effect_trans _ _ _ _ _ _ _ _ _ _ _ _ _ H1 H2) | reflexivity .. ].

(** The six clauses of coherence, one at a time. *)
Ltac coherence_clauses :=
  repeat split; try assumption;
  try (intros ? ?; simplify_eq; simpl in *; by eauto).

(** *** [get_basis_indices] *)

Lemma get_basis_indices_effect self :
  effect true true true true true self (get_basis_indices geometry self).2.
Proof.
  unfold get_basis_indices.
  destruct (_basis_indices self) eqn:E; simpl; [apply effect_refl|].
  constructor; simpl; try done.
  constructor; simpl; try done. intros v Hv. congruence.
Qed.

Lemma get_basis_indices_stored self :
  _basis_indices (get_basis_indices geometry self).2
  = Some (get_basis_indices geometry self).1.
Proof.
  unfold get_basis_indices. by destruct (_basis_indices self) eqn:E.
Qed.

Lemma get_basis_indices_value self :
  coherent self →
  (get_basis_indices geometry self).1 = basis_value self
  ∧ coherent (get_basis_indices geometry self).2.
Proof.
  intros Hc. pose proof (get_basis_indices_effect self) as [Hext _ _ _ _ _ _].
  rewrite (coherent_ext_values _ _ Hext).
  destruct Hc. revert Hext. unfold get_basis_indices.
  destruct (_basis_indices self) eqn:E; simpl; intros Hext.
  - split; [by apply coh_basis0|]. coherence_clauses.
  - split; [done|]. coherence_clauses.
Qed.

(** *** [get_invalid_indices] *)

Lemma get_invalid_indices_effect self :
  effect true true true true true self (get_invalid_indices geometry self).2.
Proof.
  unfold get_invalid_indices.
  pose proof (get_basis_indices_effect self) as H.
  by destruct (get_basis_indices geometry self).
Qed.

Lemma get_invalid_indices_value self :
  coherent self →
  (get_invalid_indices geometry self).1 = invalid_value self
  ∧ coherent (get_invalid_indices geometry self).2.
Proof.
  intros Hc. unfold get_invalid_indices, invalid_value.
  destruct (get_basis_indices_value self Hc) as [Hv Hc'].
  destruct (get_basis_indices geometry self) as [b self']. simpl in *.
  by subst b.
Qed.

(** *** [get_tetrahedra_decomposition] *)

Lemma set_decomposition_effect self v :
  _decomposition self = None →
  effect false true true true true self (set_decomposition self (Some v)).
Proof.
  intros E. constructor; simpl; try done.
  constructor; simpl; try done. intros v' Hv. congruence.
Qed.

Lemma get_tetrahedra_decomposition_effect self :
  effect false true true true true self
         (get_tetrahedra_decomposition geometry self).2.
Proof.
  unfold get_tetrahedra_decomposition.
  destruct (_decomposition self) eqn:E; simpl; [apply effect_refl|].
  pose proof (get_basis_indices_effect self) as H.
  destruct (get_basis_indices geometry self) as [b self']. simpl in *.
  assert (H' : effect false true true true true self'
                      (set_decomposition self' (Some (tetrahedra_decomposition geometry b)))).
  { apply set_decomposition_effect.
    destruct H as [_ Hd _ _ _ _ _]. simpl in Hd. congruence. }
  effect_seq H H'.
Qed.

Lemma get_tetrahedra_decomposition_value self :
  coherent self →
  (get_tetrahedra_decomposition geometry self).1 = decomposition_value self
  ∧ coherent (get_tetrahedra_decomposition geometry self).2.
Proof.
  intros Hc.
  pose proof (get_tetrahedra_decomposition_effect self) as [Hext _ _ _ _ _ _].
  rewrite (coherent_ext_values _ _ Hext). clear Hext.
  unfold get_tetrahedra_decomposition.
  destruct (_decomposition self) eqn:E; simpl.
  - destruct Hc. split; [by apply coh_decomposition0|]. coherence_clauses.
  - destruct (get_basis_indices_value self Hc) as [Hv Hc'].
    pose proof (get_basis_indices_effect self) as [Hext _ _ _ _ _ _].
    apply (coherent_ext_values _ _ Hext) in Hc'.
    destruct (get_basis_indices geometry self) as [b self']. simpl in *.
    subst b. split; [done|].
    destruct Hc' as (?&?&?&?&?&?). coherence_clauses.
Qed.

(** *** [get_inside_and_outside_indices] *)

Lemma set_inside_outside_effect self i o :
  _inside_indices self = None → _outside_indices self = None →
  effect false false true true true self
         (set_inside_outside self (Some i) (Some o)).
Proof.
  intros Ei Eo. constructor; simpl; try done.
  constructor; simpl; try done. intros []. done.
Qed.

Lemma get_inside_and_outside_indices_effect self :
  effect false false true true true self
         (get_inside_and_outside_indices geometry self).2.
Proof.
  unfold get_inside_and_outside_indices.
  destruct (_inside_indices self) eqn:Ei, (_outside_indices self) eqn:Eo;
    simpl; try apply effect_refl.
  pose proof (get_invalid_indices_effect self) as H1.
  destruct (get_invalid_indices geometry self) as [invalid self1]. simpl in H1.
  destruct (negb (length invalid =? 0)).
  - pose proof (get_tetrahedra_decomposition_effect self1) as H2.
    destruct (get_tetrahedra_decomposition geometry self1) as [t self2].
    simpl in H2.
    destruct (split_inside_outside geometry t invalid) as [i o]. simpl.
    pose proof (effect_trans _ _ _ _ _ _ _ _ _ _ _ _ _ H1 H2) as H12.
    simpl in H12.
    assert (H3 : effect false false true true true self2
                        (set_inside_outside self2 (Some i) (Some o))).
    { destruct H12 as [_ _ Hi Ho _ _ _]. simpl in Hi, Ho.
      apply set_inside_outside_effect; congruence. }
    effect_seq H12 H3.
  - simpl.
    assert (H3 : effect false false true true true self1
                        (set_inside_outside self1 (Some []) (Some []))).
    { destruct H1 as [_ _ Hi Ho _ _ _]. simpl in Hi, Ho.
      apply set_inside_outside_effect; congruence. }
    effect_seq H1 H3.
Qed.

Lemma get_inside_and_outside_indices_stored self :
  coherent self →
  let self' := (get_inside_and_outside_indices geometry self).2 in
  _inside_indices self' = Some (get_inside_and_outside_indices geometry self).1.1
  ∧ _outside_indices self' = Some (get_inside_and_outside_indices geometry self).1.2.
Proof.
  intros Hc. unfold get_inside_and_outside_indices.
  destruct Hc as [_ _ [[Ei Eo]|[Ei Eo]] _ _ _]; rewrite Ei, Eo; simpl; [|done].
  destruct (get_invalid_indices geometry self) as [invalid self1].
  destruct (negb (length invalid =? 0)); [|done].
  destruct (get_tetrahedra_decomposition geometry self1) as [t self2].
  by destruct (split_inside_outside geometry t invalid) as [i o].
Qed.

Lemma get_inside_and_outside_indices_value self :
  coherent self →
  (get_inside_and_outside_indices geometry self).1 = inside_outside_value self
  ∧ coherent (get_inside_and_outside_indices geometry self).2.
Proof.
  intros Hc.
  pose proof (get_inside_and_outside_indices_effect self) as [Hext _ _ _ _ _ _].
  rewrite (coherent_ext_values _ _ Hext). clear Hext.
  unfold get_inside_and_outside_indices.
  destruct (coh_inside_outside _ Hc) as [[Ei Eo]|[Ei Eo]]; rewrite Ei, Eo; simpl.
  2:{ split; [by destruct (inside_outside_value self)|].
      destruct Hc. coherence_clauses. }
  destruct (get_invalid_indices_value self Hc) as [Hv1 Hc1].
  pose proof (get_invalid_indices_effect self) as [Hext1 _ _ _ _ _ _].
  destruct (get_invalid_indices geometry self) as [invalid self1].
  simpl in Hv1, Hc1, Hext1. subst invalid.
  destruct (negb (length (invalid_value self) =? 0)) eqn:Elen.
  - destruct (get_tetrahedra_decomposition_value self1 Hc1) as [Hv2 Hc2].
    pose proof (get_tetrahedra_decomposition_effect self1) as [Hext2 _ _ _ _ _ _].
    destruct (get_tetrahedra_decomposition geometry self1) as [t self2].
    simpl in Hv2, Hc2, Hext2.
    rewrite (decomposition_value_ext _ _ Hext1) in Hv2. subst t.
    fold (inside_outside_value self).
    destruct (inside_outside_value self) as [i o] eqn:Eio. simpl.
    split; [done|].
    apply (coherent_ext_values _ _ (extends_trans _ _ _ Hext1 Hext2)) in Hc2.
    destruct Hc2 as (?&?&?&?&?&?). coherence_clauses; by right.
  - simpl.
    assert (Hnil : invalid_value self = []).
    { apply negb_false_iff, Nat.eqb_eq in Elen.
      by destruct (invalid_value self). }
    unfold inside_outside_value. rewrite Hnil. simpl. split; [done|].
    apply (coherent_ext_values _ _ Hext1) in Hc1.
    destruct Hc1 as (?&?&?&?&?&?). coherence_clauses; by right.
Qed.

(** *** [get_substitutions] *)

Lemma set_substitutions_effect self v :
  _substitutions self = None →
  effect true true false true true self (set_substitutions self (Some v)).
Proof.
  intros E. constructor; simpl; try done.
  constructor; simpl; try done. intros v' Hv. congruence.
Qed.

Lemma get_substitutions_effect self :
  effect false false false true true self (get_substitutions geometry self).2.
Proof.
  unfold get_substitutions.
  destruct (_substitutions self) eqn:E; simpl; [apply effect_refl|].
  destruct (is_2d self).
  - simpl. eapply effect_weaken;
      [by apply set_substitutions_effect | reflexivity ..].
  - pose proof (get_inside_and_outside_indices_effect self) as H1.
    destruct (get_inside_and_outside_indices geometry self) as [[i o] self1].
    simpl in *.
    match goal with
    | |- effect _ _ _ _ _ _ (set_substitutions _ (Some ?v)) =>
        assert (H2 : effect true true false true true self1
                            (set_substitutions self1 (Some v)))
    end.
    { apply set_substitutions_effect.
      destruct H1 as [_ _ _ _ Hs _ _]. simpl in Hs. congruence. }
    effect_seq H1 H2.
Qed.

Lemma get_substitutions_stored self :
  _substitutions (get_substitutions geometry self).2
  = Some (get_substitutions geometry self).1.
Proof.
  unfold get_substitutions.
  destruct (_substitutions self) eqn:E; [done|].
  destruct (is_2d self); [done|].
  by destruct (get_inside_and_outside_indices geometry self) as [[i o] self1].
Qed.

Lemma get_substitutions_value self :
  coherent self →
  (get_substitutions geometry self).1 = substitutions_value self
  ∧ coherent (get_substitutions geometry self).2.
Proof.
  intros Hc.
  pose proof (get_substitutions_effect self) as [Hext _ _ _ _ _ _].
  rewrite (coherent_ext_values _ _ Hext). clear Hext.
  unfold get_substitutions, substitutions_value.
  destruct (_substitutions self) eqn:E; simpl.
  { split; [by apply (coh_substitutions _ Hc)|]. destruct Hc. coherence_clauses. }
  destruct (is_2d self) eqn:E2d; simpl.
  { split; [done|]. destruct Hc. coherence_clauses;
    intros v [= <-]; unfold substitutions_value; by rewrite E2d. }
  destruct (get_inside_and_outside_indices_value self Hc) as [Hv1 Hc1].
  pose proof (get_inside_and_outside_indices_effect self) as [Hext1 _ _ _ _ _ _].
  destruct (get_inside_and_outside_indices geometry self) as [[i o] self1].
  simpl in Hv1, Hc1, Hext1. rewrite <- Hv1. simpl. split; [done|].
  apply (coherent_ext_values _ _ Hext1) in Hc1.
  destruct Hc1 as (?&?&?&?&?&?). rewrite <- ?Hv1 in *. simpl in *.
  coherence_clauses;
  intros v [= <-]; unfold substitutions_value; by rewrite E2d, <- Hv1.
Qed.

(** *** [get_vacancies] *)

Lemma set_vacancies_effect self v :
  _vacancies self = None →
  effect true true true false true self (set_vacancies self (Some v)).
Proof.
  intros E. constructor; simpl; try done.
  constructor; simpl; try done. intros v' Hv. congruence.
Qed.

Lemma get_vacancies_effect self :
  effect false true true false true self (get_vacancies geometry self).2.
Proof.
  unfold get_vacancies.
  destruct (_vacancies self) eqn:E; simpl; [apply effect_refl|].
  destruct (is_2d self).
  - simpl. eapply effect_weaken;
      [by apply set_vacancies_effect | reflexivity ..].
  - pose proof (get_tetrahedra_decomposition_effect self) as H1.
    destruct (get_tetrahedra_decomposition geometry self) as [t self1].
    simpl in *.
    match goal with
    | |- effect _ _ _ _ _ _ (set_vacancies _ (Some ?v)) =>
        assert (H2 : effect true true true false true self1
                            (set_vacancies self1 (Some v)))
    end.
    { apply set_vacancies_effect.
      destruct H1 as [_ _ _ _ _ Hv _]. simpl in Hv. congruence. }
    effect_seq H1 H2.
Qed.

Lemma get_vacancies_stored self :
  _vacancies (get_vacancies geometry self).2
  = Some (get_vacancies geometry self).1.
Proof.
  unfold get_vacancies.
  destruct (_vacancies self) eqn:E; [done|].
  destruct (is_2d self); [done|].
  by destruct (get_tetrahedra_decomposition geometry self) as [t self1].
Qed.

Lemma get_vacancies_value self :
  coherent self →
  (get_vacancies geometry self).1 = vacancies_value self
  ∧ coherent (get_vacancies geometry self).2.
Proof.
  intros Hc.
  pose proof (get_vacancies_effect self) as [Hext _ _ _ _ _ _].
  rewrite (coherent_ext_values _ _ Hext). clear Hext.
  unfold get_vacancies, vacancies_value.
  destruct (_vacancies self) eqn:E; simpl.
  { split; [by apply (coh_vacancies _ Hc)|]. destruct Hc. coherence_clauses. }
  destruct (is_2d self) eqn:E2d; simpl.
  { split; [done|]. destruct Hc. coherence_clauses;
    intros v [= <-]; unfold vacancies_value; by rewrite E2d. }
  destruct (get_tetrahedra_decomposition_value self Hc) as [Hv1 Hc1].
  pose proof (get_tetrahedra_decomposition_effect self) as [Hext1 _ _ _ _ _ _].
  destruct (get_tetrahedra_decomposition geometry self) as [t self1].
  simpl in Hv1, Hc1, Hext1. rewrite <- Hv1. simpl. split; [done|].
  apply (coherent_ext_values _ _ Hext1) in Hc1.
  destruct Hc1 as (?&?&?&?&?&?). coherence_clauses;
  intros v [= <-]; unfold vacancies_value; by rewrite E2d, <- Hv1.
Qed.

(** *** [get_interstitials] *)

Lemma get_interstitials_effect self :
  effect false false false true true self (get_interstitials geometry self).2.
Proof.
  unfold get_interstitials.
  pose proof (get_inside_and_outside_indices_effect self) as H1.
  destruct (get_inside_and_outside_indices geometry self) as [[i o] self1].
  pose proof (get_substitutions_effect self1) as H2.
  destruct (get_substitutions geometry self1) as [subs self2].
  simpl in *. effect_seq H1 H2.
Qed.

Lemma get_interstitials_value self :
  coherent self →
  (get_interstitials geometry self).1 = interstitials_value self
  ∧ coherent (get_interstitials geometry self).2.
Proof.
  intros Hc. unfold get_interstitials, interstitials_value, subst_indices_value.
  destruct (get_inside_and_outside_indices_value self Hc) as [Hv1 Hc1].
  pose proof (get_inside_and_outside_indices_effect self) as [Hext1 _ _ _ _ _ _].
  destruct (get_inside_and_outside_indices geometry self) as [[i o] self1].
  destruct (get_substitutions_value self1 Hc1) as [Hv2 Hc2].
  destruct (get_substitutions geometry self1) as [subs self2].
  simpl in *. rewrite (substitutions_value_ext _ _ Hext1) in Hv2.
  by rewrite <- Hv1, <- Hv2.
Qed.

(** *** [get_clusters] *)

Lemma get_clusters_effect self :
  effect true true true true true self (get_clusters geometry self).2.
Proof.
  unfold get_clusters.
  destruct (_clusters self) eqn:E; simpl; [apply effect_refl|].
  constructor; simpl; try done.
  constructor; simpl; try done. intros v Hv. congruence.
Qed.

(** *** [get_adsorbates] *)

Lemma set_adsorbates_effect self v :
  _adsorbates self = None →
  effect true true true true false self (set_adsorbates self (Some v)).
Proof.
  intros E. constructor; simpl; try done.
  constructor; simpl; try done. intros v' Hv. congruence.
Qed.

Lemma get_adsorbates_effect self :
  effect false false false true false self (get_adsorbates geometry self).2.
Proof.
  unfold get_adsorbates.
  destruct (_adsorbates self) eqn:E; simpl; [apply effect_refl|].
  pose proof (get_inside_and_outside_indices_effect self) as H1.
  destruct (get_inside_and_outside_indices geometry self) as [[i o] self1].
  simpl in H1.
  assert (E1 : _adsorbates self1 = None).
  { destruct H1 as [_ _ _ _ _ _ Ha]. simpl in Ha. congruence. }
  destruct (is_2d self1).
  - pose proof (get_substitutions_effect self1) as H2.
    destruct (get_substitutions geometry self1) as [subs self2].
    simpl in H2.
    assert (E2 : _adsorbates self2 = None).
    { destruct H2 as [_ _ _ _ _ _ Ha]. simpl in Ha. congruence. }
    pose proof (effect_trans _ _ _ _ _ _ _ _ _ _ _ _ _ H1 H2) as H12.
    simpl in H12.
    simpl.
    match goal with
    | |- effect _ _ _ _ _ _ (set_adsorbates _ (Some ?v)) =>
        pose proof (set_adsorbates_effect self2 v E2) as H3
    end.
    effect_seq H12 H3.
  - simpl.
    match goal with
    | |- effect _ _ _ _ _ _ (set_adsorbates _ (Some ?v)) =>
        pose proof (set_adsorbates_effect self1 v E1) as H3
    end.
    effect_seq H1 H3.
Qed.

Lemma get_adsorbates_stored self :
  _adsorbates (get_adsorbates geometry self).2
  = Some (get_adsorbates geometry self).1.
Proof.
  unfold get_adsorbates.
  destruct (_adsorbates self) eqn:E; [done|].
  destruct (get_inside_and_outside_indices geometry self) as [[i o] self1].
  destruct (is_2d self1); [|done].
  by destruct (get_substitutions geometry self1) as [subs self2].
Qed.

Lemma get_adsorbates_value self :
  coherent self →
  (get_adsorbates geometry self).1 = adsorbates_value self
  ∧ coherent (get_adsorbates geometry self).2.
Proof.
  intros Hc.
  pose proof (get_adsorbates_effect self) as [Hext _ _ _ _ _ _].
  rewrite (coherent_ext_values _ _ Hext). clear Hext.
  unfold get_adsorbates.
  destruct (_adsorbates self) eqn:E; simpl.
  { split; [by apply (coh_adsorbates _ Hc)|]. destruct Hc. coherence_clauses. }
  destruct (get_inside_and_outside_indices_value self Hc) as [Hv1 Hc1].
  pose proof (get_inside_and_outside_indices_effect self) as [Hext1 _ _ _ _ _ _].
  destruct (get_inside_and_outside_indices geometry self) as [[i o] self1].
  simpl in Hv1, Hc1, Hext1.
  unfold adsorbates_value at 1, subst_indices_value.
  rewrite <- (ext_is_2d _ _ Hext1), <- Hv1. simpl.
  destruct (is_2d self1) eqn:E2d.
  - destruct (get_substitutions_value self1 Hc1) as [Hv2 Hc2].
    pose proof (get_substitutions_effect self1) as [Hext2 _ _ _ _ _ _].
    destruct (get_substitutions geometry self1) as [subs self2].
    simpl in Hv2, Hc2, Hext2.
    rewrite (substitutions_value_ext _ _ Hext1) in Hv2. subst subs.
    simpl. split; [done|].
    apply (coherent_ext_values _ _ (extends_trans _ _ _ Hext1 Hext2)) in Hc2.
    destruct Hc2 as (?&?&?&?&?&?). rewrite <- ?Hv1 in *. simpl in *.
    coherence_clauses;
    intros v [= <-]; unfold adsorbates_value, subst_indices_value;
    by rewrite <- (ext_is_2d _ _ Hext1), E2d, <- Hv1.
  - simpl. split; [done|].
    apply (coherent_ext_values _ _ Hext1) in Hc1.
    destruct Hc1 as (?&?&?&?&?&?). rewrite <- ?Hv1 in *. simpl in *.
    coherence_clauses;
    intros v [= <-]; unfold adsorbates_value;
    by rewrite <- (ext_is_2d _ _ Hext1), E2d, <- Hv1.
Qed.

(** *** [get_unknowns] *)

Lemma get_unknowns_effect self :
  effect false false false true false self (get_unknowns geometry self).2.
Proof.
  unfold get_unknowns.
  pose proof (get_basis_indices_effect self) as H1.
  destruct (get_basis_indices geometry self) as [b self1].
  pose proof (get_interstitials_effect self1) as H2.
  destruct (get_interstitials geometry self1) as [i self2].
  pose proof (get_adsorbates_effect self2) as H3.
  destruct (get_adsorbates geometry self2) as [a self3].
  pose proof (get_substitutions_effect self3) as H4.
  destruct (get_substitutions geometry self3) as [subs self4].
  simpl in *.
  pose proof (effect_trans _ _ _ _ _ _ _ _ _ _ _ _ _ H1 H2) as H12.
  pose proof (effect_trans _ _ _ _ _ _ _ _ _ _ _ _ _ H12 H3) as H123.
  simpl in H123. effect_seq H123 H4.
Qed.

Lemma get_unknowns_value self :
  coherent self →
  (get_unknowns geometry self).1 = unknowns_value self
  ∧ coherent (get_unknowns geometry self).2.
Proof.
  intros Hc. unfold get_unknowns, unknowns_value, subst_indices_value.
  destruct (get_basis_indices_value self Hc) as [Hv1 Hc1].
  pose proof (get_basis_indices_effect self) as [Hext1 _ _ _ _ _ _].
  destruct (get_basis_indices geometry self) as [b self1].
  destruct (get_interstitials_value self1 Hc1) as [Hv2 Hc2].
  pose proof (get_interstitials_effect self1) as [Hext2 _ _ _ _ _ _].
  destruct (get_interstitials geometry self1) as [i self2].
  destruct (get_adsorbates_value self2 Hc2) as [Hv3 Hc3].
  pose proof (get_adsorbates_effect self2) as [Hext3 _ _ _ _ _ _].
  destruct (get_adsorbates geometry self2) as [a self3].
  destruct (get_substitutions_value self3 Hc3) as [Hv4 Hc4].
  destruct (get_substitutions geometry self3) as [subs self4].
  simpl in *.
  pose proof (extends_trans _ _ _ Hext1 Hext2) as Hext12.
  pose proof (extends_trans _ _ _ Hext12 Hext3) as Hext123.
  rewrite (interstitials_value_ext _ _ Hext1) in Hv2.
  rewrite (adsorbates_value_ext _ _ Hext12) in Hv3.
  rewrite (substitutions_value_ext _ _ Hext123) in Hv4.
  by subst.
Qed.

(** *** [classify] *)

Lemma classify_value self :
  coherent self →
  (classify geometry self).1
  = {| basis := basis_value self;
       adsorbates := adsorbates_value self;
       interstitials := interstitials_value self;
       substitution_list := substitutions_value self;
       vacancy_list := vacancies_value self;
       unknowns := unknowns_value self |}
  ∧ coherent (classify geometry self).2.
Proof.
  intros Hc. unfold classify.
  destruct (get_basis_indices_value self Hc) as [Hv1 Hc1].
  pose proof (get_basis_indices_effect self) as [Hext1 _ _ _ _ _ _].
  destruct (get_basis_indices geometry self) as [b self1].
  destruct (get_adsorbates_value self1 Hc1) as [Hv2 Hc2].
  pose proof (get_adsorbates_effect self1) as [Hext2 _ _ _ _ _ _].
  destruct (get_adsorbates geometry self1) as [a self2].
  destruct (get_interstitials_value self2 Hc2) as [Hv3 Hc3].
  pose proof (get_interstitials_effect self2) as [Hext3 _ _ _ _ _ _].
  destruct (get_interstitials geometry self2) as [i self3].
  destruct (get_substitutions_value self3 Hc3) as [Hv4 Hc4].
  pose proof (get_substitutions_effect self3) as [Hext4 _ _ _ _ _ _].
  destruct (get_substitutions geometry self3) as [subs self4].
  destruct (get_vacancies_value self4 Hc4) as [Hv5 Hc5].
  pose proof (get_vacancies_effect self4) as [Hext5 _ _ _ _ _ _].
  destruct (get_vacancies geometry self4) as [vac self5].
  destruct (get_unknowns_value self5 Hc5) as [Hv6 Hc6].
  destruct (get_unknowns geometry self5) as [u self6].
  simpl in *.
  pose proof (extends_trans _ _ _ Hext1 Hext2) as Hext12.
  pose proof (extends_trans _ _ _ Hext12 Hext3) as Hext123.
  pose proof (extends_trans _ _ _ Hext123 Hext4) as Hext1234.
  pose proof (extends_trans _ _ _ Hext1234 Hext5) as Hext12345.
  rewrite (adsorbates_value_ext _ _ Hext1) in Hv2.
  rewrite (interstitials_value_ext _ _ Hext12) in Hv3.
  rewrite (substitutions_value_ext _ _ Hext123) in Hv4.
  rewrite (vacancies_value_ext _ _ Hext1234) in Hv5.
  rewrite (unknowns_value_ext _ _ Hext12345) in Hv6.
  by subst.
Qed.

(** *** The index sets *)

Lemma split_inside_outside_perm t (l : list nat) :
  (split_inside_outside geometry t l).1 ++ (split_inside_outside geometry t l).2
  ≡ₚ l.
Proof.
  induction l as [|i l IH]; simpl; [done|].
  destruct (split_inside_outside geometry t l) as [ins outs]. simpl in IH.
  destruct (find_simplex geometry t (positions geometry i)); simpl.
  - by rewrite IH.
  - rewrite <- Permutation_middle. by rewrite IH.
Qed.

Lemma inside_outside_value_perm self :
  (inside_outside_value self).1 ++ (inside_outside_value self).2
  ≡ₚ invalid_value self.
Proof. apply split_inside_outside_perm. Qed.

Lemma inside_outside_value_NoDup self :
  NoDup ((inside_outside_value self).1 ++ (inside_outside_value self).2).
Proof.
  rewrite inside_outside_value_perm. unfold invalid_value. apply NoDup_elements.
Qed.

Lemma inside_outside_value_elem self (i : nat) :
  i ∈ (inside_outside_value self).1 ∨ i ∈ (inside_outside_value self).2
  ↔ i ∈ get_all_indices self ∧ (i ∉ basis_value self).
Proof.
  rewrite <- elem_of_app, inside_outside_value_perm.
  unfold invalid_value.
  by rewrite elem_of_elements, elem_of_difference, elem_of_list_to_set.
Qed.

Lemma inside_outside_value_disjoint self (i : nat) :
  i ∈ (inside_outside_value self).1 → i ∈ (inside_outside_value self).2 → False.
Proof.
  pose proof (inside_outside_value_NoDup self) as H.
  apply NoDup_app in H as (_ & H & _). exact (H i).
Qed.

Lemma elem_of_subst_indices_value self (i : nat) :
  i ∈ subst_indices_value self ↔
  ∃ subst, subst ∈ substitutions_value self ∧ index subst = i.
Proof.
  unfold subst_indices_value.
  rewrite elem_of_list_to_set, list_elem_of_fmap. split.
  - intros (subst & -> & Hin). eauto.
  - intros (subst & Hin & <-). eauto.
Qed.

Lemma substitutions_value_inside self subst :
  is_2d self = false → subst ∈ substitutions_value self →
  index subst ∈ (inside_outside_value self).1.
Proof.
  intros E. unfold substitutions_value. rewrite E.
  rewrite list_elem_of_In, filter_In, bool_decide_eq_true, elem_of_list_to_set.
  tauto.
Qed.

Lemma substitutions_value_all self subst :
  subst ∈ substitutions_value self → subst ∈ all_substitutions self.
Proof.
  unfold substitutions_value. destruct (is_2d self); [done|].
  rewrite !list_elem_of_In, filter_In. tauto.
Qed.

Lemma elem_of_interstitials_value self (i : nat) :
  i ∈ interstitials_value self ↔
  i ∈ (inside_outside_value self).1 ∧ (i ∉ subst_indices_value self).
Proof.
  unfold interstitials_value.
  by rewrite elem_of_elements, elem_of_difference, elem_of_list_to_set.
Qed.

Lemma elem_of_adsorbates_value self (i : nat) :
  i ∈ adsorbates_value self ↔
  i ∈ (inside_outside_value self).2
  ∧ (is_2d self = true → i ∉ subst_indices_value self).
Proof.
  unfold adsorbates_value.
  set (outside := if is_2d self then _ else _).
  assert (E : (if negb (length outside =? 0) then outside else []) = outside).
  { by destruct outside. }
  rewrite E. unfold outside. destruct (is_2d self).
  - rewrite elem_of_elements, elem_of_difference, elem_of_list_to_set. tauto.
  - split; [|tauto]. intros H. split; [done|]. discriminate.
Qed.

Lemma elem_of_unknowns_value self (i : nat) :
  i ∈ unknowns_value self ↔
  i ∈ get_all_indices self
  ∧ (i ∉ basis_value self) ∧ (i ∉ interstitials_value self)
  ∧ (i ∉ adsorbates_value self) ∧ (i ∉ subst_indices_value self).
Proof.
  unfold unknowns_value.
  rewrite elem_of_elements, elem_of_difference, !elem_of_union,
    !elem_of_list_to_set. tauto.
Qed.

(** An instance none of whose attributes is set, as [__init__] and the
    insertions of the tiling leave it. *)
Definition unset self : Prop :=
  _decomposition self = None ∧ _inside_indices self = None
  ∧ _outside_indices self = None ∧ _adsorbates self = None
  ∧ _substitutions self = None ∧ _vacancies self = None
  ∧ _clusters self = None ∧ _basis_indices self = None.

Lemma unset_init n_atoms is_2d :
  unset (__init__ n_atoms is_2d : @LinkedUnitCollection Position Tesselation).
Proof. by repeat split. Qed.

Lemma unset_setitem self key value self' :
  unset self → setitem self key value = inr self' → unset self'.
Proof.
  unfold setitem. intros H.
  destruct (__setitem__ (items self) key value); [done|].
  intros [= <-]. exact H.
Qed.

Lemma unset_coherent self : unset self → coherent self.
Proof.
  intros (Hd & Hi & Ho & Ha & Hs & Hv & _ & Hb).
  constructor; rewrite ?Hd, ?Hi, ?Ho, ?Ha, ?Hs, ?Hv, ?Hb; try done.
  by left.
Qed.

(** C10: the inside and the outside indices are disjoint, and together
    they are exactly the atom indices that are not basis indices: an atom
    outside the basis is inside or outside, never both, and no basis atom
    is in either array. *)
Theorem inside_outside_partition_of_invalid self :
  coherent self →
  let '(inside_indices, outside_indices, self') :=
    get_inside_and_outside_indices geometry self in
  let basis_indices := (get_basis_indices geometry self').1 in
  (list_to_set inside_indices : gset nat) ## list_to_set outside_indices
  ∧ (list_to_set inside_indices ∪ list_to_set outside_indices : gset nat)
    = get_all_indices self ∖ list_to_set basis_indices
  ∧ NoDup inside_indices ∧ NoDup outside_indices.
Proof.
  intros Hc.
  destruct (get_inside_and_outside_indices_value self Hc) as [Hv Hc'].
  pose proof (get_inside_and_outside_indices_effect self) as [Hext _ _ _ _ _ _].
  destruct (get_inside_and_outside_indices geometry self) as [[i o] self'].
  simpl in Hv, Hc', Hext.
  destruct (get_basis_indices_value self' Hc') as [Hb _].
  rewrite Hb, (basis_value_ext _ _ Hext). clear Hb.
  pose proof (inside_outside_value_NoDup self) as Hnd.
  pose proof (inside_outside_value_elem self) as Hel.
  pose proof (inside_outside_value_disjoint self) as Hdisj.
  rewrite <- Hv in Hnd, Hel, Hdisj. simpl in Hnd, Hel, Hdisj.
  apply NoDup_app in Hnd as (Hi & _ & Ho).
  repeat split; try done.
  - intros x Hx1%elem_of_list_to_set Hx2%elem_of_list_to_set. eauto.
  - apply set_eq. intros x.
    rewrite elem_of_union, !elem_of_list_to_set, elem_of_difference,
      elem_of_list_to_set. apply Hel.
Qed.

(** C4, as amended: for a collection that is not 2D, and for a 2D
    collection in which no substitution of a unit has the index of an atom
    that the basis accepts, the basis, substitution, interstitial, adsorbate
    and unknown indices cover every atom index and no index is in two of
    them. *)
Theorem classification_partition self :
  coherent self →
  (is_2d self = true →
   ∀ subst, subst ∈ all_substitutions self →
            index subst ∉ (get_basis_indices geometry self).1) →
  let c := (classify geometry self).1 in
  let B : gset nat := list_to_set (basis c) in
  let S : gset nat := list_to_set (index <$> substitution_list c) in
  let I : gset nat := list_to_set (interstitials c) in
  let A : gset nat := list_to_set (adsorbates c) in
  let U : gset nat := list_to_set (unknowns c) in
  get_all_indices self ⊆ B ∪ S ∪ I ∪ A ∪ U
  ∧ B ## S ∧ B ## I ∧ B ## A ∧ B ## U
  ∧ S ## I ∧ S ## A ∧ S ## U
  ∧ I ## A ∧ I ## U
  ∧ A ## U.
Proof.
  intros Hc H2d.
  destruct (get_basis_indices_value self Hc) as [Hb _]. rewrite Hb in H2d.
  destruct (classify_value self Hc) as [-> _]. simpl.
  fold (subst_indices_value self).
  pose proof (inside_outside_value_elem self) as Hio.
  pose proof (inside_outside_value_disjoint self) as Hdisj.
  pose proof (elem_of_subst_indices_value self) as HS.
  pose proof (elem_of_interstitials_value self) as HI.
  pose proof (elem_of_adsorbates_value self) as HA.
  pose proof (elem_of_unknowns_value self) as HU.
  assert (HSB : ∀ i, i ∈ subst_indices_value self → i ∉ basis_value self).
  { intros i (subst & Hin & <-)%HS. destruct (is_2d self) eqn:E.
    - apply H2d; [done|]. by apply substitutions_value_all.
    - apply substitutions_value_inside in Hin; [|done].
      assert (Hor : index subst ∈ (inside_outside_value self).1
                    ∨ index subst ∈ (inside_outside_value self).2) by eauto.
      apply Hio in Hor. tauto. }
  assert (HSO : ∀ i, i ∈ subst_indices_value self →
                     i ∈ (inside_outside_value self).2 → is_2d self = true).
  { intros i (subst & Hin & <-)%HS Ho. destruct (is_2d self) eqn:E; [done|].
    apply substitutions_value_inside in Hin; [|done].
    destruct (Hdisj _ Hin Ho). }
  repeat split.
  - intros i Hi. rewrite !elem_of_union, !elem_of_list_to_set.
    destruct (decide (i ∈ basis_value self)); [tauto|].
    destruct (decide (i ∈ subst_indices_value self)); [tauto|].
    destruct (proj2 (Hio i) (conj Hi n)) as [Hin|Hout].
    + left. left. right. apply HI. tauto.
    + left. right. apply HA. tauto.
  - intros i Hi1%elem_of_list_to_set Hi2. by apply (HSB i).
  - intros i Hi1%elem_of_list_to_set [Hi2 _]%elem_of_list_to_set%HI.
    assert (Hor : i ∈ (inside_outside_value self).1
                  ∨ i ∈ (inside_outside_value self).2) by eauto.
    apply Hio in Hor. tauto.
  - intros i Hi1%elem_of_list_to_set [Hi2 _]%elem_of_list_to_set%HA.
    assert (Hor : i ∈ (inside_outside_value self).1
                  ∨ i ∈ (inside_outside_value self).2) by eauto.
    apply Hio in Hor. tauto.
  - intros i Hi1%elem_of_list_to_set Hi2%elem_of_list_to_set%HU. tauto.
  - intros i Hi1 [_ Hi2]%elem_of_list_to_set%HI. tauto.
  - intros i Hi1 [Hi2 Hi3]%elem_of_list_to_set%HA.
    apply Hi3; [|done]. by apply (HSO i).
  - intros i Hi1 Hi2%elem_of_list_to_set%HU. tauto.
  - intros i [Hi1 _]%elem_of_list_to_set%HI [Hi2 _]%elem_of_list_to_set%HA.
    by apply (Hdisj i).
  - intros i Hi1%elem_of_list_to_set Hi2%elem_of_list_to_set%HU. tauto.
  - intros i Hi1%elem_of_list_to_set Hi2%elem_of_list_to_set%HU. tauto.
Qed.

(** *** Later calls on the same instance *)

Inductive Method :=
| GetBasisIndices | GetInvalidIndices | GetTetrahedraDecomposition
| GetInsideAndOutsideIndices | GetSubstitutions | GetVacancies
| GetInterstitials | GetClusters | GetAdsorbates | GetUnknowns.

(** The instance after a call of a method (its result dropped). *)
Definition call (m : Method) self : LinkedUnitCollection :=
  match m with
  | GetBasisIndices => (get_basis_indices geometry self).2
  | GetInvalidIndices => (get_invalid_indices geometry self).2
  | GetTetrahedraDecomposition => (get_tetrahedra_decomposition geometry self).2
  | GetInsideAndOutsideIndices => (get_inside_and_outside_indices geometry self).2
  | GetSubstitutions => (get_substitutions geometry self).2
  | GetVacancies => (get_vacancies geometry self).2
  | GetInterstitials => (get_interstitials geometry self).2
  | GetClusters => (get_clusters geometry self).2
  | GetAdsorbates => (get_adsorbates geometry self).2
  | GetUnknowns => (get_unknowns geometry self).2
  end.

Definition calls (ms : list Method) self : LinkedUnitCollection :=
  foldl (λ self m, call m self) self ms.

Lemma call_extends m self : extends self (call m self).
Proof.
  destruct m; simpl;
    [ pose proof (get_basis_indices_effect self) as []
    | pose proof (get_invalid_indices_effect self) as []
    | pose proof (get_tetrahedra_decomposition_effect self) as []
    | pose proof (get_inside_and_outside_indices_effect self) as []
    | pose proof (get_substitutions_effect self) as []
    | pose proof (get_vacancies_effect self) as []
    | pose proof (get_interstitials_effect self) as []
    | pose proof (get_clusters_effect self) as []
    | pose proof (get_adsorbates_effect self) as []
    | pose proof (get_unknowns_effect self) as [] ]; done.
Qed.

Lemma calls_extends ms self : extends self (calls ms self).
Proof.
  revert self. induction ms as [|m ms IH]; intros self; simpl.
  - apply extends_refl.
  - eapply extends_trans; [apply call_extends|apply IH].
Qed.

Lemma call_coherent m self : coherent self → coherent (call m self).
Proof.
  intros Hc. destruct m; simpl;
    [ apply get_basis_indices_value | apply get_invalid_indices_value
    | apply get_tetrahedra_decomposition_value
    | apply get_inside_and_outside_indices_value
    | apply get_substitutions_value | apply get_vacancies_value
    | apply get_interstitials_value | | apply get_adsorbates_value
    | apply get_unknowns_value ]; try done.
  unfold get_clusters. destruct (_clusters self); [done|].
  destruct Hc. by constructor.
Qed.

Lemma calls_coherent ms self : coherent self → coherent (calls ms self).
Proof.
  revert self. induction ms as [|m ms IH]; intros self Hc; simpl; [done|].
  by apply IH, call_coherent.
Qed.

(** A call that finds its attribute set returns it and changes nothing. *)
Lemma get_basis_indices_hit self v :
  _basis_indices self = Some v → get_basis_indices geometry self = (v, self).
Proof. unfold get_basis_indices. by intros ->. Qed.

Lemma get_substitutions_hit self v :
  _substitutions self = Some v → get_substitutions geometry self = (v, self).
Proof. unfold get_substitutions. by intros ->. Qed.

Lemma get_vacancies_hit self v :
  _vacancies self = Some v → get_vacancies geometry self = (v, self).
Proof. unfold get_vacancies. by intros ->. Qed.

Lemma get_adsorbates_hit self v :
  _adsorbates self = Some v → get_adsorbates geometry self = (v, self).
Proof. unfold get_adsorbates. by intros ->. Qed.

(** The inside and outside indices are settled once one of the two
    attributes is set. *)
Definition settled self : Prop :=
  ¬ (_inside_indices self = None ∧ _outside_indices self = None).

Lemma get_inside_and_outside_indices_hit self :
  settled self →
  get_inside_and_outside_indices geometry self
  = (default [] (_inside_indices self), default [] (_outside_indices self), self).
Proof.
  unfold settled, get_inside_and_outside_indices.
  destruct (_inside_indices self), (_outside_indices self); try done.
  intros []. done.
Qed.

Lemma get_inside_and_outside_indices_settled self :
  settled (get_inside_and_outside_indices geometry self).2
  ∧ default [] (_inside_indices (get_inside_and_outside_indices geometry self).2)
    = (get_inside_and_outside_indices geometry self).1.1.
Proof.
  unfold settled, get_inside_and_outside_indices.
  destruct (_inside_indices self) eqn:Ei, (_outside_indices self) eqn:Eo;
    simpl; rewrite ?Ei, ?Eo; try (split; [intros [? ?]; congruence|done]).
  destruct (get_invalid_indices geometry self) as [invalid self1].
  destruct (negb (length invalid =? 0)).
  - destruct (get_tetrahedra_decomposition geometry self1) as [t self2].
    destruct (split_inside_outside geometry t invalid) as [i o]. simpl.
    split; [intros [? ?]; congruence|done].
  - simpl. split; [intros [? ?]; congruence|done].
Qed.

Lemma settled_extends self self' :
  settled self → extends self self' →
  settled self' ∧ _inside_indices self' = _inside_indices self.
Proof.
  intros Hs Hext. destruct (ext_inside_outside _ _ Hext Hs) as [Ei Eo].
  split; [|done]. unfold settled. by rewrite Ei, Eo.
Qed.

Lemma get_interstitials_hit self subs :
  settled self → _substitutions self = Some subs →
  get_interstitials geometry self
  = (elements ((list_to_set (default [] (_inside_indices self)) : gset nat)
               ∖ list_to_set (index <$> subs)), self).
Proof.
  intros Hs Hsub. unfold get_interstitials.
  rewrite (get_inside_and_outside_indices_hit _ Hs).
  by rewrite (get_substitutions_hit _ _ Hsub).
Qed.

(** After a call of [get_interstitials] the attributes it reads are set. *)
Lemma get_interstitials_post self :
  let '(r, self') := get_interstitials geometry self in
  settled self'
  ∧ ∃ subs, _substitutions self' = Some subs
      ∧ r = elements ((list_to_set (default [] (_inside_indices self')) : gset nat)
                      ∖ list_to_set (index <$> subs)).
Proof.
  unfold get_interstitials.
  destruct (get_inside_and_outside_indices_settled self) as [Hs Hi].
  destruct (get_inside_and_outside_indices geometry self) as [[i o] self1].
  simpl in Hs, Hi.
  pose proof (get_substitutions_stored self1) as Hst.
  pose proof (get_substitutions_effect self1) as [Hext _ _ _ _ _ _].
  destruct (get_substitutions geometry self1) as [subs self2].
  simpl in Hst, Hext.
  destruct (settled_extends _ _ Hs Hext) as [Hs2 Ei].
  split; [done|]. exists subs. split; [done|]. by rewrite Ei, Hi.
Qed.

(** What [get_unknowns] returns once the attributes it reads are set. *)
Definition unknowns_of self (b : list nat) (subs : list Substitution)
    (a : list nat) : list nat :=
  let subst_indices : gset nat := list_to_set (index <$> subs) in
  let interstitials :=
    elements ((list_to_set (default [] (_inside_indices self)) : gset nat)
              ∖ subst_indices) in
  elements (get_all_indices self
            ∖ (list_to_set b ∪ list_to_set interstitials ∪ list_to_set a
               ∪ subst_indices)).

Lemma get_unknowns_hit self b subs a :
  settled self → _basis_indices self = Some b →
  _substitutions self = Some subs → _adsorbates self = Some a →
  get_unknowns geometry self = (unknowns_of self b subs a, self).
Proof.
  intros Hs Hb Hsub Ha. unfold get_unknowns.
  rewrite (get_basis_indices_hit _ _ Hb).
  rewrite (get_interstitials_hit _ _ Hs Hsub).
  rewrite (get_adsorbates_hit _ _ Ha).
  by rewrite (get_substitutions_hit _ _ Hsub).
Qed.

Lemma get_unknowns_post self :
  let '(r, self') := get_unknowns geometry self in
  settled self'
  ∧ ∃ b subs a,
      _basis_indices self' = Some b ∧ _substitutions self' = Some subs
      ∧ _adsorbates self' = Some a ∧ r = unknowns_of self' b subs a.
Proof.
  unfold get_unknowns.
  pose proof (get_basis_indices_stored self) as Hb.
  pose proof (get_basis_indices_effect self) as [Hext1 _ _ _ _ _ _].
  destruct (get_basis_indices geometry self) as [b self1]. simpl in Hb, Hext1.
  pose proof (get_interstitials_post self1) as Hi.
  pose proof (get_interstitials_effect self1) as [Hext2 _ _ _ _ _ _].
  destruct (get_interstitials geometry self1) as [i self2]. simpl in Hext2.
  destruct Hi as (Hs2 & subs2 & Hsub2 & ->).
  pose proof (get_adsorbates_stored self2) as Ha.
  pose proof (get_adsorbates_effect self2) as [Hext3 _ _ _ _ _ _].
  destruct (get_adsorbates geometry self2) as [a self3]. simpl in Ha, Hext3.
  pose proof (ext_substitutions _ _ Hext3 _ Hsub2) as Hsub3.
  rewrite (get_substitutions_hit _ _ Hsub3).
  destruct (settled_extends _ _ Hs2 Hext3) as [Hs3 Ei3].
  split; [done|]. exists b, subs2, a.
  repeat split; try done.
  - apply (ext_basis _ _ Hext3), (ext_basis _ _ Hext2), Hb.
  - unfold unknowns_of, get_all_indices.
    by rewrite Ei3, (ext_n_atoms _ _ Hext3), (ext_n_atoms _ _ Hext2),
      (ext_n_atoms _ _ Hext1).
Qed.

(** C6, as amended: the basis indices, the vacancies, the substitutions and
    the adsorbates are memoised: a call stores its result in the attribute
    of the instance, and every later call on the instance, whatever methods
    were called in between, returns the stored result and leaves the
    instance as it is.  The interstitials and the unknowns have no attribute:
    a later call returns the same array again, computed from the attributes
    that are stored. *)
Theorem stored_results_are_returned self (ms : list Method) :
  (let '(r, self1) := get_basis_indices geometry self in
   _basis_indices self1 = Some r
   ∧ get_basis_indices geometry (calls ms self1) = (r, calls ms self1))
  ∧ (let '(r, self1) := get_vacancies geometry self in
     _vacancies self1 = Some r
     ∧ get_vacancies geometry (calls ms self1) = (r, calls ms self1))
  ∧ (let '(r, self1) := get_substitutions geometry self in
     _substitutions self1 = Some r
     ∧ get_substitutions geometry (calls ms self1) = (r, calls ms self1))
  ∧ (let '(r, self1) := get_adsorbates geometry self in
     _adsorbates self1 = Some r
     ∧ get_adsorbates geometry (calls ms self1) = (r, calls ms self1))
  ∧ (let '(r, self1) := get_interstitials geometry self in
     get_interstitials geometry (calls ms self1) = (r, calls ms self1))
  ∧ (let '(r, self1) := get_unknowns geometry self in
     get_unknowns geometry (calls ms self1) = (r, calls ms self1)).
Proof.
  repeat split.
  - pose proof (get_basis_indices_stored self) as H.
    destruct (get_basis_indices geometry self) as [r self1]. simpl in H.
    split; [done|]. apply get_basis_indices_hit.
    by apply (ext_basis _ _ (calls_extends ms self1)).
  - pose proof (get_vacancies_stored self) as H.
    destruct (get_vacancies geometry self) as [r self1]. simpl in H.
    split; [done|]. apply get_vacancies_hit.
    by apply (ext_vacancies _ _ (calls_extends ms self1)).
  - pose proof (get_substitutions_stored self) as H.
    destruct (get_substitutions geometry self) as [r self1]. simpl in H.
    split; [done|]. apply get_substitutions_hit.
    by apply (ext_substitutions _ _ (calls_extends ms self1)).
  - pose proof (get_adsorbates_stored self) as H.
    destruct (get_adsorbates geometry self) as [r self1]. simpl in H.
    split; [done|]. apply get_adsorbates_hit.
    by apply (ext_adsorbates _ _ (calls_extends ms self1)).
  - pose proof (get_interstitials_post self) as H.
    destruct (get_interstitials geometry self) as [r self1].
    destruct H as (Hs & subs & Hsub & ->).
    pose proof (calls_extends ms self1) as Hext.
    destruct (settled_extends _ _ Hs Hext) as [Hs' Ei].
    rewrite (get_interstitials_hit _ subs Hs'), Ei; [done|].
    by apply (ext_substitutions _ _ Hext).
  - pose proof (get_unknowns_post self) as H.
    destruct (get_unknowns geometry self) as [r self1].
    destruct H as (Hs & b & subs & a & Hb & Hsub & Ha & ->).
    pose proof (calls_extends ms self1) as Hext.
    destruct (settled_extends _ _ Hs Hext) as [Hs' Ei].
    rewrite (get_unknowns_hit _ b subs a Hs').
    + unfold unknowns_of, get_all_indices.
      by rewrite Ei, (ext_n_atoms _ _ Hext).
    + by apply (ext_basis _ _ Hext).
    + by apply (ext_substitutions _ _ Hext).
    + by apply (ext_adsorbates _ _ Hext).
Qed.

(** *** What the methods never return *)

(** X3: [get_unknowns] returns the empty array on every instance whose
    attributes were written by the methods: an atom that is no basis atom
    is inside or outside the tesselation, and so it is an interstitial, a
    substitution or an adsorbate. *)
Theorem unknowns_always_empty self :
  coherent self → (get_unknowns geometry self).1 = [].
Proof.
  intros Hc. destruct (get_unknowns_value self Hc) as [-> _].
  destruct (unknowns_value self) as [|i l] eqn:E; [done|]. exfalso.
  assert (Hi : i ∈ unknowns_value self) by (rewrite E; constructor).
  apply elem_of_unknowns_value in Hi as (Hall & Hb & Hint & Hads & Hs).
  destruct (proj2 (inside_outside_value_elem self i) (conj Hall Hb)) as [Hin|Hout].
  - by apply Hint, elem_of_interstitials_value.
  - by apply Hads, elem_of_adsorbates_value.
Qed.

(** X4: outside 2D every substitution that [get_substitutions] returns is
    one that a unit of the tiling lists, its atom is inside the
    tesselation, is an atom of the system and is no basis atom; a
    substitution whose index is not an atom index is dropped. *)
Theorem substitutions_lie_inside self :
  coherent self → is_2d self = false →
  let '(substitutions, self1) := get_substitutions geometry self in
  let '(inside_indices, _, self2) :=
    get_inside_and_outside_indices geometry self1 in
  let basis_indices := (get_basis_indices geometry self2).1 in
  ∀ subst, subst ∈ substitutions →
    subst ∈ all_substitutions self
    ∧ index subst ∈ inside_indices
    ∧ index subst < n_atoms self
    ∧ (index subst ∉ basis_indices).
Proof.
  intros Hc E2d.
  destruct (get_substitutions_value self Hc) as [Hv1 Hc1].
  pose proof (get_substitutions_effect self) as [Hext1 _ _ _ _ _ _].
  destruct (get_substitutions geometry self) as [subs self1].
  destruct (get_inside_and_outside_indices_value self1 Hc1) as [Hv2 Hc2].
  pose proof (get_inside_and_outside_indices_effect self1) as [Hext2 _ _ _ _ _ _].
  destruct (get_inside_and_outside_indices geometry self1) as [[ins outs] self2].
  destruct (get_basis_indices_value self2 Hc2) as [Hv3 _].
  simpl in *. rewrite Hv3.
  pose proof (extends_trans _ _ _ Hext1 Hext2) as Hext12.
  rewrite (basis_value_ext _ _ Hext12).
  rewrite (inside_outside_value_ext _ _ Hext1) in Hv2.
  subst subs. intros subst Hin.
  pose proof (substitutions_value_inside self subst E2d Hin) as Hins.
  assert (Hor : index subst ∈ (inside_outside_value self).1
                ∨ index subst ∈ (inside_outside_value self).2) by eauto.
  apply inside_outside_value_elem in Hor as [Hall Hb].
  rewrite <- Hv2 in Hins. simpl in Hins.
  split; [by apply substitutions_value_all|]. split; [done|]. split; [|done].
  unfold get_all_indices in Hall.
  apply elem_of_list_to_set, list_elem_of_In, in_seq in Hall. lia.
Qed.

(** *** The basis indices *)





(** The index arrays the attributes of an instance hold. *)
Definition stored_arrays self : list (list nat) :=
  option_list (_basis_indices self)
  ++ option_list (_inside_indices self)
  ++ option_list (_outside_indices self)
  ++ option_list (_adsorbates self)
  ++ option_list ((λ substitutions : list Substitution, index <$> substitutions)
                    <$> _substitutions self).

End CollectionProperties.

(** ** The two regions *)

Lemma slab_unset : unset slab.
Proof. by repeat split. Qed.

Lemma sheet_unset : unset sheet.
Proof. by repeat split. Qed.

Example slab_classification :
  (classify slab_geometry slab).1
  = {| basis := [4; 0]; adsorbates := [5]; interstitials := [2; 3];
       substitution_list :=
         [ {| index := 1; original_element := 26; substitutional_element := 29 |} ];
       vacancy_list := [2]; unknowns := [] |}.
Proof. vm_compute. reflexivity. Qed.

Lemma inside_outside_partition_of_invalid_witness :
  coherent slab_geometry slab
  ∧ let '(inside_indices, outside_indices, self') :=
      get_inside_and_outside_indices slab_geometry slab in
    let basis_indices := (get_basis_indices slab_geometry self').1 in
    (list_to_set inside_indices : gset nat) ## list_to_set outside_indices
    ∧ (list_to_set inside_indices ∪ list_to_set outside_indices : gset nat)
      = get_all_indices slab ∖ list_to_set basis_indices
    ∧ NoDup inside_indices ∧ NoDup outside_indices.
Proof.
  pose proof (unset_coherent slab_geometry slab slab_unset) as Hc.
  split; [exact Hc|].
  exact (inside_outside_partition_of_invalid slab_geometry slab Hc).
Defined.

Lemma classification_partition_witness :
  coherent slab_geometry slab
  ∧ (is_2d slab = true →
     ∀ subst, subst ∈ all_substitutions slab →
              index subst ∉ (get_basis_indices slab_geometry slab).1)
  ∧ let c := (classify slab_geometry slab).1 in
    let B : gset nat := list_to_set (basis c) in
    let S : gset nat := list_to_set (index <$> substitution_list c) in
    let I : gset nat := list_to_set (interstitials c) in
    let A : gset nat := list_to_set (adsorbates c) in
    let U : gset nat := list_to_set (unknowns c) in
    get_all_indices slab ⊆ B ∪ S ∪ I ∪ A ∪ U
    ∧ B ## S ∧ B ## I ∧ B ## A ∧ B ## U
    ∧ S ## I ∧ S ## A ∧ S ## U
    ∧ I ## A ∧ I ## U
    ∧ A ## U.
Proof.
  pose proof (unset_coherent slab_geometry slab slab_unset) as Hc.
  assert (H2d : is_2d slab = true →
                ∀ subst, subst ∈ all_substitutions slab →
                         index subst ∉ (get_basis_indices slab_geometry slab).1).
  { simpl. discriminate. }
  split; [exact Hc|]. split; [exact H2d|].
  exact (classification_partition slab_geometry slab Hc H2d).
Defined.

(** C4, counterexample: in the 2D sheet atom 1 is a basis index and a
    substitution index at once. *)
Lemma sheet_atom_counted_twice :
  let c := (classify slab_geometry sheet).1 in
  basis c = [1; 0]
  ∧ index <$> substitution_list c = [1]
  ∧ 1 ∈ (list_to_set (basis c) : gset nat)
  ∧ 1 ∈ (list_to_set (index <$> substitution_list c) : gset nat).
Proof.
  assert (E : (classify slab_geometry sheet).1
              = {| basis := [1; 0]; adsorbates := []; interstitials := [];
                   substitution_list :=
                     [ {| index := 1; original_element := 6;
                          substitutional_element := 5 |} ];
                   vacancy_list := []; unknowns := [] |}).
  { vm_compute. reflexivity. }
  rewrite E. simpl. repeat split; set_solver.
Qed.

(** C6, counterexample: on the slab [get_interstitials] returns [2; 3] and
    [get_unknowns] returns the empty array, and after the call no attribute
    of the instance holds that array. *)
Lemma interstitials_and_unknowns_not_stored :
  (get_interstitials slab_geometry slab).1 = [2; 3]
  ∧ stored_arrays (get_interstitials slab_geometry slab).2
    = [[4; 0]; [2; 3; 1]; [5]; [1]]
  ∧ (get_unknowns slab_geometry slab).1 = []
  ∧ stored_arrays (get_unknowns slab_geometry slab).2
    = [[4; 0]; [2; 3; 1]; [5]; [5]; [1]].
Proof. repeat split; vm_compute; reflexivity. Qed.

(** An insertion into the slab: the key of its unit is taken, a fresh key
    of three components is accepted, a pair is not a key. *)
Lemma setitem_rejects_or_inserts_witness :
  __setitem__ (items slab) (Sequence [0; 0; 0]%Z) sheet_unit
  = inl ValueError_override
  ∧ after_setitem (items slab) (Sequence [0; 0; 0]%Z) sheet_unit !! [0; 0; 0]%Z
    = Some slab_unit
  ∧ __setitem__ (items slab) (Sequence [0; 0; 1]%Z) sheet_unit
    = inr (<[ [0; 0; 1]%Z := sheet_unit ]> (items slab))
  ∧ __setitem__ (items slab) (Sequence [0; 1]%Z) sheet_unit
    = inl ValueError_components
  ∧ __setitem__ (items slab) NotIterable sheet_unit = inl TypeError_no_tuple.
Proof.
  pose proof (setitem_rejects_or_inserts (items slab) (Sequence [0; 0; 0]%Z) sheet_unit)
    as (_ & _ & Htaken & _ & _).
  pose proof (setitem_rejects_or_inserts (items slab) (Sequence [0; 0; 1]%Z) sheet_unit)
    as (_ & _ & _ & _ & Hfresh).
  pose proof (setitem_rejects_or_inserts (items slab) (Sequence [0; 1]%Z) sheet_unit)
    as (_ & Hshort & _ & _ & _).
  pose proof (setitem_rejects_or_inserts (items slab) NotIterable sheet_unit)
    as (Hnone & _ & _ & _ & _).
  destruct (Htaken [0; 0; 0]%Z slab_unit) as [H1 H2]; [done|done|by vm_compute|].
  destruct (Hfresh [0; 0; 1]%Z) as [H3 _]; [done|done|by vm_compute|].
  split; [exact H1|]. split; [exact H2|]. split; [exact H3|].
  split; [by apply (Hshort [0; 1]%Z)|by apply Hnone].
Defined.

Lemma unknowns_always_empty_witness :
  coherent slab_geometry slab ∧ (get_unknowns slab_geometry slab).1 = [].
Proof.
  pose proof (unset_coherent slab_geometry slab slab_unset) as Hc.
  split; [exact Hc | exact (unknowns_always_empty slab_geometry slab Hc)].
Defined.

Lemma substitutions_lie_inside_witness :
  coherent slab_geometry slab ∧ is_2d slab = false
  ∧ let '(substitutions, self1) := get_substitutions slab_geometry slab in
    let '(inside_indices, _, self2) :=
      get_inside_and_outside_indices slab_geometry self1 in
    let basis_indices := (get_basis_indices slab_geometry self2).1 in
    ∀ subst, subst ∈ substitutions →
      subst ∈ all_substitutions slab
      ∧ index subst ∈ inside_indices
      ∧ index subst < n_atoms slab
      ∧ (index subst ∉ basis_indices).
Proof.
  pose proof (unset_coherent slab_geometry slab slab_unset) as Hc.
  assert (E : is_2d slab = false) by reflexivity.
  split; [exact Hc|]. split; [exact E|].
  exact (substitutions_lie_inside slab_geometry slab Hc E).
Defined.


End LinkedUnitsTheory.

(* ===================================================================== *)
(** * Properties of systax/symmetry/symmetryanalyzer.py                   *)
(* ===================================================================== *)

Module SymmetryAnalyzerTheory.
Import SymmetryAnalyzer.

(** ** The symmetry dataset *)

Section SymmetryDatasetProperties.
Context {System Dataset : Type}.
Variable oracle : System → Q → OracleOutcome Dataset.
Implicit Types self : @Analyzer System Dataset.

(** C7: the method raises [CellNormalizationError] exactly when no dataset
    is cached and the oracle call aborts or returns [None], and then the
    analyzer is left as it was, with no dataset; in every other case it
    returns a dataset, the cached one or the one the oracle returned, and
    that dataset is the cached one afterwards. *)
Theorem get_symmetry_dataset_error_or_cached self :
  match get_symmetry_dataset oracle self with
  | (inl error, self') =>
      self' = self
      ∧ _symmetry_dataset self = None
      ∧ ((oracle (_analyzed_system self) (symmetry_tol self) = Aborted
          ∧ error = Segfault_in_spglib)
         ∨ (oracle (_analyzed_system self) (symmetry_tol self) = Returned None
            ∧ error = Spglib_error))
  | (inr symmetry_dataset, self') =>
      _symmetry_dataset self' = Some symmetry_dataset
      ∧ _analyzed_system self' = _analyzed_system self
      ∧ symmetry_tol self' = symmetry_tol self
      ∧ ((_symmetry_dataset self = Some symmetry_dataset ∧ self' = self)
         ∨ (_symmetry_dataset self = None
            ∧ oracle (_analyzed_system self) (symmetry_tol self)
              = Returned (Some symmetry_dataset)))
  end.
Proof.
  unfold get_symmetry_dataset.
  destruct (_symmetry_dataset self) as [d|] eqn:E.
  - repeat split; auto.
  - destruct (oracle (_analyzed_system self) (symmetry_tol self))
      as [|[d|]] eqn:Eo; simpl; repeat split; auto.
Qed.

(** The other direction, case by case. *)
Lemma get_symmetry_dataset_aborted self :
  _symmetry_dataset self = None →
  oracle (_analyzed_system self) (symmetry_tol self) = Aborted →
  get_symmetry_dataset oracle self = (inl Segfault_in_spglib, self).
Proof. unfold get_symmetry_dataset. by intros -> ->. Qed.

Lemma get_symmetry_dataset_none self :
  _symmetry_dataset self = None →
  oracle (_analyzed_system self) (symmetry_tol self) = Returned None →
  get_symmetry_dataset oracle self = (inl Spglib_error, self).
Proof. unfold get_symmetry_dataset. by intros -> ->. Qed.

Lemma get_symmetry_dataset_cached self d :
  _symmetry_dataset self = Some d →
  get_symmetry_dataset oracle self = (inr d, self).
Proof. unfold get_symmetry_dataset. by intros ->. Qed.

End SymmetryDatasetProperties.

(** ** The conventional lattice fit *)

Section LatticeFitProperties.
Local Open Scope Q_scope.

Lemma det_scale (k : Q) (m : Matrix3) : det (scale k m) == k * k * k * det m.
Proof.
  destruct m as [[[[a b] c] [[d e] f]] [[g h] i]].
  unfold det, scale. ring.
Qed.

Lemma divide_Some (a b q : Q) :
  divide a b = Some q → ¬ b == 0 ∧ q = a / b.
Proof.
  unfold divide. destruct (Qeq_bool b 0) eqn:E; [done|].
  intros [= <-]. split; [|done]. by apply Qeq_bool_neq.
Qed.

Lemma scaled_volume (vo a n : Q) :
  ¬ a / n == 0 → ¬ n == 0 →
  vo / (a / n) * (vo / (a / n)) * (vo / (a / n)) * a / n
  == vo / (a / n) * (vo / (a / n)) * vo.
Proof.
  intros H1 H2.
  assert (Ha : ¬ a == 0).
  { intros E. apply H1. rewrite E. unfold Qdiv. apply Qmult_0_l. }
  field. split; assumption.
Qed.

(** What the method returns: the lattice made from the rounded
    coefficients, times the ratio of the two volumes per atom. *)
Lemma get_conventional_lattice_fit_unfold conv_cell n_atoms_conv orig_cell
    n_atoms_original fit :
  get_conventional_lattice_fit conv_cell n_atoms_conv orig_cell n_atoms_original
  = Some fit →
  ∃ new_std_lattice,
    unscaled_lattice conv_cell orig_cell = Some new_std_lattice
    ∧ ¬ volume_per_atom new_std_lattice n_atoms_conv == 0
    ∧ ¬ inject_Z (Z.of_nat n_atoms_conv) == 0
    ∧ fit = scale (volume_per_atom orig_cell n_atoms_original
                   / volume_per_atom new_std_lattice n_atoms_conv)
                  new_std_lattice.
Proof.
  unfold get_conventional_lattice_fit, unscaled_lattice.
  destruct (inv (transpose orig_cell)) as [orig_cell_inv|]; [|done]. simpl.
  set (new_std_lattice := dot _ orig_cell).
  destruct (divide (get_volume orig_cell) _) as [vo|] eqn:E1; [|done]. simpl.
  destruct (divide (Qabs (det new_std_lattice)) _) as [vc|] eqn:E2; [|done].
  simpl.
  destruct (divide vo vc) as [factor|] eqn:E3; [|done]. simpl.
  intros [= <-]. exists new_std_lattice.
  apply divide_Some in E1 as [_ ->]. apply divide_Some in E2 as [Hn ->].
  apply divide_Some in E3 as [Hv ->]. done.
Qed.

(** The volume per atom of the fit is that of the analyzed system times
    the square of the scaling factor: it is the volume per atom of the
    analyzed system only when the factor is 1 or -1, that is, when the
    unscaled lattice has it already. *)
Lemma fit_volume_per_atom conv_cell n_atoms_conv orig_cell n_atoms_original fit :
  get_conventional_lattice_fit conv_cell n_atoms_conv orig_cell n_atoms_original
  = Some fit →
  ∃ new_std_lattice factor,
    unscaled_lattice conv_cell orig_cell = Some new_std_lattice
    ∧ factor == volume_per_atom orig_cell n_atoms_original
                / volume_per_atom new_std_lattice n_atoms_conv
    ∧ volume_per_atom fit n_atoms_conv
      == factor * factor * volume_per_atom orig_cell n_atoms_original.
Proof.
  intros (L & HL & Hv & Hn & ->)%get_conventional_lattice_fit_unfold.
  exists L, (volume_per_atom orig_cell n_atoms_original
             / volume_per_atom L n_atoms_conv).
  split; [done|]. split; [reflexivity|].
  assert (Hnn : ∀ m n, 0 <= volume_per_atom m n).
  { intros m n. unfold volume_per_atom, Qdiv. apply Qmult_le_0_compat.
    - apply Qabs_nonneg.
    - apply Qinv_le_0_compat. change 0 with (inject_Z 0).
      rewrite <- Zle_Qle. lia. }
  assert (Hf : 0 <= volume_per_atom orig_cell n_atoms_original
                    / volume_per_atom L n_atoms_conv).
  { unfold Qdiv. apply Qmult_le_0_compat; [apply Hnn|].
    apply Qinv_le_0_compat, Hnn. }
  unfold volume_per_atom at 1.
  rewrite det_scale, !Qabs_Qmult, (Qabs_pos _ Hf).
  generalize (volume_per_atom orig_cell n_atoms_original). intros vo.
  unfold volume_per_atom in *. by apply scaled_volume.
Qed.

(** C1 on a supercell: the analyzed system is the supercell of eleven
    simple cubic cells (eleven atoms, 27 cubic units per atom), the
    conventional system the cubic cell with its atom.  The coefficient 1/11
    is rounded to 1/10, the factor is 10/11, and the fit has 2700/121 cubic
    units per atom. *)
Theorem lattice_fit_volume_not_conserved :
  ∃ fit,
    get_conventional_lattice_fit cubic_cell 1 supercell_11 11 = Some fit
    ∧ volume_per_atom supercell_11 11 == 27
    ∧ volume_per_atom fit 1 == 2700 # 121
    ∧ close_rel (1 # 100000000) (volume_per_atom supercell_11 11)
                (volume_per_atom fit 1) = false
    ∧ allclose (1 # 100000000) (volume_per_atom supercell_11 11)
               (volume_per_atom fit 1) = false.
Proof.
  destruct (get_conventional_lattice_fit cubic_cell 1 supercell_11 11)
    as [fit|] eqn:E; [|by vm_compute in E].
  exists fit. split; [done|].
  vm_compute in E. injection E as <-.
  repeat split; by vm_compute.
Qed.

Lemma det_transpose (m : Matrix3) : det (transpose m) == det m.
Proof.
  destruct m as [[[[a b] c] [[d e] f]] [[g h] i]].
  unfold det, transpose. ring.
Qed.

Lemma det_dot (m n : Matrix3) : det (dot m n) == det m * det n.
Proof.
  destruct m as [[[[a b] c] [[d e] f]] [[g h] i]].
  destruct n as [[[[a' b'] c'] [[d' e'] f']] [[g' h'] i']].
  unfold det, dot. ring.
Qed.

(** [np.linalg.inv] raises exactly for a matrix of determinant zero. *)
Lemma inv_is_Some (m : Matrix3) : is_Some (inv m) ↔ ¬ det m == 0.
Proof.
  destruct m as [[[[a b] c] [[d e] f]] [[g h] i]]. unfold inv.
  destruct (Qeq_bool _ 0) eqn:E.
  - apply Qeq_bool_eq in E. split; [by intros [? ?]|intros H; by destruct H].
  - apply Qeq_bool_neq in E. split; [done|by eexists].
Qed.

Lemma Qabs_nonzero_pos (x : Q) : ¬ x == 0 → 0 < Qabs x.
Proof.
  intros Hx. destruct (Qlt_le_dec 0 (Qabs x)) as [|Hle]; [done|].
  exfalso. apply Hx. apply Qabs_Qle_condition in Hle as [H1 H2]. lra.
Qed.

Lemma volume_per_atom_nonneg (cell : Matrix3) (n_atoms : nat) :
  0 <= volume_per_atom cell n_atoms.
Proof.
  unfold volume_per_atom, Qdiv. apply Qmult_le_0_compat.
  - apply Qabs_nonneg.
  - apply Qinv_le_0_compat. change 0 with (inject_Z 0).
    rewrite <- Zle_Qle. lia.
Qed.

(** When the method returns a lattice, the analyzed system has atoms and a
    cell that is not flat: its volume per atom is positive. *)
Lemma fit_original_volume conv_cell n_atoms_conv orig_cell n_atoms_original fit :
  get_conventional_lattice_fit conv_cell n_atoms_conv orig_cell n_atoms_original
  = Some fit →
  0 < volume_per_atom orig_cell n_atoms_original.
Proof.
  unfold get_conventional_lattice_fit.
  destruct (inv (transpose orig_cell)) as [orig_cell_inv|] eqn:Einv; [|done].
  simpl.
  destruct (divide (get_volume orig_cell) _) as [vo|] eqn:E1; [|done].
  intros _. apply divide_Some in E1 as [Hn _].
  assert (Hdet : ¬ det orig_cell == 0).
  { rewrite <- det_transpose. apply inv_is_Some. by eexists. }
  unfold volume_per_atom, Qdiv. apply Qmult_lt_0_compat.
  - by apply Qabs_nonzero_pos.
  - apply Qinv_lt_0_compat.
    assert (0 <= inject_Z (Z.of_nat n_atoms_original)).
    { change 0 with (inject_Z 0). rewrite <- Zle_Qle. lia. }
    destruct (Qlt_le_dec 0 (inject_Z (Z.of_nat n_atoms_original))); [done|].
    exfalso. apply Hn. lra.
Qed.

(** X13: whenever [get_conventional_lattice_fit] returns a lattice, this
    lattice has the volume per atom of the analyzed system exactly when the
    lattice made from the rounded coefficients, before the scaling, has it
    already.  The scaling repairs no deviation of the volume. *)
Theorem lattice_fit_conserves_volume_iff conv_cell n_atoms_conv orig_cell
    n_atoms_original fit :
  get_conventional_lattice_fit conv_cell n_atoms_conv orig_cell n_atoms_original
  = Some fit →
  ∃ new_std_lattice,
    unscaled_lattice conv_cell orig_cell = Some new_std_lattice
    ∧ (volume_per_atom fit n_atoms_conv
       == volume_per_atom orig_cell n_atoms_original
       ↔ volume_per_atom new_std_lattice n_atoms_conv
         == volume_per_atom orig_cell n_atoms_original).
Proof.
  intros Hfit. pose proof (fit_original_volume _ _ _ _ _ Hfit) as Hvo.
  pose proof (get_conventional_lattice_fit_unfold _ _ _ _ _ Hfit)
    as (L & HL & Hvu & _ & _).
  destruct (fit_volume_per_atom _ _ _ _ _ Hfit) as (L' & factor & HL' & Hf & Hv).
  assert (L' = L) as -> by congruence.
  exists L. split; [done|]. rewrite Hv.
  pose proof (volume_per_atom_nonneg L n_atoms_conv) as Hvu'.
  set (vo := volume_per_atom orig_cell n_atoms_original) in *.
  set (vu := volume_per_atom L n_atoms_conv) in *.
  assert (Hpos : 0 < vu).
  { destruct (Qlt_le_dec 0 vu); [done|]. exfalso. apply Hvu. lra. }
  assert (Hfvu : factor * vu == vo).
  { rewrite Hf. field. lra. }
  assert (Hfpos : 0 < factor).
  { rewrite Hf. unfold Qdiv. apply Qmult_lt_0_compat; [done|].
    by apply Qinv_lt_0_compat. }
  split.
  - intros E. assert (E1 : factor * factor == 1).
    { apply (Qmult_inj_r _ _ vo); [lra|]. rewrite E. ring. }
    assert (E2 : factor == 1) by nra.
    rewrite <- Hfvu, E2. ring.
  - intros E. assert (E2 : factor == 1).
    { apply (Qmult_inj_r _ _ vu); [lra|]. rewrite Hfvu, E. ring. }
    rewrite E2. ring.
Qed.

(** A supercell of two cubic cells: the coefficient 1/2 is kept by the
    rounding, and the fit has the 27 cubic units per atom of the analyzed
    system. *)
Definition supercell_2 : Matrix3 := ((3, 0, 0), (0, 3, 0), (0, 0, 6)).

Lemma lattice_fit_conserves_volume_iff_witness :
  ∃ fit new_std_lattice,
    get_conventional_lattice_fit cubic_cell 1 supercell_2 2 = Some fit
    ∧ unscaled_lattice cubic_cell supercell_2 = Some new_std_lattice
    ∧ (volume_per_atom fit 1 == volume_per_atom supercell_2 2
       ↔ volume_per_atom new_std_lattice 1 == volume_per_atom supercell_2 2).
Proof.
  destruct (get_conventional_lattice_fit cubic_cell 1 supercell_2 2)
    as [fit|] eqn:E; [|by vm_compute in E].
  destruct (lattice_fit_conserves_volume_iff _ _ _ _ _ E) as (L & HL & Hiff).
  by exists fit, L.
Defined.

Example lattice_fit_supercell_2 :
  ∃ fit,
    get_conventional_lattice_fit cubic_cell 1 supercell_2 2 = Some fit
    ∧ volume_per_atom fit 1 == 27 ∧ volume_per_atom supercell_2 2 == 27.
Proof.
  destruct (get_conventional_lattice_fit cubic_cell 1 supercell_2 2)
    as [fit|] eqn:E; [|by vm_compute in E].
  exists fit. split; [done|]. vm_compute in E. injection E as <-.
  split; by vm_compute.
Qed.

End LatticeFitProperties.

(** ** The free variables of a Wyckoff group *)

Section FreeVariablesProperties.
Local Open Scope Q_scope.

(** The test an atom has to pass in the method: the first expression,
    with the values of the atom, gives the position of the atom. *)
Definition first_expression_ok (variables_present : list FreeVariable)
    (first_expression : Expressions) (cell : Matrix3) (precision : Q)
    (pos : Vector) : bool :=
  match evaluate variables_present (trial_values variables_present pos)
                 first_expression with
  | Some evaluated_pos => found_position evaluated_pos pos cell precision
  | None => false
  end.

Lemma other_expressions_ok_error variables_present values evaluated_pos
    other_expressions group_positions cell precision :
  foldl (λ variables_ok expression,
           variables_ok ← variables_ok;
           eval_pos ← evaluate variables_present values expression;
           let wyckoff_coord_matched :=
             existsb (λ pos, found_position evaluated_pos pos cell precision)
                     group_positions in
           if negb wyckoff_coord_matched then Some false else Some variables_ok)
        None other_expressions = None.
Proof. induction other_expressions as [|e l IH]; simpl; done. Qed.

(** When [evaluated_pos] is the position of a member, the test of the
    other expressions cannot fail: it is [True] as soon as the expressions
    can be evaluated. *)
Lemma other_expressions_ok_vacuous variables_present values evaluated_pos
    other_expressions group_positions cell precision :
  existsb (λ pos, found_position evaluated_pos pos cell precision) group_positions
  = true →
  Forall (λ e, is_Some (evaluate variables_present values e)) other_expressions →
  other_expressions_ok variables_present values evaluated_pos other_expressions
                       group_positions cell precision = Some true.
Proof.
  intros Hex Hall. unfold other_expressions_ok.
  induction Hall as [|e l [v Hv] _ IH]; simpl; [done|].
  rewrite Hv. simpl. rewrite Hex in IH |- *. simpl. exact IH.
Qed.

Lemma collect_step variables_present first_expression other_expressions
    group_positions cell precision (l : list Vector) (acc : list Values) :
  l ⊆ group_positions →
  Forall (λ pos,
            Forall (λ e, is_Some (evaluate variables_present
                                           (trial_values variables_present pos) e))
                   (first_expression :: other_expressions)) l →
  foldl (λ variables_values pos,
           variables_values ← variables_values;
           let values := trial_values variables_present pos in
           evaluated_pos ← evaluate variables_present values first_expression;
           if found_position evaluated_pos pos cell precision then
             variables_ok ← other_expressions_ok variables_present values
                              evaluated_pos other_expressions group_positions
                              cell precision;
             if variables_ok : bool then Some (variables_values ++ [values])
             else Some variables_values
           else Some variables_values)
        (Some acc) l
  = Some (acc ++ (trial_values variables_present
                    <$> List.filter (first_expression_ok variables_present
                                       first_expression cell precision) l)).
Proof.
  revert acc. induction l as [|pos l IH]; intros acc Hsub Hall; simpl.
  - by rewrite app_nil_r.
  - apply Forall_cons in Hall as [Hpos Hall].
    apply Forall_cons in Hpos as [[ev Hev] Hothers].
    assert (Hsub' : l ⊆ group_positions).
    { intros p Hp. apply Hsub. by constructor. }
    unfold first_expression_ok at 1. rewrite Hev. simpl.
    destruct (found_position ev pos cell precision) eqn:Hfound.
    + rewrite (other_expressions_ok_vacuous _ _ _ _ _ _ _); [|
        apply existsb_exists; exists pos; split; [|done];
        apply list_elem_of_In, Hsub; constructor | done].
      simpl. rewrite (IH _ Hsub' Hall). csimpl. by rewrite <- app_assoc.
    + by rewrite (IH _ Hsub' Hall).
Qed.

(** What the method collects: the values of every atom whose own position
    the first expression gives back.  No other expression decides. *)
Lemma collect_variables_values_first_only variables_present first_expression
    other_expressions group_positions cell precision :
  Forall (λ pos,
            Forall (λ e, is_Some (evaluate variables_present
                                           (trial_values variables_present pos) e))
                   (first_expression :: other_expressions)) group_positions →
  collect_variables_values variables_present first_expression other_expressions
                           group_positions cell precision
  = Some (trial_values variables_present
            <$> List.filter (first_expression_ok variables_present
                               first_expression cell precision) group_positions).
Proof.
  intros Hall. unfold collect_variables_values.
  by rewrite (collect_step _ _ _ group_positions _ _ group_positions []).
Qed.

(** C2 on the group of the two atoms at (0.1, 0, 0) and (0.3, 0, 0) of a
    letter with the positions (x, 0, 0) and (-x, 0, 0): the values of
    neither atom pass the test of every expression, since (0.9, 0, 0) and
    (0.7, 0, 0) are no positions of the group, and the method resolves
    x = 0.1 all the same. *)
Theorem free_variables_resolved_without_full_check :
  passes [var_x] line_expressions line_group cell_10 (1 # 20) <$> line_group
  = [false; false]
  ∧ ∃ final_variables,
      resolve_free_variables [var_x] line_expressions line_group cell_10 (1 # 20)
      = Resolved final_variables
      ∧ final_variables var_x = Some (1 # 10).
Proof.
  split; [by vm_compute|].
  exists (trial_values [var_x] (1 # 10, 0, 0)). split; by vm_compute.
Qed.

(** C3 on the group of the two atoms at (0.1, 0.9, 0) and (0.9, 0.1, 0) of
    a letter with the positions (x, y, 0) and (-x, -y, 0): the values of
    both atoms pass, the smallest tuple with x first is (0.1, 0.9), and the
    method adopts (0.9, 0.1), the smallest with y first. *)
Theorem smallest_tuple_not_adopted :
  passes [var_x; var_y] plane_expressions plane_group cell_10 (1 # 20)
    <$> plane_group = [true; true]
  ∧ ∃ variables_values smallest final_variables,
      match plane_expressions with
      | first_expression :: other_expressions =>
          collect_variables_values [var_x; var_y] first_expression
            other_expressions plane_group cell_10 (1 # 20)
      | [] => None
      end = Some variables_values
      ∧ inversion_variables <$> variables_values
        = [[1 # 10; 9 # 10]; [9 # 10; 1 # 10]]
      ∧ smallest_variables variables_values = Some smallest
      ∧ inversion_variables smallest = [1 # 10; 9 # 10]
      ∧ resolve_free_variables [var_x; var_y] plane_expressions plane_group
                               cell_10 (1 # 20)
        = Resolved final_variables
      ∧ inversion_variables final_variables = [9 # 10; 1 # 10].
Proof.
  split; [by vm_compute|].
  exists [trial_values [var_x; var_y] (1 # 10, 9 # 10, 0);
          trial_values [var_x; var_y] (9 # 10, 1 # 10, 0)],
    (trial_values [var_x; var_y] (1 # 10, 9 # 10, 0)),
    (trial_values [var_x; var_y] (9 # 10, 1 # 10, 0)).
  repeat split; by vm_compute.
Qed.

(** *** The search of a position among periodic copies *)

(** [np.argmin] gives the first index of the least element. *)
Lemma argmin_spec (distances : list Q) (i : nat) (m : Q) :
  argmin distances = Some (i, m) →
  distances !! i = Some m
  ∧ (∀ j d, distances !! j = Some d → m <= d)
  ∧ (∀ j d, (j < i)%nat → distances !! j = Some d → m < d).
Proof.
  revert i m. induction distances as [|d rest IH]; intros i m; simpl; [done|].
  destruct (argmin rest) as [[j m']|] eqn:E.
  - destruct (IH j m' eq_refl) as (Hj & Hle & Hlt).
    destruct (Qlt_le_dec m' d) as [Hm|Hm]; intros [= <- <-].
    + split; [done|]. split.
      * intros [|k] d' Hk; simpl in Hk; [injection Hk as <-; lra|by eapply Hle].
      * intros [|k] d' Hk Hd; simpl in Hd; [injection Hd as <-; lra|].
        apply (Hlt k); [lia|done].
    + split; [done|]. split.
      * intros [|k] d' Hk; simpl in Hk; [injection Hk as <-; lra|].
        specialize (Hle k d' Hk). lra.
      * intros k d' Hk. lia.
  - intros [= <- <-]. destruct rest as [|d' rest]; [|simpl in E; by repeat case_match].
    split; [done|]. split.
    + intros [|k] d' Hk; simpl in Hk; [injection Hk as <-; lra|done].
    + intros k d' Hk. lia.
Qed.

Lemma argmin_None (distances : list Q) : argmin distances = None → distances = [].
Proof.
  destruct distances as [|d rest]; [done|]. simpl. by repeat case_match.
Qed.

(** X14: on a non-empty array [_search_periodic_positions] returns the
    first index of a position that is closest to the target, and only when
    this position is within the accuracy; it returns [None] exactly when the
    accuracy is negative or every position is farther than the accuracy.
    Distances are compared by their squares. *)
Theorem search_periodic_positions_closest target_pos positions cell accuracy :
  positions ≠ [] →
  match _search_periodic_positions target_pos positions cell accuracy with
  | Some min_index =>
      ∃ pos, positions !! min_index = Some pos
        ∧ 0 <= accuracy
        ∧ cartesian_distance2 cell target_pos pos <= accuracy * accuracy
        ∧ (∀ j pos', positions !! j = Some pos' →
             cartesian_distance2 cell target_pos pos
             <= cartesian_distance2 cell target_pos pos')
        ∧ (∀ j pos', (j < min_index)%nat → positions !! j = Some pos' →
             cartesian_distance2 cell target_pos pos
             < cartesian_distance2 cell target_pos pos')
  | None =>
      accuracy < 0
      ∨ ∀ pos', pos' ∈ positions →
          accuracy * accuracy < cartesian_distance2 cell target_pos pos'
  end.
Proof.
  intros Hne. unfold _search_periodic_positions.
  destruct (argmin _) as [[min_index min_distance2]|] eqn:E.
  - apply argmin_spec in E as (Hi & Hle & Hlt).
    apply list_lookup_fmap_Some in Hi as (pos & -> & Hpos).
    destruct (Qle_bool 0 accuracy) eqn:Ha; simpl.
    + apply Qle_bool_iff in Ha.
      destruct (Qle_bool _ (accuracy * accuracy)) eqn:Hd.
      * apply Qle_bool_iff in Hd. exists pos. repeat split; [done..| |].
        -- intros j pos' Hj. apply (Hle j). by rewrite list_lookup_fmap, Hj.
        -- intros j pos' Hlt' Hj. apply (Hlt j); [done|].
           by rewrite list_lookup_fmap, Hj.
      * right. intros pos' [j Hj]%list_elem_of_lookup.
        assert (Hd' : ¬ cartesian_distance2 cell target_pos pos
                        <= accuracy * accuracy).
        { rewrite <- Qle_bool_iff. by rewrite Hd. }
        apply Qnot_le_lt in Hd'. eapply Qlt_le_trans; [exact Hd'|].
        apply (Hle j). by rewrite list_lookup_fmap, Hj.
    + left. apply Qnot_le_lt. rewrite <- Qle_bool_iff. by rewrite Ha.
  - apply argmin_None in E. by destruct positions.
Qed.

Lemma periodic_displacement_cases (d : Q) :
  (1 # 2 < d ∧ periodic_displacement d = d - 1)
  ∨ (d < - (1 # 2) ∧ periodic_displacement d = d + 1)
  ∨ (- (1 # 2) <= d ∧ d <= 1 # 2 ∧ periodic_displacement d = d).
Proof.
  unfold periodic_displacement.
  destruct (Qlt_le_dec (1 # 2) d) as [H1|H1].
  - left. split; [done|]. destruct (Qlt_le_dec (d - 1) _); [lra|done].
  - destruct (Qlt_le_dec d (- (1 # 2))) as [H2|H2].
    + right. left. done.
    + right. right. done.
Qed.

(** The displacement is an odd function. *)
Lemma periodic_displacement_opp (d d' : Q) :
  d' == - d → periodic_displacement d' == - periodic_displacement d.
Proof.
  intros E.
  destruct (periodic_displacement_cases d) as [[H ->]|[[H ->]|(H1 & H2 & ->)]];
    destruct (periodic_displacement_cases d') as [[H' ->]|[[H' ->]|(H1' & H2' & ->)]];
    lra.
Qed.

Lemma cartesian_distance2_sym cell target_pos pos :
  cartesian_distance2 cell target_pos pos == cartesian_distance2 cell pos target_pos.
Proof.
  destruct target_pos as [[t1 t2] t3], pos as [[p1 p2] p3].
  destruct cell as [[[[a b] c] [[d e] f]] [[g h] i]].
  unfold cartesian_distance2.
  rewrite (periodic_displacement_opp (t1 - p1) (p1 - t1)) by ring.
  rewrite (periodic_displacement_opp (t2 - p2) (p2 - t2)) by ring.
  rewrite (periodic_displacement_opp (t3 - p3) (p3 - t3)) by ring.
  ring.
Qed.

Lemma Qle_bool_proper (a a' b : Q) : a == a' → Qle_bool a b = Qle_bool a' b.
Proof.
  intros E. apply eq_true_iff_eq. rewrite !Qle_bool_iff. by rewrite E.
Qed.

Lemma cartesian_distance2_self cell pos : cartesian_distance2 cell pos pos == 0.
Proof.
  destruct pos as [[p1 p2] p3].
  destruct cell as [[[[a b] c] [[d e] f]] [[g h] i]].
  unfold cartesian_distance2.
  assert (E : ∀ p, periodic_displacement (p - p) == 0).
  { intros p.
    destruct (periodic_displacement_cases (p - p))
      as [[H ->]|[[H ->]|(H1 & H2 & ->)]]; lra. }
  rewrite !E. ring.
Qed.

(** X15: the match of two positions that [_search_periodic_positions]
    decides does not depend on which of them is the target, and a position
    matches itself at every accuracy that is not negative. *)
Theorem periodic_match_is_symmetric target_pos pos cell accuracy :
  found_position target_pos pos cell accuracy
  = found_position pos target_pos cell accuracy
  ∧ found_position pos pos cell accuracy = Qle_bool 0 accuracy.
Proof.
  unfold found_position, _search_periodic_positions. simpl. split.
  - rewrite (Qle_bool_proper _ _ _ (cartesian_distance2_sym cell target_pos pos)).
    by destruct (_ && _).
  - rewrite (Qle_bool_proper _ _ _ (cartesian_distance2_self cell pos)).
    assert (E : Qle_bool 0 (accuracy * accuracy) = true).
    { apply Qle_bool_iff. nra. }
    rewrite E. by destruct (Qle_bool 0 accuracy).
Qed.

(** *** The wrapping of positions *)

Lemma Qfloor_unique (x : Q) (z : Z) :
  inject_Z z <= x → x < inject_Z (z + 1) → Qfloor x = z.
Proof.
  intros H1 H2.
  pose proof (Qfloor_le x) as H3. pose proof (Qlt_floor x) as H4.
  assert (H5 : inject_Z z < inject_Z (Qfloor x + 1)) by lra.
  assert (H6 : inject_Z (Qfloor x) < inject_Z (z + 1)) by lra.
  rewrite <- Zlt_Qlt in H5, H6. lia.
Qed.

Lemma Qfloor_shift (x : Q) (k : Z) : Qfloor (x + inject_Z k) = (Qfloor x + k)%Z.
Proof.
  apply Qfloor_unique.
  - rewrite inject_Z_plus. pose proof (Qfloor_le x). lra.
  - replace (Qfloor x + k + 1)%Z with ((Qfloor x + 1) + k)%Z by lia.
    rewrite inject_Z_plus. pose proof (Qlt_floor x). lra.
Qed.

Lemma wrapped_range (c : Q) :
  0 <= c - inject_Z (Qfloor c) ∧ c - inject_Z (Qfloor c) < 1.
Proof.
  pose proof (Qfloor_le c). pose proof (Qlt_floor c) as H1.
  rewrite inject_Z_plus in H1. change (inject_Z 1) with 1 in H1. lra.
Qed.

(** The three cases of the method on a wrapped element [w] of [0, 1). *)
Lemma _wrap_position_cases (precision c : Q) :
  let w := c - inject_Z (Qfloor c) in
  (1 - w < precision ∧ _wrap_position precision c = 0)
  ∨ (w < precision ∧ _wrap_position precision c = 0)
  ∨ (precision <= w ∧ w <= 1 - precision ∧ _wrap_position precision c = w).
Proof.
  intros w. destruct (wrapped_range c) as [H0 H1]. fold w in H0, H1.
  unfold _wrap_position. fold w.
  assert (Ea : Qabs w == w) by (by apply Qabs_pos).
  assert (Eu : Qabs (Qabs w - 1) == 1 - w).
  { rewrite Ea. rewrite Qabs_neg by lra. ring. }
  destruct (Qlt_le_dec (Qabs (Qabs w - 1)) precision) as [Hu|Hu].
  { left. split; [lra|done]. }
  destruct (Qlt_le_dec (Qabs w) precision) as [Hz|Hz].
  { right. left. split; [lra|done]. }
  right. right. split; [lra|]. split; [lra|done].
Qed.

Lemma _wrap_position_proper (precision c c' : Q) :
  c - inject_Z (Qfloor c) == c' - inject_Z (Qfloor c') →
  _wrap_position precision c == _wrap_position precision c'.
Proof.
  intros E.
  destruct (_wrap_position_cases precision c) as [[H ->]|[[H ->]|(H1 & H2 & ->)]];
    destruct (_wrap_position_cases precision c')
      as [[H' ->]|[[H' ->]|(H1' & H2' & ->)]]; lra.
Qed.

(** X16: every element that [_wrap_positions] returns is in [0, 1): it is
    zero, or it is at least [precision] and at most [1 - precision]; it is
    the element given up to a whole number, or zero when the element given
    is nearer than [precision] to a whole number; wrapping it again changes
    nothing, and elements that differ by a whole number are wrapped to the
    same number.  [systax.geometry.get_wrapped_positions] is the same
    function at the precision 1e-5. *)
Theorem wrapped_position_properties (precision c : Q) :
  let w := _wrap_position precision c in
  (0 <= w ∧ w < 1)
  ∧ (w = 0 ∨ precision <= w ∧ w <= 1 - precision)
  ∧ (∃ k : Z, w == c - inject_Z k
              ∨ w = 0 ∧ Qabs (c - inject_Z k) < precision)
  ∧ _wrap_position precision w == w
  ∧ (∀ k : Z, _wrap_position precision (c + inject_Z k) == w)
  ∧ wrap_coordinate c = _wrap_position (1 # 100000) c.
Proof.
  intros w. subst w. destruct (wrapped_range c) as [H0 H1].
  split; [|split; [|split; [|split; [|split]]]].
  - destruct (_wrap_position_cases precision c)
      as [[H ->]|[[H ->]|(Hl & Hu & ->)]]; lra.
  - destruct (_wrap_position_cases precision c)
      as [[H ->]|[[H ->]|(Hl & Hu & ->)]]; [by left..|by right].
  - destruct (_wrap_position_cases precision c)
      as [[H ->]|[[H ->]|(Hl & Hu & ->)]].
    + exists (Qfloor c + 1)%Z. right. split; [done|].
      rewrite inject_Z_plus. change (inject_Z 1) with 1.
      rewrite Qabs_neg by lra. lra.
    + exists (Qfloor c). right. split; [done|]. rewrite Qabs_pos by lra. lra.
    + exists (Qfloor c). by left.
  - destruct (_wrap_position_cases precision c)
      as [[H E]|[[H E]|(Hl & Hu & E)]].
    + rewrite E.
      destruct (_wrap_position_cases precision 0)
        as [[H' ->]|[[H' ->]|(Hl' & Hu' & ->)]]; [done..|].
      by vm_compute.
    + rewrite E.
      destruct (_wrap_position_cases precision 0)
        as [[H' ->]|[[H' ->]|(Hl' & Hu' & ->)]]; [done..|].
      by vm_compute.
    + rewrite E. set (w := c - inject_Z (Qfloor c)) in *.
      assert (Ew : w - inject_Z (Qfloor w) == w).
      { rewrite (Qfloor_unique w 0) by
          (change (inject_Z (0 + 1)) with 1; change (inject_Z 0) with 0; lra).
        change (inject_Z 0) with 0. ring. }
      destruct (_wrap_position_cases precision w)
        as [[H' ->]|[[H' ->]|(Hl' & Hu' & ->)]]; lra.
  - intros k. apply _wrap_position_proper. rewrite Qfloor_shift, inject_Z_plus.
    ring.
  - reflexivity.
Qed.

(** *** The order of [np.lexsort] *)

Lemma Qcompare_cases (a b : Q) :
  (a ?= b) = Lt ∧ a < b ∨ (a ?= b) = Eq ∧ a == b ∨ (a ?= b) = Gt ∧ b < a.
Proof.
  destruct (a ?= b) eqn:E.
  - right. left. split; [done|]. by apply Qeq_alt.
  - left. split; [done|]. by apply Qlt_alt.
  - right. right. split; [done|]. by apply Qgt_alt.
Qed.

Ltac compare_cases a b :=
  let H := fresh "H" in
  destruct (Qcompare_cases a b) as [[-> H]|[[-> H]|[-> H]]].

Lemma key_compare_refl keys (i : nat) : key_compare keys i i = Eq.
Proof.
  induction keys as [|key keys IH]; simpl; [done|].
  compare_cases (nth i key 0) (nth i key 0); [lra|done|lra].
Qed.

Lemma key_compare_antisym keys (i j : nat) :
  key_compare keys j i = CompOpp (key_compare keys i j).
Proof.
  induction keys as [|key keys IH]; simpl; [done|].
  compare_cases (nth i key 0) (nth j key 0);
    compare_cases (nth j key 0) (nth i key 0); simpl; try done; lra.
Qed.

Lemma key_compare_trans keys (a b c : nat) :
  key_compare keys a b = Lt → key_compare keys b c ≠ Gt →
  key_compare keys a c = Lt.
Proof.
  induction keys as [|key keys IH]; simpl; [done|].
  compare_cases (nth a key 0) (nth b key 0);
    compare_cases (nth b key 0) (nth c key 0);
    compare_cases (nth a key 0) (nth c key 0); try done; try lra; auto.
Qed.

Lemma head_insert_index keys (i : nat) (sorted : list nat) :
  head (insert_index keys i sorted)
  = match sorted with
    | [] => Some i
    | j :: _ => if decide (key_compare keys i j = Lt) then Some i else Some j
    end.
Proof.
  destruct sorted as [|j rest]; simpl; [done|].
  destruct (key_compare keys i j); by simpl.
Qed.

(** The first index of [np.lexsort]: a row that no row is before, and the
    first of these rows. *)
Lemma head_sorted_indices keys_reversed (n : nat) :
  ∃ min_index,
    head (foldl (λ sorted i, insert_index keys_reversed i sorted) [] (seq 0 (S n)))
    = Some min_index
    ∧ (min_index < S n)%nat
    ∧ (∀ j, (j < S n)%nat → key_compare keys_reversed min_index j ≠ Gt)
    ∧ (∀ j, (j < min_index)%nat → key_compare keys_reversed min_index j = Lt).
Proof.
  induction n as [|n (h & Hh & Hlt & Hmin & Hfirst)].
  - exists O. simpl. split; [done|]. split; [lia|]. split.
    + intros j Hj. replace j with O by lia. by rewrite key_compare_refl.
    + intros j Hj. lia.
  - rewrite seq_S, foldl_app.
    remember (foldl _ [] (seq 0 (S n))) as sorted eqn:Es. clear Es.
    simpl. rewrite head_insert_index.
    destruct sorted as [|h' rest]; [done|].
    injection Hh as ->.
    destruct (decide (key_compare keys_reversed (S n) h = Lt)) as [Hc|Hc].
    + exists (S n). split; [done|]. split; [lia|]. split.
      * intros j Hj. destruct (decide (j = S n)) as [->|Hne].
        -- by rewrite key_compare_refl.
        -- rewrite (key_compare_trans _ _ h j); [done|done|]. apply Hmin. lia.
      * intros j Hj. apply (key_compare_trans _ _ h j); [done|]. apply Hmin. lia.
    + exists h. split; [done|]. split; [lia|]. split.
      * intros j Hj. destruct (decide (j = S n)) as [->|Hne]; [|apply Hmin; lia].
        rewrite key_compare_antisym. by destruct (key_compare _ (S n) h).
      * done.
Qed.

Lemma head_lexsort (keys : list (list Q)) (n : nat) :
  match keys with [] => O | key :: _ => length key end = S n →
  ∃ min_index,
    head (lexsort keys) = Some min_index
    ∧ (min_index < S n)%nat
    ∧ (∀ j, (j < S n)%nat → key_compare (rev keys) min_index j ≠ Gt)
    ∧ (∀ j, (j < min_index)%nat → key_compare (rev keys) min_index j = Lt).
Proof. unfold lexsort. intros ->. apply head_sorted_indices. Qed.

(** The keys are the columns of the rows: the comparison of two indices is
    that of their rows, read from the last column to the first. *)
Lemma key_compare_rows (rows : list (list Q)) (i j : nat) (row_i row_j : list Q)
    (m : nat) :
  rows !! i = Some row_i → rows !! j = Some row_j →
  (m ≤ length row_i)%nat → (m ≤ length row_j)%nat →
  key_compare (rev ((λ i_var, (λ row, nth i_var row 0) <$> rows) <$> seq 0 m)) i j
  = tuple_compare (rev (take m row_i)) (rev (take m row_j)).
Proof.
  intros Hi Hj. induction m as [|m IH]; intros Hmi Hmj; [done|].
  rewrite seq_S, fmap_app, rev_app_distr. simpl.
  destruct (lookup_lt_is_Some_2 row_i m) as [x Hx]; [lia|].
  destruct (lookup_lt_is_Some_2 row_j m) as [y Hy]; [lia|].
  rewrite (take_S_r _ _ _ Hx), (take_S_r _ _ _ Hy), !rev_app_distr. simpl.
  rewrite !nth_lookup, !list_lookup_fmap, Hi, Hj. simpl.
  rewrite !nth_lookup, Hx, Hy. simpl.
  rewrite IH by lia. done.
Qed.

(** The columns that are given to [np.lexsort]. *)
Definition variable_columns (variables_values : list Values) (n_variables : nat)
  : list (list Q) :=
  (λ i_var, (λ row, nth i_var row 0) <$> (inversion_variables <$> variables_values))
    <$> seq 0 n_variables.

(** The set that is chosen is at the first index of [np.lexsort]. *)
Lemma choose_variables_index (variables_values : list Values) (n_variables : nat) :
  variables_values ≠ [] →
  Forall (λ variable_set,
            length (inversion_variables variable_set) = S n_variables)
         variables_values →
  ∃ min_index final_variables,
    choose_variables variables_values = Some final_variables
    ∧ variables_values !! min_index = Some final_variables
    ∧ (∀ j, (j < length variables_values)%nat →
         key_compare (rev (variable_columns variables_values (S n_variables)))
                     min_index j ≠ Gt)
    ∧ (∀ j, (j < min_index)%nat →
         key_compare (rev (variable_columns variables_values (S n_variables)))
                     min_index j = Lt).
Proof.
  intros Hne Hlen. unfold choose_variables.
  assert (Hn : match inversion_variables <$> variables_values with
               | [] => O
               | row :: _ => length row
               end = S n_variables).
  { destruct Hlen as [|first rest Hfirst _]; [done|]. exact Hfirst. }
  rewrite Hn. fold (variable_columns variables_values (S n_variables)).
  destruct (head_lexsort (variable_columns variables_values (S n_variables))
              (pred (length variables_values)))
    as (min_index & Hhead & Hlt & Hmin & Hties).
  { unfold variable_columns. simpl. rewrite !length_fmap.
    destruct variables_values; [done|]. simpl. lia. }
  assert (Hlen' : length variables_values ≠ O) by (by destruct variables_values).
  assert (Hlt' : (min_index < length variables_values)%nat) by lia.
  destruct (lookup_lt_is_Some_2 variables_values min_index Hlt')
    as [final_variables Hfinal].
  exists min_index, final_variables. rewrite Hhead. simpl.
  split; [done|]. split; [done|]. split; [|done].
  intros j Hj. apply Hmin. lia.
Qed.

(** X17: among several sets of values of the same variables the method
    adopts the one whose values are the smallest when the last variable is
    compared first, then the one before, and the first variable last; of
    sets with the same values it adopts the first. *)
Theorem chosen_variables_smallest_from_last (variables_values : list Values)
    (n_variables : nat) :
  variables_values ≠ [] →
  Forall (λ variable_set,
            length (inversion_variables variable_set) = S n_variables)
         variables_values →
  ∃ min_index final_variables,
    choose_variables variables_values = Some final_variables
    ∧ variables_values !! min_index = Some final_variables
    ∧ (∀ j variable_set, variables_values !! j = Some variable_set →
         tuple_compare (rev (inversion_variables final_variables))
                       (rev (inversion_variables variable_set)) ≠ Gt)
    ∧ (∀ j variable_set, (j < min_index)%nat →
         variables_values !! j = Some variable_set →
         tuple_compare (rev (inversion_variables final_variables))
                       (rev (inversion_variables variable_set)) = Lt).
Proof.
  intros Hne Hlen.
  destruct (choose_variables_index variables_values n_variables Hne Hlen)
    as (min_index & final_variables & Hchoose & Hfinal & Hmin & Hties).
  exists min_index, final_variables. split; [done|]. split; [done|].
  assert (Hcmp : ∀ j variable_set, variables_values !! j = Some variable_set →
            key_compare (rev (variable_columns variables_values (S n_variables)))
                        min_index j
            = tuple_compare (rev (inversion_variables final_variables))
                            (rev (inversion_variables variable_set))).
  { intros j variable_set Hj.
    rewrite Forall_lookup in Hlen.
    pose proof (Hlen _ _ Hfinal) as Hl1. pose proof (Hlen _ _ Hj) as Hl2.
    unfold variable_columns.
    rewrite (key_compare_rows _ min_index j
               (inversion_variables final_variables)
               (inversion_variables variable_set)); [| | |lia|lia].
    - by rewrite !take_ge by lia.
    - by rewrite list_lookup_fmap, Hfinal.
    - by rewrite list_lookup_fmap, Hj. }
  split.
  - intros j variable_set Hj. rewrite <- (Hcmp j _ Hj). apply Hmin.
    by eapply lookup_lt_Some.
  - intros j variable_set Hlt Hj. rewrite <- (Hcmp j _ Hj). by apply Hties.
Qed.

(** *** The resolution of a group *)

Lemma trial_values_loop (pos : Vector) (variables_present : list FreeVariable)
    (values : Values) (variable : FreeVariable) :
  foldl (λ values variable, set_value values variable (component pos variable))
        values variables_present variable
  = if decide (variable ∈ variables_present) then Some (component pos variable)
    else values variable.
Proof.
  revert values. induction variables_present as [|v l IH]; intros values; simpl.
  - destruct (decide (variable ∈ [])) as [Hin|Hin];
      [by apply not_elem_of_nil in Hin|done].
  - rewrite IH. destruct (decide (variable ∈ l)) as [Hin|Hin].
    + rewrite decide_True; [done|by right].
    + unfold set_value. destruct (decide (variable = v)) as [->|Hne].
      * rewrite decide_True; [done|by left].
      * rewrite decide_False; [done|]. by intros [->|?]%elem_of_cons.
Qed.

(** The values of an atom: its coordinates at the variables present. *)
Lemma trial_values_spec variables_present (pos : Vector) (variable : FreeVariable) :
  trial_values variables_present pos variable
  = if decide (variable ∈ variables_present) then Some (component pos variable)
    else None.
Proof. unfold trial_values. by rewrite trial_values_loop. Qed.

Lemma trial_values_length variables_present (pos : Vector) :
  variables_present ≠ [] →
  ∃ n, ∀ pos', length (inversion_variables (trial_values variables_present pos'))
               = S n.
Proof.
  intros Hne.
  exists (pred (length (inversion_variables (trial_values variables_present pos)))).
  intros pos'. unfold inversion_variables. rewrite !trial_values_spec.
  destruct variables_present as [|v l]; [done|].
  assert (Hv : v ∈ v :: l) by by left.
  destruct v; rewrite ?(decide_True _ _ Hv); repeat case_decide; simpl; try lia;
    by exfalso.
Qed.

(** X18: when every expression of the letter can be evaluated with the
    values of every atom, the resolution of a group is decided by the first
    expression alone: the error is raised exactly when no atom of the group
    is at the position that the first expression gives with the values of
    this atom, and otherwise the values adopted are those of such an atom. *)
Theorem resolution_decided_by_first_expression variables_present
    first_expression other_expressions group_positions cell precision :
  variables_present ≠ [] →
  Forall (λ pos,
            Forall (λ e, is_Some (evaluate variables_present
                                           (trial_values variables_present pos) e))
                   (first_expression :: other_expressions)) group_positions →
  let accepted :=
    List.filter (first_expression_ok variables_present first_expression cell
                                     precision) group_positions in
  match resolve_free_variables variables_present
          (first_expression :: other_expressions) group_positions cell precision
  with
  | Resolved final_variables =>
      ∃ pos, pos ∈ accepted ∧ final_variables = trial_values variables_present pos
  | ValueError_not_resolved => accepted = []
  | EvalError | IndexError_no_expression => False
  end.
Proof.
  intros Hne Hall accepted. unfold resolve_free_variables.
  rewrite (collect_variables_values_first_only _ _ _ _ _ _ Hall). fold accepted.
  destruct accepted as [|pos1 [|pos2 rest]] eqn:E; simpl; [done| |].
  - exists pos1. split; [by left|done].
  - set (variables_values := _ :: _ :: _).
    destruct (trial_values_length variables_present pos1 Hne) as [n Hn].
    destruct (choose_variables_index variables_values n)
      as (min_index & final_variables & -> & Hfinal & _); [done| |].
    { change variables_values
        with (trial_values variables_present <$> pos1 :: pos2 :: rest).
      apply Forall_fmap, Forall_forall. intros pos _. apply Hn. }
    change variables_values
      with (trial_values variables_present <$> pos1 :: pos2 :: rest) in Hfinal.
    apply list_lookup_fmap_Some in Hfinal as (pos & -> & Hpos).
    exists pos. split; [|done]. by eapply list_elem_of_lookup_2.
Qed.

(** *** The statements above on the two groups *)

Definition plane_values : list Values :=
  trial_values [var_x; var_y] <$> plane_group.

Lemma search_periodic_positions_closest_witness :
  line_group ≠ []
  ∧ match _search_periodic_positions (3 # 10, 0, 0) line_group cell_10 (1 # 20)
    with
    | Some min_index =>
        ∃ pos, line_group !! min_index = Some pos
          ∧ 0 <= 1 # 20
          ∧ cartesian_distance2 cell_10 (3 # 10, 0, 0) pos <= (1 # 20) * (1 # 20)
          ∧ (∀ j pos', line_group !! j = Some pos' →
               cartesian_distance2 cell_10 (3 # 10, 0, 0) pos
               <= cartesian_distance2 cell_10 (3 # 10, 0, 0) pos')
          ∧ (∀ j pos', (j < min_index)%nat → line_group !! j = Some pos' →
               cartesian_distance2 cell_10 (3 # 10, 0, 0) pos
               < cartesian_distance2 cell_10 (3 # 10, 0, 0) pos')
    | None =>
        1 # 20 < 0
        ∨ ∀ pos', pos' ∈ line_group →
            (1 # 20) * (1 # 20) < cartesian_distance2 cell_10 (3 # 10, 0, 0) pos'
    end.
Proof.
  assert (Hne : line_group ≠ []) by discriminate.
  split; [exact Hne|].
  exact (search_periodic_positions_closest (3 # 10, 0, 0) line_group cell_10
           (1 # 20) Hne).
Defined.

Example search_periodic_positions_line :
  _search_periodic_positions (3 # 10, 0, 0) line_group cell_10 (1 # 20) = Some 1%nat
  ∧ _search_periodic_positions (19 # 20, 0, 0) line_group cell_10 1 = None
  ∧ _search_periodic_positions (19 # 20, 0, 0) line_group cell_10 2 = Some 0%nat.
Proof. repeat split; by vm_compute. Qed.

Lemma chosen_variables_smallest_from_last_witness :
  plane_values ≠ []
  ∧ Forall (λ variable_set, length (inversion_variables variable_set) = 2%nat)
           plane_values
  ∧ ∃ min_index final_variables,
      choose_variables plane_values = Some final_variables
      ∧ plane_values !! min_index = Some final_variables
      ∧ (∀ j variable_set, plane_values !! j = Some variable_set →
           tuple_compare (rev (inversion_variables final_variables))
                         (rev (inversion_variables variable_set)) ≠ Gt)
      ∧ (∀ j variable_set, (j < min_index)%nat →
           plane_values !! j = Some variable_set →
           tuple_compare (rev (inversion_variables final_variables))
                         (rev (inversion_variables variable_set)) = Lt).
Proof.
  assert (Hne : plane_values ≠ []) by discriminate.
  assert (Hlen : Forall (λ variable_set,
                           length (inversion_variables variable_set) = 2%nat)
                        plane_values) by (repeat constructor).
  split; [exact Hne|]. split; [exact Hlen|].
  exact (chosen_variables_smallest_from_last plane_values 1 Hne Hlen).
Defined.

Lemma resolution_decided_by_first_expression_witness :
  [var_x] ≠ []
  ∧ Forall (λ pos,
              Forall (λ e, is_Some (evaluate [var_x] (trial_values [var_x] pos) e))
                     line_expressions) line_group
  ∧ match resolve_free_variables [var_x] line_expressions line_group cell_10
            (1 # 20) with
    | Resolved final_variables =>
        ∃ pos,
          pos ∈ List.filter (first_expression_ok [var_x] (Name var_x, Num 0, Num 0)
                                                 cell_10 (1 # 20)) line_group
          ∧ final_variables = trial_values [var_x] pos
    | ValueError_not_resolved =>
        List.filter (first_expression_ok [var_x] (Name var_x, Num 0, Num 0)
                                         cell_10 (1 # 20)) line_group = []
    | EvalError | IndexError_no_expression => False
    end.
Proof.
  assert (Hne : [var_x] ≠ []) by discriminate.
  assert (Hall : Forall (λ pos,
                    Forall (λ e, is_Some (evaluate [var_x]
                                            (trial_values [var_x] pos) e))
                           line_expressions) line_group).
  { repeat constructor; by eexists. }
  split; [exact Hne|]. split; [exact Hall|].
  exact (resolution_decided_by_first_expression [var_x] (Name var_x, Num 0, Num 0)
           [(UnaryOp_USub (Name var_x), Num 0, Num 0)] line_group cell_10 (1 # 20)
           Hne Hall).
Defined.

End FreeVariablesProperties.

(** ** The choice of the ground state *)

Section GroundStateProperties.
Context {Matrix : Type}.
Variable identity_matrix : Matrix.
Implicit Types (r : @Representation Matrix) (key : Letter * nat).
Implicit Types (candidates representations : list (@Representation Matrix)).
Implicit Types (atoms : list (Letter * nat)).

#[local] Instance letter_le_total : Total letter_le.
Proof. intros a b. unfold letter_le. lia. Qed.

#[local] Instance letter_le_trans : Transitive letter_le.
Proof. intros a b c. unfold letter_le. lia. Qed.

#[local] Instance nat_le_total : Total Nat.le.
Proof. intros a b. lia. Qed.

(** *** The loop body is the discarding of the specification *)

Lemma n_atoms_max_loop key representations (m : nat) :
  foldl (λ n_atoms_max r,
           match wyckoff_positions r !! key with
           | Some i_n => if n_atoms_max <? i_n then i_n else n_atoms_max
           | None => n_atoms_max
           end) m representations
  = m `max` max_list ((λ r, atom_count r key) <$> representations).
Proof.
  revert m. induction representations as [|r l IH]; intros m; csimpl; [lia|].
  rewrite IH. set (X := max_list _).
  assert (Hc : atom_count r key = default 0 (wyckoff_positions r !! key)) by done.
  rewrite Hc. destruct (wyckoff_positions r !! key) as [n|]; simpl; [|lia].
  destruct (Nat.ltb_spec m n); lia.
Qed.

Lemma n_atoms_max_spec key representations :
  n_atoms_max key representations = max_atom_count key representations.
Proof. unfold n_atoms_max. by rewrite n_atoms_max_loop. Qed.

Lemma atom_count_le_max key representations r :
  r ∈ representations → atom_count r key ≤ max_atom_count key representations.
Proof.
  intros Hin. unfold max_atom_count.
  induction Hin as [r l|r r' l Hin IH]; csimpl; lia.
Qed.

Lemma filter_ext_in {A} (f g : A → bool) (l : list A) :
  (∀ x, x ∈ l → f x = g x) → List.filter f l = List.filter g l.
Proof.
  induction l as [|a l IH]; intros H; simpl; [done|].
  rewrite (H a) by constructor. rewrite IH; [done|].
  intros x Hx. apply H. by constructor.
Qed.

Lemma filter_all {A} (f : A → bool) (l : list A) :
  (∀ x, x ∈ l → f x = true) → List.filter f l = l.
Proof.
  induction l as [|a l IH]; intros H; simpl; [done|].
  rewrite (H a) by constructor. rewrite IH; [done|].
  intros x Hx. apply H. by constructor.
Qed.

Lemma narrow_discard key representations :
  narrow key representations = discard_below_max key representations.
Proof.
  unfold narrow, discard_below_max. rewrite n_atoms_max_spec.
  set (m := max_atom_count key representations).
  destruct (Nat.eqb_spec m 0) as [E|E]; simpl.
  - symmetry. apply filter_all. intros r Hr. apply Nat.eqb_eq.
    pose proof (atom_count_le_max key representations r Hr). fold m in H. lia.
  - apply filter_ext_in. intros r _. unfold atom_count.
    destruct (wyckoff_positions r !! key) as [n|] eqn:En.
    + change (default 0 (Some n)) with n.
      case_bool_decide as Hd; destruct (Nat.eqb_spec n m) as [Hm|Hm];
        simplify_eq; done.
    + change (default 0 None) with 0.
      case_bool_decide as Hd; [done|].
      symmetry. apply Nat.eqb_neq. lia.
Qed.

Lemma discard_singleton key r : discard_below_max key [r] = [r].
Proof.
  unfold discard_below_max, max_atom_count. simpl.
  rewrite Nat.max_0_r, Nat.eqb_refl. done.
Qed.

Lemma discard_length_1 key representations :
  length representations = 1 →
  discard_below_max key representations = representations.
Proof.
  destruct representations as [|r [|]]; try done. intros _.
  apply discard_singleton.
Qed.

Lemma discard_subset key representations r :
  r ∈ discard_below_max key representations → r ∈ representations.
Proof.
  unfold discard_below_max. rewrite !list_elem_of_In, filter_In. tauto.
Qed.

Lemma discard_count key representations r :
  r ∈ discard_below_max key representations →
  atom_count r key = max_atom_count key representations.
Proof.
  unfold discard_below_max. rewrite !list_elem_of_In, filter_In.
  intros [_ H]. by apply Nat.eqb_eq.
Qed.

(** *** The two loops are the narrowing of the specification *)

(** One loop over all the keys, without the test of [found]. *)
Definition flat_loop (keys : list (Letter * nat))
    (state : list (@Representation Matrix) * bool) :=
  foldl (λ (state : list Representation * bool) key,
           let '(representations, found) := state in
           let representations := discard_below_max key representations in
           if length representations =? 1 then (representations, true)
           else (representations, found)) state keys.

Lemma flat_loop_found keys representations :
  length representations = 1 →
  flat_loop keys (representations, true) = (representations, true).
Proof.
  intros Hlen. induction keys as [|key keys IH]; simpl; [done|].
  rewrite (discard_length_1 _ _ Hlen), Hlen. simpl. exact IH.
Qed.

Lemma flat_loop_app keys1 keys2 state :
  flat_loop (keys1 ++ keys2) state = flat_loop keys2 (flat_loop keys1 state).
Proof. unfold flat_loop. apply foldl_app. Qed.

Lemma flat_loop_invariant keys representations found :
  (found = true → length representations = 1) →
  (flat_loop keys (representations, found)).2 = true →
  length (flat_loop keys (representations, found)).1 = 1.
Proof.
  revert representations found.
  induction keys as [|key keys IH]; intros reps found Hinv; simpl.
  - exact Hinv.
  - destruct (Nat.eqb_spec (length (discard_below_max key reps)) 1) as [E|E].
    + by apply IH.
    + apply IH. intros ->. exfalso. apply E.
      rewrite discard_length_1; auto.
Qed.

Lemma loop_z_flat w atomic_numbers state :
  loop_z w atomic_numbers state = flat_loop (pair w <$> atomic_numbers) state.
Proof.
  unfold loop_z, flat_loop. revert state.
  induction atomic_numbers as [|z zs IH]; intros [reps found]; simpl; [done|].
  rewrite narrow_discard. apply IH.
Qed.

Lemma keys_in_order_cons w wyckoff_letters atomic_numbers :
  keys_in_order (w :: wyckoff_letters) atomic_numbers
  = (pair w <$> atomic_numbers) ++ keys_in_order wyckoff_letters atomic_numbers.
Proof.
  unfold keys_in_order. csimpl. f_equal.
Qed.

Lemma loop_w_flat wyckoff_letters atomic_numbers representations found :
  (found = true → length representations = 1) →
  loop_w wyckoff_letters atomic_numbers (representations, found)
  = flat_loop (keys_in_order wyckoff_letters atomic_numbers)
              (representations, found).
Proof.
  revert representations found.
  induction wyckoff_letters as [|w ws IH]; intros reps found Hinv; [done|].
  rewrite keys_in_order_cons, flat_loop_app.
  change (loop_w (w :: ws) atomic_numbers (reps, found))
    with (loop_w ws atomic_numbers
            (if found then (reps, found)
             else loop_z w atomic_numbers (reps, found))).
  destruct found.
  - rewrite (flat_loop_found _ _ (Hinv eq_refl)). by apply IH.
  - rewrite loop_z_flat.
    pose proof (flat_loop_invariant (pair w <$> atomic_numbers) reps false) as Hf.
    destruct (flat_loop (pair w <$> atomic_numbers) (reps, false)) as [reps' found'].
    apply IH. intros ->. by apply Hf.
Qed.

Lemma flat_loop_narrow_spec keys representations :
  (flat_loop keys (representations, false)).1 = narrow_spec keys representations.
Proof.
  revert representations. induction keys as [|key keys IH]; intros reps; [done|].
  simpl.
  destruct (Nat.eqb_spec (length (discard_below_max key reps)) 1) as [E|E].
  - by rewrite (flat_loop_found _ _ E).
  - apply IH.
Qed.

(** The representations after the two loops. *)
Lemma loops_narrow_spec wyckoff_letters atomic_numbers representations :
  (loop_w wyckoff_letters atomic_numbers (representations, false)).1
  = narrow_spec (keys_in_order wyckoff_letters atomic_numbers) representations.
Proof. rewrite loop_w_flat by done. apply flat_loop_narrow_spec. Qed.

(** *** The survivors of a complete narrowing agree on every key *)

Lemma narrow_spec_subset keys candidates r :
  r ∈ narrow_spec keys candidates → r ∈ candidates.
Proof.
  revert candidates. induction keys as [|key keys IH]; intros cs; simpl; [done|].
  destruct (length (discard_below_max key cs) =? 1).
  - apply discard_subset.
  - intros H. by apply (discard_subset key), IH.
Qed.

Lemma narrow_spec_agree keys candidates key r1 r2 :
  length (narrow_spec keys candidates) ≠ 1 →
  key ∈ keys →
  r1 ∈ narrow_spec keys candidates → r2 ∈ narrow_spec keys candidates →
  atom_count r1 key = atom_count r2 key.
Proof.
  revert candidates. induction keys as [|k keys IH]; intros cs Hlen Hkey.
  { by apply elem_of_nil in Hkey. }
  simpl in *.
  destruct (Nat.eqb_spec (length (discard_below_max k cs)) 1) as [E|E]; [done|].
  intros H1 H2. apply elem_of_cons in Hkey as [->|Hkey].
  - apply narrow_spec_subset in H1, H2.
    by rewrite (discard_count _ _ _ H1), (discard_count _ _ _ H2).
  - by apply (IH (discard_below_max k cs)).
Qed.

(** *** The counts of a representation *)

Lemma count_positions_loop (perm : gmap Letter Letter) atoms
    (acc : gmap (Letter * nat) nat) :
  let result :=
    foldl (λ wyckoff_positions '(old_w, z),
             match perm !! old_w with
             | Some new_w =>
                 match wyckoff_positions !! (new_w, z) with
                 | None => <[(new_w, z) := 1]> wyckoff_positions
                 | Some old_n_atoms =>
                     <[(new_w, z) := old_n_atoms + 1]> wyckoff_positions
                 end
             | None => wyckoff_positions
             end) acc atoms in
  ∀ key n, result !! key = Some n →
    1 ≤ n ∨ acc !! key = Some n.
Proof.
  revert acc. induction atoms as [|[old_w z] atoms IH]; intros acc; simpl.
  - intros key n H. by right.
  - intros key n H. apply IH in H as [H|H]; [by left|].
    destruct (perm !! old_w) as [new_w|]; [|by right].
    destruct (acc !! (new_w, z)) as [old|] eqn:E.
    + destruct (decide (key = (new_w, z))) as [->|Hne].
      * rewrite lookup_insert_eq in H. left. simplify_eq. lia.
      * rewrite lookup_insert_ne in H by done. by right.
    + destruct (decide (key = (new_w, z))) as [->|Hne].
      * rewrite lookup_insert_eq in H. left. simplify_eq. lia.
      * rewrite lookup_insert_ne in H by done. by right.
Qed.

(** A count that is there is at least one. *)
Lemma count_positions_positive (perm : gmap Letter Letter) atoms key n :
  count_positions perm atoms !! key = Some n → 1 ≤ n.
Proof.
  intros H. apply count_positions_loop in H as [H|H]; [done|].
  by rewrite lookup_empty in H.
Qed.

Lemma count_positions_keys_loop (perm : gmap Letter Letter) atoms
    (acc : gmap (Letter * nat) nat) key :
  is_Some (foldl (λ wyckoff_positions '(old_w, z),
             match perm !! old_w with
             | Some new_w =>
                 match wyckoff_positions !! (new_w, z) with
                 | None => <[(new_w, z) := 1]> wyckoff_positions
                 | Some old_n_atoms =>
                     <[(new_w, z) := old_n_atoms + 1]> wyckoff_positions
                 end
             | None => wyckoff_positions
             end) acc atoms !! key) →
  is_Some (acc !! key)
  ∨ ∃ old_w, (old_w, key.2) ∈ atoms ∧ perm !! old_w = Some key.1.
Proof.
  revert acc. induction atoms as [|[old_w z] atoms IH]; intros acc; simpl.
  - by left.
  - intros H. apply IH in H as [H|(o & Hin & Hp)].
    2:{ right. exists o. split; [by constructor|done]. }
    destruct (perm !! old_w) as [new_w|] eqn:Ep; [|by left].
    destruct (decide (key = (new_w, z))) as [->|Hne].
    + right. exists old_w. split; [constructor|done].
    + left. destruct (acc !! (new_w, z)); by rewrite lookup_insert_ne in H.
Qed.

(** A key of the counts is a new letter of the permutation with the atomic
    number of an atom. *)
Lemma count_positions_keys (perm : gmap Letter Letter) atoms key :
  is_Some (count_positions perm atoms !! key) →
  ∃ old_w, (old_w, key.2) ∈ atoms ∧ perm !! old_w = Some key.1.
Proof.
  intros H. apply count_positions_keys_loop in H as [H|H]; [|done].
  rewrite lookup_empty in H. by destruct H.
Qed.

(** *** The letters and the atomic numbers in order *)

Lemma letters_loop (transforms : list (@Transform Matrix)) (acc : gset Letter)
    (w : Letter) :
  w ∈ foldl (λ letters transform,
               foldl (λ letters '(orig, new), letters ∪ {[new]}) letters
                     (map_to_list (permutations transform)))
            acc transforms
  ↔ w ∈ acc
    ∨ ∃ transform old_w,
        transform ∈ transforms ∧ permutations transform !! old_w = Some w.
Proof.
  revert acc. induction transforms as [|t ts IH]; intros acc; simpl.
  - split; [by left|]. intros [H|(t & o & H & _)]; [done|].
    by apply elem_of_nil in H.
  - rewrite IH. clear IH.
    assert (Hinner : ∀ (l : list (Letter * Letter)) (a : gset Letter),
      w ∈ foldl (λ letters '(orig, new), letters ∪ {[new]}) a l
      ↔ w ∈ a ∨ ∃ o, (o, w) ∈ l).
    { induction l as [|[o n] l IHl]; intros a; simpl.
      - split; [by left|]. intros [H|[o H]]; [done|]. by apply elem_of_nil in H.
      - rewrite IHl, elem_of_union, elem_of_singleton. split.
        + intros [[H| ->]|[o' H]]; [by left| |].
          * right. exists o. constructor.
          * right. exists o'. by constructor.
        + intros [H|[o' H]]; [by left; left|].
          apply elem_of_cons in H as [[= -> ->]|H]; [by left; right|].
          right. by exists o'. }
    rewrite Hinner. split.
    + intros [[H|[o H]]|(t' & o & Ht & Hp)].
      * by left.
      * right. exists t, o. split; [constructor|].
        by apply elem_of_map_to_list.
      * right. exists t', o. split; [by constructor|done].
    + intros [H|(t' & o & Ht & Hp)]; [by left; left|].
      apply elem_of_cons in Ht as [->|Ht].
      * left. right. exists o. by apply elem_of_map_to_list.
      * right. by exists t', o.
Qed.

(** The letters the loops go through: every new letter of a permutation,
    once, in the order of the codes. *)
Lemma all_wyckoff_letters_spec (transforms : list (@Transform Matrix)) :
  StronglySorted letter_le (all_wyckoff_letters transforms)
  ∧ NoDup (all_wyckoff_letters transforms)
  ∧ ∀ w, w ∈ all_wyckoff_letters transforms
         ↔ ∃ transform old_w,
             transform ∈ transforms ∧ permutations transform !! old_w = Some w.
Proof.
  unfold all_wyckoff_letters. split; [|split].
  - apply StronglySorted_merge_sort; apply _.
  - rewrite merge_sort_Permutation. apply NoDup_elements.
  - intros w. rewrite merge_sort_Permutation, elem_of_elements, letters_loop.
    split; [intros [H|H]; [done|exact H]|by right].
Qed.

(** The atomic numbers of the system, once, ascending. *)
Lemma all_atomic_numbers_spec atoms :
  StronglySorted Nat.le (all_atomic_numbers atoms)
  ∧ NoDup (all_atomic_numbers atoms)
  ∧ ∀ z, z ∈ all_atomic_numbers atoms ↔ ∃ w, (w, z) ∈ atoms.
Proof.
  unfold all_atomic_numbers. split; [|split].
  - apply StronglySorted_merge_sort; apply _.
  - rewrite merge_sort_Permutation. apply NoDup_elements.
  - intros z. rewrite merge_sort_Permutation, elem_of_elements,
      elem_of_list_to_set, list_elem_of_fmap. split.
    + intros ([w z'] & -> & H). by exists w.
    + intros [w H]. by exists (w, z).
Qed.

Lemma elem_of_keys_in_order wyckoff_letters (atomic_numbers : list nat) key :
  key ∈ keys_in_order wyckoff_letters atomic_numbers
  ↔ key.1 ∈ wyckoff_letters ∧ key.2 ∈ atomic_numbers.
Proof.
  unfold keys_in_order. rewrite list_elem_of_bind. split.
  - intros (w & Hz & Hw). apply list_elem_of_bind in Hz as (z & Hk & Hz).
    apply list_elem_of_singleton in Hk as ->. done.
  - intros [Hw Hz]. exists key.1. split; [|done].
    apply list_elem_of_bind. exists key.2. split; [|done].
    destruct key. simpl. constructor.
Qed.

(** *** The comparison of the survivors *)

Lemma compare_positions_same (m : gmap (Letter * nat) nat) :
  compare_positions m m = None.
Proof.
  unfold compare_positions. rewrite Nat.eqb_refl. simpl.
  assert (H : ∀ key n, (key, n) ∈ map_to_list m → m !! key = Some n).
  { intros key n. apply elem_of_map_to_list. }
  induction (map_to_list m) as [|[key n] l IH]; simpl; [done|].
  rewrite (H key n) by constructor. rewrite Nat.eqb_refl. simpl.
  apply IH. intros k' n' Hin. apply H. by constructor.
Qed.

Lemma check_equal_same first (rest : list (@Representation Matrix)) :
  Forall (same_counts first) rest → check_equal (first :: rest) = None.
Proof.
  intros Hall. unfold check_equal.
  destruct (1 <? length (first :: rest)); [|done].
  induction Hall as [|r l Hr _ IH]; simpl; [done|].
  unfold same_counts in Hr. rewrite <- Hr, compare_positions_same. exact IH.
Qed.

Lemma max_list_attained (l : list nat) : l ≠ [] → max_list l ∈ l.
Proof.
  induction l as [|a l IH]; [done|]. intros _. simpl.
  destruct l as [|b l'].
  - simpl. rewrite Nat.max_0_r. constructor.
  - destruct (Nat.max_spec a (max_list (b :: l'))) as [[_ ->]|[_ ->]].
    + constructor. by apply IH.
    + constructor.
Qed.

Lemma discard_nonempty key candidates :
  candidates ≠ [] → discard_below_max key candidates ≠ [].
Proof.
  intros Hne.
  assert (Hmax : max_atom_count key candidates
                 ∈ (λ r, atom_count r key) <$> candidates).
  { apply max_list_attained. by destruct candidates. }
  apply list_elem_of_fmap in Hmax as (r & Hr & Hin).
  assert (Hd : r ∈ discard_below_max key candidates).
  { unfold discard_below_max. apply list_elem_of_In, filter_In.
    split; [by apply list_elem_of_In|]. by apply Nat.eqb_eq. }
  intros E. rewrite E in Hd. by apply elem_of_nil in Hd.
Qed.

Lemma narrow_spec_nonempty keys candidates :
  candidates ≠ [] → narrow_spec keys candidates ≠ [].
Proof.
  revert candidates. induction keys as [|key keys IH]; intros cs Hne; [done|].
  simpl. pose proof (discard_nonempty key cs Hne) as Hd.
  destruct (length (discard_below_max key cs) =? 1); [done|]. by apply IH.
Qed.

Lemma narrow_spec_singleton keys r : narrow_spec keys [r] = [r].
Proof.
  destruct keys as [|key keys]; [done|]. simpl.
  by rewrite discard_singleton.
Qed.

(** The survivors of the narrowing over all the keys have the same counts:
    the comparison after the loops cannot fail. *)
Lemma survivors_same_counts atoms (transforms : list (@Transform Matrix)) r1 r2 :
  let survivors :=
    narrow_spec (keys_in_order (all_wyckoff_letters transforms)
                               (all_atomic_numbers atoms))
                (representation atoms <$> transforms) in
  length survivors ≠ 1 → r1 ∈ survivors → r2 ∈ survivors → same_counts r1 r2.
Proof.
  intros survivors Hlen H1 H2. unfold same_counts. apply map_eq. intros key.
  pose proof (narrow_spec_subset _ _ _ H1) as Hc1.
  pose proof (narrow_spec_subset _ _ _ H2) as Hc2.
  apply list_elem_of_fmap in Hc1 as (t1 & -> & Ht1).
  apply list_elem_of_fmap in Hc2 as (t2 & -> & Ht2).
  simpl.
  assert (Hkeys : ∀ t, t ∈ transforms →
            is_Some (count_positions (permutations t) atoms !! key) →
            key ∈ keys_in_order (all_wyckoff_letters transforms)
                                (all_atomic_numbers atoms)).
  { intros t Ht (old_w & Hin & Hp)%count_positions_keys.
    apply elem_of_keys_in_order. split.
    - apply all_wyckoff_letters_spec. by exists t, old_w.
    - apply all_atomic_numbers_spec. by exists old_w. }
  destruct (decide (key ∈ keys_in_order (all_wyckoff_letters transforms)
                                        (all_atomic_numbers atoms)))
    as [Hin|Hnin].
  - pose proof (narrow_spec_agree _ _ key _ _ Hlen Hin H1 H2) as Hagree.
    unfold atom_count in Hagree. simpl in Hagree.
    destruct (count_positions (permutations t1) atoms !! key) as [n1|] eqn:E1,
             (count_positions (permutations t2) atoms !! key) as [n2|] eqn:E2;
      simpl in Hagree; try done.
    + by subst.
    + apply count_positions_positive in E1. lia.
    + apply count_positions_positive in E2. lia.
  - destruct (count_positions (permutations t1) atoms !! key) as [n1|] eqn:E1.
    { exfalso. apply Hnin, (Hkeys t1); [done|]. rewrite E1. eauto. }
    destruct (count_positions (permutations t2) atoms !! key) as [n2|] eqn:E2.
    { exfalso. apply Hnin, (Hkeys t2); [done|]. rewrite E2. eauto. }
    done.
Qed.

Lemma transform_list_head atoms proper_rigid_trans improper_rigid_trans is_flat :
  ∃ rest,
    transform_list identity_matrix atoms proper_rigid_trans improper_rigid_trans
                   is_flat
    = identity identity_matrix atoms :: rest.
Proof.
  unfold transform_list.
  destruct proper_rigid_trans as [p|], is_flat, improper_rigid_trans as [i|];
    simpl; eauto.
Qed.

(** C5: the representation the method chooses is the one of the
    specification: the candidates are narrowed key by key, the letters in
    alphabetical order and within a letter the atomic numbers ascending,
    each key keeping the candidates with the maximum atom count, until
    exactly one candidate remains; when several remain after all keys, they
    have identical counts (otherwise the error is raised), and the first is
    chosen.  On the candidates the method builds the survivors always have
    identical counts, so that the method returns a representation. *)
Theorem best_representation_is_narrowed_first atoms proper_rigid_trans
    improper_rigid_trans is_flat :
  let transforms :=
    transform_list identity_matrix atoms proper_rigid_trans improper_rigid_trans
                   is_flat in
  let wyckoff_letters := all_wyckoff_letters transforms in
  let atomic_numbers := all_atomic_numbers atoms in
  best_representation identity_matrix atoms proper_rigid_trans
                      improper_rigid_trans is_flat
  = ground_state_spec wyckoff_letters atomic_numbers
                      (representation atoms <$> transforms)
  ∧ (StronglySorted letter_le wyckoff_letters ∧ NoDup wyckoff_letters)
  ∧ (StronglySorted Nat.le atomic_numbers ∧ NoDup atomic_numbers)
  ∧ ∃ best,
      best_representation identity_matrix atoms proper_rigid_trans
                          improper_rigid_trans is_flat = inr best
      ∧ head (narrow_spec (keys_in_order wyckoff_letters atomic_numbers)
                          (representation atoms <$> transforms)) = Some best.
Proof.
  intros transforms wyckoff_letters atomic_numbers.
  destruct (all_wyckoff_letters_spec transforms) as (Hws & Hwn & _).
  destruct (all_atomic_numbers_spec atoms) as (Hzs & Hzn & _).
  assert (Hmain :
    ∃ best,
      best_representation identity_matrix atoms proper_rigid_trans
                          improper_rigid_trans is_flat = inr best
      ∧ ground_state_spec wyckoff_letters atomic_numbers
                          (representation atoms <$> transforms) = inr best
      ∧ head (narrow_spec (keys_in_order wyckoff_letters atomic_numbers)
                          (representation atoms <$> transforms)) = Some best).
  { unfold best_representation, ground_state_spec.
    fold transforms. fold wyckoff_letters. fold atomic_numbers.
    destruct (transform_list_head atoms proper_rigid_trans improper_rigid_trans
                                  is_flat) as [rest Hhead].
    fold transforms in Hhead.
    destruct (Nat.eqb_spec (length transforms) 1) as [Hone|Hmany].
    - assert (E : transforms = [identity identity_matrix atoms]).
      { rewrite Hhead in Hone |- *. by destruct rest. }
      rewrite E. csimpl. rewrite narrow_spec_singleton.
      exists (representation atoms (identity identity_matrix atoms)).
      by rewrite bool_decide_eq_true_2.
    - pose proof (loops_narrow_spec wyckoff_letters atomic_numbers
                    (representation atoms <$> transforms)) as Hloops.
      destruct (loop_w wyckoff_letters atomic_numbers
                  (representation atoms <$> transforms, false))
        as [representations found].
      simpl in Hloops. subst representations.
      pose proof (narrow_spec_nonempty
                    (keys_in_order wyckoff_letters atomic_numbers)
                    (representation atoms <$> transforms)) as Hne.
      pose proof (λ r1 r2, survivors_same_counts atoms transforms r1 r2) as Hsame.
      simpl in Hsame. fold wyckoff_letters atomic_numbers in Hsame.
      destruct (narrow_spec (keys_in_order wyckoff_letters atomic_numbers)
                            (representation atoms <$> transforms))
        as [|first others] eqn:Es.
      { exfalso. apply Hne; [|done]. rewrite Hhead. done. }
      assert (Hall : Forall (same_counts first) others).
      { destruct others as [|second others]; [constructor|].
        apply Forall_forall. intros r Hr. apply Hsame; [done|constructor|].
        by constructor. }
      rewrite (check_equal_same _ _ Hall), bool_decide_eq_true_2 by done.
      by exists first. }
  destruct Hmain as (best & Hcode & Hspec & Hhd).
  split; [by rewrite Hcode, Hspec|]. split; [done|]. split; [done|].
  by exists best.
Qed.

End GroundStateProperties.

(** The first key is (a, 11): only the exchanged letters put the sodium atom
    at the letter a, and the exchange is chosen. *)
Example best_representation_rock_salt :
  ∃ best,
    best_representation 0 rock_salt_atoms (Some [exchange_a_b]) None false
    = inr best
    ∧ r_transformation best = 1
    ∧ wyckoff_positions best = {[ ("a"%char, 11) := 1; ("b"%char, 17) := 1 ]}.
Proof.
  destruct (best_representation 0 rock_salt_atoms (Some [exchange_a_b]) None false)
    as [e|best] eqn:E; [by vm_compute in E|].
  exists best. split; [done|]. vm_compute in E. injection E as <-.
  split; by vm_compute.
Qed.

(** ** The primitive system *)

Section PrimitiveSystemProperties.
Local Open Scope Q_scope.
Context {System : Type}.
Variable get_cell : System → Matrix3.
Variable get_positions : System → list Vector.
Variable get_atomic_numbers : System → list nat.
Variable Atoms : list Vector → list nat → Matrix3 → System.
Variable wrap : System → System.

Local Abbreviation _get_primitive_system :=
  (_get_primitive_system get_cell get_positions get_atomic_numbers Atoms wrap).

(** The number of lattice points of a centred conventional cell. *)
Definition lattice_points (centring : ascii) : Q :=
  if decide (centring = "R"%char) then 3
  else if decide (centring = "F"%char) then 4
  else 2.

Lemma primitive_transformations_det centring transform :
  primitive_transformations !! centring = Some transform →
  centring ≠ "P"%char ∧ det transform * lattice_points centring == 1.
Proof.
  unfold primitive_transformations. intros H.
  repeat (apply lookup_insert_Some in H as [[<- <-]|[_ H]]; [by vm_compute|]).
  apply lookup_singleton_Some in H as [<- <-]. by vm_compute.
Qed.


(** What a successful call on a centred cell has computed. *)
Lemma _get_primitive_system_unfold std_mapping_to_primitive conv_system
    conv_wyckoff conv_equivalent centring symbol prim_sys prim_wyckoff
    prim_equivalent :
  centring ≠ "P"%char →
  _get_primitive_system std_mapping_to_primitive conv_system conv_wyckoff
    conv_equivalent (String centring symbol)
  = inr (prim_sys, prim_wyckoff, prim_equivalent) →
  ∃ transform prim_cell_inv prim_pos prim_num,
    let prim_cell := dot (transpose transform) (get_cell conv_system) in
    let inside_mask := (unique std_mapping_to_primitive).2 in
    primitive_transformations !! centring = Some transform
    ∧ inv prim_cell = Some prim_cell_inv
    ∧ index_array ((λ pos, dot_vector pos prim_cell_inv)
                     <$> get_positions conv_system) inside_mask = Some prim_pos
    ∧ index_array (get_atomic_numbers conv_system) inside_mask = Some prim_num
    ∧ index_array conv_wyckoff inside_mask = Some prim_wyckoff
    ∧ index_array conv_equivalent inside_mask = Some prim_equivalent
    ∧ prim_sys = wrap (Atoms prim_pos prim_num prim_cell).
Proof.
  intros HP. unfold SymmetryAnalyzer._get_primitive_system.
  rewrite decide_False by done.
  destruct (primitive_transformations !! centring) as [transform|] eqn:Et;
    [|done].
  destruct (inv _) as [prim_cell_inv|] eqn:Ei; [|done].
  destruct (index_array (_ <$> _) _) as [prim_pos|] eqn:E1; [|done].
  destruct (index_array (get_atomic_numbers _) _) as [prim_num|] eqn:E2; [|done].
  destruct (index_array conv_wyckoff _) as [w|] eqn:E3; [|done].
  destruct (index_array conv_equivalent _) as [e|] eqn:E4; [|done].
  intros [= <- <- <-]. by exists transform, prim_cell_inv, prim_pos, prim_num.
Qed.

(** X19: for a centring A, C, I, R or F the cell of the primitive system
    is the transposed matrix of the centring times the conventional cell,
    and its determinant is the one of the conventional cell divided by the
    number of lattice points (2 for A, C and I, 3 for R, 4 for F); the only
    errors are [LinAlgError], raised exactly when the conventional cell has
    determinant zero, and the [IndexError] of the mask. *)
Theorem primitive_cell_volume std_mapping_to_primitive conv_system conv_wyckoff
    conv_equivalent centring symbol transform :
  primitive_transformations !! centring = Some transform →
  match _get_primitive_system std_mapping_to_primitive conv_system conv_wyckoff
          conv_equivalent (String centring symbol) with
  | inr (prim_sys, _, _) =>
      ∃ prim_pos prim_num prim_cell,
        prim_sys = wrap (Atoms prim_pos prim_num prim_cell)
        ∧ prim_cell = dot (transpose transform) (get_cell conv_system)
        ∧ det prim_cell * lattice_points centring == det (get_cell conv_system)
        ∧ ¬ det (get_cell conv_system) == 0
  | inl LinAlgError_singular => det (get_cell conv_system) == 0
  | inl IndexError_inside_mask => ¬ det (get_cell conv_system) == 0
  | inl _ => False
  end.
Proof.
  intros Ht. destruct (primitive_transformations_det _ _ Ht) as [HP Hdet].
  assert (Hvol : det (dot (transpose transform) (get_cell conv_system))
                 * lattice_points centring == det (get_cell conv_system)).
  { rewrite det_dot, det_transpose.
    rewrite <- (Qmult_1_l (det (get_cell conv_system))) at 2.
    rewrite <- Hdet. ring. }
  assert (Hl : ¬ lattice_points centring == 0).
  { unfold lattice_points. by repeat case_decide. }
  assert (Hinv : is_Some (inv (dot (transpose transform) (get_cell conv_system)))
                 ↔ ¬ det (get_cell conv_system) == 0).
  { rewrite inv_is_Some. split; intros H E; apply H.
    - rewrite <- Hvol in E. by apply Qmult_integral_l in E.
    - rewrite <- Hvol, E. ring. }
  unfold SymmetryAnalyzer._get_primitive_system. rewrite decide_False by done. rewrite Ht.
  destruct (inv _) as [prim_cell_inv|].
  - assert (Hne : ¬ det (get_cell conv_system) == 0) by (apply Hinv; by eexists).
    repeat case_match; try done. simplify_eq. by eexists _, _, _.
  - destruct (Qeq_dec (det (get_cell conv_system)) 0) as [|Hne]; [done|].
    apply Hinv in Hne as [? [=]].
Qed.

(** [np.unique]: the values are ascending without repetition, and the index
    of each is where it is first in the array. *)
Lemma unique_spec (ar : list Z) :
  StronglySorted Z.lt (unique ar).1
  ∧ Forall2 (λ i v, ar !! i = Some v ∧ ∀ j, (j < i)%nat → ar !! j ≠ Some v)
            (unique ar).2 (unique ar).1
  ∧ ∀ v, v ∈ ar → v ∈ (unique ar).1.
Proof.
  unfold unique. simpl. set (values := merge_sort Z.le (remove_dups ar)).
  assert (Hperm : values ≡ₚ remove_dups ar) by apply merge_sort_Permutation.
  assert (Hin : ∀ v, v ∈ values ↔ v ∈ ar).
  { intros v. by rewrite Hperm, elem_of_remove_dups. }
  assert (Hnodup : NoDup values).
  { rewrite Hperm. apply NoDup_remove_dups. }
  assert (Hsorted : StronglySorted Z.le values).
  { apply (StronglySorted_merge_sort Z.le). }
  split; [|split].
  - clear Hperm Hin. induction Hsorted as [|v l Hl IH Hall]; [constructor|].
    apply NoDup_cons in Hnodup as [Hv Hnodup].
    constructor; [by apply IH|].
    apply Forall_forall. intros w Hw.
    rewrite Forall_forall in Hall. specialize (Hall w Hw).
    assert (v ≠ w) by (intros ->; done). lia.
  - apply Forall2_fmap_l, Forall_Forall2_diag, Forall_forall.
    intros v Hv%Hin.
    destruct (list_find_elem_of (λ x, x = v) ar v Hv eq_refl) as [[i x] Hfind].
    unfold compose. rewrite Hfind. simpl.
    apply list_find_Some in Hfind as (Hi & -> & Hfirst). split; [done|].
    intros j Hj Hjv. by apply (Hfirst j v).
  - intros v Hv. by apply Hin.
Qed.

Lemma index_array_Some {A} (ar : list A) (indices : list nat) (l : list A) :
  index_array ar indices = Some l ↔ Forall2 (λ i x, ar !! i = Some x) indices l.
Proof. apply mapM_Some. Qed.

(** X20: for a centring other than P the primitive system keeps one atom
    of the conventional system for each value of
    [std_mapping_to_primitive]: the first atom with this value, in the
    ascending order of the values; the atomic numbers, the Wyckoff letters and
    the equivalent atoms returned are those of the atoms kept. *)
Theorem primitive_system_keeps_first_atoms std_mapping_to_primitive conv_system
    conv_wyckoff conv_equivalent centring symbol prim_sys prim_wyckoff
    prim_equivalent :
  centring ≠ "P"%char →
  _get_primitive_system std_mapping_to_primitive conv_system conv_wyckoff
    conv_equivalent (String centring symbol)
  = inr (prim_sys, prim_wyckoff, prim_equivalent) →
  ∃ inside_mask inside_values prim_pos prim_num prim_cell,
    prim_sys = wrap (Atoms prim_pos prim_num prim_cell)
    ∧ Forall2 (λ i v, std_mapping_to_primitive !! i = Some v
                      ∧ ∀ j, (j < i)%nat → std_mapping_to_primitive !! j ≠ Some v)
              inside_mask inside_values
    ∧ StronglySorted Z.lt inside_values
    ∧ (∀ v, v ∈ std_mapping_to_primitive → v ∈ inside_values)
    ∧ length prim_pos = length inside_mask
    ∧ Forall2 (λ i number, get_atomic_numbers conv_system !! i = Some number)
              inside_mask prim_num
    ∧ Forall2 (λ i letter, conv_wyckoff !! i = Some letter)
              inside_mask prim_wyckoff
    ∧ Forall2 (λ i equivalent, conv_equivalent !! i = Some equivalent)
              inside_mask prim_equivalent.
Proof.
  intros HP H.
  destruct (_get_primitive_system_unfold _ _ _ _ _ _ _ _ _ HP H)
    as (transform & prim_cell_inv & prim_pos & prim_num & _ & _ & H1 & H2 & H3
        & H4 & ->).
  destruct (unique_spec std_mapping_to_primitive) as (Hsorted & Hmask & Hall).
  apply index_array_Some in H1, H2, H3, H4.
  exists (unique std_mapping_to_primitive).2, (unique std_mapping_to_primitive).1,
    prim_pos, prim_num, (dot (transpose transform) (get_cell conv_system)).
  repeat split; try done.
  symmetry. by eapply Forall2_length.
Qed.

(** Componentwise equality of the numbers of two vectors. *)
Definition Vector_eq (u v : Vector) : Prop :=
  let '(a, b, c) := u in
  let '(a', b', c') := v in
  a == a' ∧ b == b' ∧ c == c'.

Lemma dot_vector_inv (v : Vector) (m m_inv : Matrix3) :
  inv m = Some m_inv → Vector_eq (dot_vector (dot_vector v m_inv) m) v.
Proof.
  destruct v as [[x y] z], m as [[[[a b] c] [[d e] f]] [[g h] i]]. unfold inv.
  destruct (Qeq_bool _ 0) eqn:E; [done|]. apply Qeq_bool_neq in E.
  intros [= <-]. unfold dot_vector, Vector_eq, det in *.
  repeat split; field; exact E.
Qed.

(** X21: the scaled positions given to the primitive system are the
    Cartesian positions of the atoms kept in the basis of the primitive
    cell: multiplied with the primitive cell they give these positions back. *)
Theorem primitive_positions_are_cartesian_positions std_mapping_to_primitive
    conv_system conv_wyckoff conv_equivalent centring symbol prim_sys
    prim_wyckoff prim_equivalent :
  centring ≠ "P"%char →
  _get_primitive_system std_mapping_to_primitive conv_system conv_wyckoff
    conv_equivalent (String centring symbol)
  = inr (prim_sys, prim_wyckoff, prim_equivalent) →
  ∃ prim_pos prim_num prim_cell,
    prim_sys = wrap (Atoms prim_pos prim_num prim_cell)
    ∧ Forall2 (λ i scaled_position,
                 ∃ position, get_positions conv_system !! i = Some position
                   ∧ Vector_eq (dot_vector scaled_position prim_cell) position)
              (unique std_mapping_to_primitive).2 prim_pos.
Proof.
  intros HP H.
  destruct (_get_primitive_system_unfold _ _ _ _ _ _ _ _ _ HP H)
    as (transform & prim_cell_inv & prim_pos & prim_num & _ & Hinv & H1 & _ & _
        & _ & ->).
  exists prim_pos, prim_num, (dot (transpose transform) (get_cell conv_system)).
  split; [done|]. apply index_array_Some in H1.
  eapply Forall2_impl; [exact H1|]. simpl.
  intros i p (position & -> & Hpos)%list_lookup_fmap_Some.
  exists position. split; [done|]. by apply dot_vector_inv.
Qed.
End PrimitiveSystemProperties.

(** *** Body-centred iron *)

(** A system as the triple of what the getters return, [Atoms] that stores
    its arguments and a [wrap] that leaves them. *)
Definition plain_get_cell (system : Matrix3 * list Vector * list nat) : Matrix3 :=
  system.1.1.
Definition plain_get_positions (system : Matrix3 * list Vector * list nat)
  : list Vector := system.1.2.
Definition plain_get_atomic_numbers (system : Matrix3 * list Vector * list nat)
  : list nat := system.2.
Definition plain_Atoms (scaled_positions : list Vector) (symbols : list nat)
    (cell : Matrix3) : Matrix3 * list Vector * list nat :=
  (cell, scaled_positions, symbols).

(** Body-centred iron in its conventional cell of edge 4: the atom at the
    corner and the atom at the centre are the same atom of the primitive
    cell. *)
Definition bcc_iron : Matrix3 * list Vector * list nat :=
  (((4, 0, 0), (0, 4, 0), (0, 0, 4))%Q, [(0, 0, 0); (2, 2, 2)]%Q, [26; 26]).


Example primitive_system_bcc_iron :
  ∃ prim_cell prim_pos,
    _get_primitive_system plain_get_cell plain_get_positions
      plain_get_atomic_numbers plain_Atoms id [0; 0]%Z bcc_iron
      ["a"%char; "a"%char] [0; 0]%Z "Im-3m"
    = inr ((prim_cell, [prim_pos], [26]), ["a"%char], [0%Z])
    ∧ Vector_eq prim_pos (0, 0, 0)%Q
    ∧ (det prim_cell == 32)%Q.
Proof. eexists _, _. split; [by vm_compute|]. by vm_compute. Qed.

Lemma primitive_cell_volume_witness :
  primitive_transformations !! "I"%char
  = Some ((- (1 # 2), 1 # 2, 1 # 2), (1 # 2, - (1 # 2), 1 # 2),
          (1 # 2, 1 # 2, - (1 # 2)))%Q
  ∧ match _get_primitive_system plain_get_cell plain_get_positions
            plain_get_atomic_numbers plain_Atoms id [0; 0]%Z bcc_iron
            ["a"%char; "a"%char] [0; 0]%Z "Im-3m" with
    | inr (prim_sys, _, _) =>
        ∃ prim_pos prim_num prim_cell,
          prim_sys = id (plain_Atoms prim_pos prim_num prim_cell)
          ∧ prim_cell
            = dot (transpose ((- (1 # 2), 1 # 2, 1 # 2), (1 # 2, - (1 # 2), 1 # 2),
                              (1 # 2, 1 # 2, - (1 # 2)))%Q)
                  (plain_get_cell bcc_iron)
          ∧ (det prim_cell * lattice_points "I" == det (plain_get_cell bcc_iron))%Q
          ∧ ¬ (det (plain_get_cell bcc_iron) == 0)%Q
    | inl LinAlgError_singular => (det (plain_get_cell bcc_iron) == 0)%Q
    | inl IndexError_inside_mask => ¬ (det (plain_get_cell bcc_iron) == 0)%Q
    | inl _ => False
    end.
Proof.
  assert (Ht : primitive_transformations !! "I"%char
               = Some ((- (1 # 2), 1 # 2, 1 # 2), (1 # 2, - (1 # 2), 1 # 2),
                       (1 # 2, 1 # 2, - (1 # 2)))%Q) by reflexivity.
  split; [exact Ht|].
  exact (primitive_cell_volume plain_get_cell plain_get_positions
           plain_get_atomic_numbers plain_Atoms id [0; 0]%Z bcc_iron
           ["a"%char; "a"%char] [0; 0]%Z "I" "m-3m" _ Ht).
Defined.

Lemma primitive_system_keeps_first_atoms_witness :
  ∃ prim_sys prim_wyckoff prim_equivalent,
    _get_primitive_system plain_get_cell plain_get_positions
      plain_get_atomic_numbers plain_Atoms id [0; 0]%Z bcc_iron
      ["a"%char; "a"%char] [0; 0]%Z "Im-3m"
    = inr (prim_sys, prim_wyckoff, prim_equivalent)
    ∧ "I"%char ≠ "P"%char
    ∧ ∃ inside_mask inside_values prim_pos prim_num prim_cell,
        prim_sys = id (plain_Atoms prim_pos prim_num prim_cell)
        ∧ Forall2 (λ i v, [0; 0]%Z !! i = Some v
                          ∧ ∀ j, (j < i)%nat → [0; 0]%Z !! j ≠ Some v)
                  inside_mask inside_values
        ∧ StronglySorted Z.lt inside_values
        ∧ (∀ v, v ∈ [0; 0]%Z → v ∈ inside_values)
        ∧ length prim_pos = length inside_mask
        ∧ Forall2 (λ i number, plain_get_atomic_numbers bcc_iron !! i = Some number)
                  inside_mask prim_num
        ∧ Forall2 (λ i letter, ["a"%char; "a"%char] !! i = Some letter)
                  inside_mask prim_wyckoff
        ∧ Forall2 (λ i equivalent, [0; 0]%Z !! i = Some equivalent)
                  inside_mask prim_equivalent.
Proof.
  assert (HP : "I"%char ≠ "P"%char) by discriminate.
  destruct primitive_system_bcc_iron as (prim_cell & prim_pos & H & _).
  eexists _, _, _. split; [exact H|]. split; [exact HP|].
  exact (primitive_system_keeps_first_atoms plain_get_cell plain_get_positions
           plain_get_atomic_numbers plain_Atoms id [0; 0]%Z bcc_iron
           ["a"%char; "a"%char] [0; 0]%Z "I" "m-3m" _ _ _ HP H).
Defined.

Lemma primitive_positions_are_cartesian_positions_witness :
  ∃ prim_sys prim_wyckoff prim_equivalent,
    _get_primitive_system plain_get_cell plain_get_positions
      plain_get_atomic_numbers plain_Atoms id [0; 0]%Z bcc_iron
      ["a"%char; "a"%char] [0; 0]%Z "Im-3m"
    = inr (prim_sys, prim_wyckoff, prim_equivalent)
    ∧ "I"%char ≠ "P"%char
    ∧ ∃ prim_pos prim_num prim_cell,
        prim_sys = id (plain_Atoms prim_pos prim_num prim_cell)
        ∧ Forall2 (λ i scaled_position,
                     ∃ position, plain_get_positions bcc_iron !! i = Some position
                       ∧ Vector_eq (dot_vector scaled_position prim_cell) position)
                  (unique [0; 0]%Z).2 prim_pos.
Proof.
  assert (HP : "I"%char ≠ "P"%char) by discriminate.
  destruct primitive_system_bcc_iron as (prim_cell & prim_pos & H & _).
  eexists _, _, _. split; [exact H|]. split; [exact HP|].
  exact (primitive_positions_are_cartesian_positions plain_get_cell plain_get_positions
           plain_get_atomic_numbers plain_Atoms id [0; 0]%Z bcc_iron
           ["a"%char; "a"%char] [0; 0]%Z "I" "m-3m" _ _ _ HP H).
Defined.

End SymmetryAnalyzerTheory.

(* ===================================================================== *)
(** * Properties of systax/geometry/geometry.py                           *)
(* ===================================================================== *)

Module SystaxGeometryTheory.
Import SystaxGeometry.

(** ** The intervals and their merged form *)

Section IntervalsProperties.
Local Open Scope Q_scope.
Implicit Types (self : Intervals) (l rest merged : list Interval).
Implicit Types (interval previous current : Interval) (x : Q).

(** An interval with its start not behind its end. *)
Definition proper interval : Prop := interval.1 <= interval.2.

(** The point [x] lies in the closed interval. *)
Definition covers interval x : Prop := interval.1 <= x ∧ x <= interval.2.

Definition covered l x : Prop := Exists (λ interval, covers interval x) l.

(** The first interval ends before the second one starts. *)
Definition apart previous current : Prop := previous.2 < current.1.

(** Every interval of the instance is proper. *)
Definition well_formed self : Prop := Forall proper (_intervals self).

Lemma add_interval_proper a b :
  proper (Qmin a b, Qmax a b)
  ∧ covers (Qmin a b, Qmax a b) a ∧ covers (Qmin a b, Qmax a b) b.
Proof.
  unfold proper, covers. simpl.
  destruct (Q.min_spec a b) as [[? E1]|[? E1]],
           (Q.max_spec a b) as [[? E2]|[? E2]]; rewrite E1, E2;
    repeat split; lra.
Qed.

Lemma add_interval_well_formed self a b :
  well_formed self → well_formed (add_interval self a b).
Proof.
  unfold well_formed. simpl. intros H. apply Forall_app. split; [done|].
  constructor; [|constructor]. apply add_interval_proper.
Qed.

Lemma add_intervals_well_formed intervals self :
  well_formed self → well_formed (add_intervals self intervals).2.
Proof.
  revert self. induction intervals as [|i intervals IH]; intros self H; simpl.
  - done.
  - destruct (length i =? 2)%nat; [|done].
    by apply IH, add_interval_well_formed.
Qed.

(** *** The sorted list *)

Lemma insert_sorted_perm key interval l :
  insert_sorted key interval l ≡ₚ interval :: l.
Proof.
  induction l as [|y l IH]; simpl; [done|].
  destruct (Qlt_le_dec (key interval) (key y)); [done|].
  rewrite IH. apply perm_swap.
Qed.

Lemma sorted_loop_perm key l acc :
  foldl (λ sorted interval, insert_sorted key interval sorted) acc l ≡ₚ l ++ acc.
Proof.
  revert acc. induction l as [|y l IH]; intros acc; simpl; [done|].
  rewrite IH, insert_sorted_perm. by rewrite Permutation_middle.
Qed.

Lemma sorted_perm key l : sorted key l ≡ₚ l.
Proof. unfold sorted. by rewrite sorted_loop_perm, app_nil_r. Qed.

Lemma insert_sorted_sorted key interval l :
  StronglySorted (λ a b, key a <= key b) l →
  StronglySorted (λ a b, key a <= key b) (insert_sorted key interval l).
Proof.
  induction 1 as [|y l Hs IH Hall]; simpl.
  - constructor; [constructor|constructor].
  - destruct (Qlt_le_dec (key interval) (key y)) as [Hlt|Hle].
    + constructor; [by constructor|]. constructor; [lra|].
      eapply Forall_impl; [exact Hall|]. simpl. intros z Hz. lra.
    + constructor; [done|]. rewrite insert_sorted_perm.
      by constructor.
Qed.

Lemma sorted_sorted key l : StronglySorted (λ a b, key a <= key b) (sorted key l).
Proof.
  unfold sorted.
  assert (H : StronglySorted (λ a b, key a <= key b) []) by constructor.
  revert H. generalize (@nil Interval).
  induction l as [|y l IH]; intros acc H; simpl; [done|].
  by apply IH, insert_sorted_sorted.
Qed.

(** *** The loop that merges *)

(** The merged list from the interval that is being grown. *)
Fixpoint merge_from previous rest : list Interval :=
  match rest with
  | [] => [previous]
  | current :: rest =>
      if Qlt_le_dec previous.2 current.1 then previous :: merge_from current rest
      else if Qlt_le_dec previous.2 current.2 then
        merge_from (previous.1, current.2) rest
      else merge_from previous rest
  end.

Lemma merge_step_snoc merged previous current :
  merge_step (merged ++ [previous]) current
  = if Qlt_le_dec previous.2 current.1 then merged ++ [previous; current]
    else if Qlt_le_dec previous.2 current.2 then
      merged ++ [(previous.1, current.2)]
    else merged ++ [previous].
Proof.
  unfold merge_step. rewrite last_snoc.
  destruct (Qlt_le_dec previous.2 current.1); [by rewrite <- app_assoc|].
  destruct (Qlt_le_dec previous.2 current.2); [|done].
  rewrite length_app. simpl.
  replace (length merged + 1 - 1)%nat with (length merged + 0)%nat by lia.
  by rewrite insert_app_r.
Qed.

Lemma merge_loop rest merged previous :
  foldl merge_step (merged ++ [previous]) rest = merged ++ merge_from previous rest.
Proof.
  revert merged previous.
  induction rest as [|current rest IH]; intros merged previous; simpl; [done|].
  rewrite merge_step_snoc.
  destruct (Qlt_le_dec previous.2 current.1).
  - change (merged ++ [previous; current])
      with (merged ++ [previous] ++ [current]).
    by rewrite app_assoc, IH, <- app_assoc.
  - destruct (Qlt_le_dec previous.2 current.2); apply IH.
Qed.

Lemma merge_from_lower (lo : Q) rest previous :
  lo <= previous.1 → Forall (λ current, lo <= current.1) rest →
  Forall (λ interval, lo <= interval.1) (merge_from previous rest).
Proof.
  revert previous. induction rest as [|current rest IH]; intros previous Hp Hall;
    simpl.
  - by repeat constructor.
  - apply Forall_cons in Hall as [Hc Hall].
    destruct (Qlt_le_dec previous.2 current.1).
    + constructor; [done|]. by apply IH.
    + destruct (Qlt_le_dec previous.2 current.2); by apply IH.
Qed.

Lemma merge_from_proper rest previous :
  proper previous → Forall proper rest →
  Forall (λ current, previous.1 <= current.1) rest →
  StronglySorted (λ a b, a.1 <= b.1) rest →
  Forall proper (merge_from previous rest).
Proof.
  revert previous.
  induction rest as [|current rest IH]; intros previous Hp Hall Hlow Hs; simpl.
  - by repeat constructor.
  - apply Forall_cons in Hall as [Hc Hall].
    apply Forall_cons in Hlow as [Hpc Hlow].
    apply StronglySorted_inv in Hs as [Hs Hcl].
    unfold proper in *.
    destruct (Qlt_le_dec previous.2 current.1).
    + constructor; [done|]. by apply IH.
    + destruct (Qlt_le_dec previous.2 current.2).
      * apply IH; try done. simpl. lra.
      * by apply IH.
Qed.

Lemma merge_from_apart rest previous :
  StronglySorted (λ a b, a.1 <= b.1) rest →
  StronglySorted apart (merge_from previous rest).
Proof.
  revert previous.
  induction rest as [|current rest IH]; intros previous Hs; simpl.
  - by repeat constructor.
  - apply StronglySorted_inv in Hs as [Hs Hcl].
    destruct (Qlt_le_dec previous.2 current.1) as [Hlt|].
    + constructor; [by apply IH|].
      eapply Forall_impl.
      * apply (merge_from_lower current.1 rest current); [lra|done].
      * simpl. intros z Hz. unfold apart. lra.
    + destruct (Qlt_le_dec previous.2 current.2); by apply IH.
Qed.

Lemma merge_from_covered rest previous x :
  proper previous → Forall proper rest →
  Forall (λ current, previous.1 <= current.1) rest →
  StronglySorted (λ a b, a.1 <= b.1) rest →
  covered (merge_from previous rest) x ↔ covered (previous :: rest) x.
Proof.
  revert previous.
  induction rest as [|current rest IH]; intros previous Hp Hall Hlow Hs; simpl.
  - done.
  - apply Forall_cons in Hall as [Hc Hall].
    apply Forall_cons in Hlow as [Hpc Hlow].
    apply StronglySorted_inv in Hs as [Hs Hcl].
    unfold covered, proper in *.
    destruct (Qlt_le_dec previous.2 current.1).
    + rewrite Exists_cons, (IH current), !Exists_cons by done. tauto.
    + destruct (Qlt_le_dec previous.2 current.2).
      * rewrite (IH (previous.1, current.2)); [|simpl; lra|done|done|done].
        rewrite !Exists_cons. unfold covers. simpl.
        destruct (Qlt_le_dec previous.2 x); split; intros H;
          intuition (try lra).
      * rewrite (IH previous) by done.
        rewrite !Exists_cons. unfold covers.
        split; intros H; intuition (try lra).
Qed.

(** *** [get_merged_intervals] *)

Lemma get_merged_intervals_fresh self :
  _merged_intervals_need_update self = true →
  (get_merged_intervals self).1
  = match sorted fst (_intervals self) with
    | [] => []
    | first :: rest => merge_from first rest
    end.
Proof.
  intros E. unfold get_merged_intervals, get_intervals_sorted_by_start.
  rewrite E. destruct (_intervals self) as [|i l] eqn:El; [done|].
  replace (length (i :: l) <? 1)%nat with false
    by (symmetry; apply Nat.ltb_ge; simpl; lia).
  destruct (sorted fst (i :: l)) as [|first rest] eqn:Es.
  - pose proof (sorted_perm fst (i :: l)) as Hp. rewrite Es in Hp.
    by apply Permutation_nil_cons in Hp.
  - simpl. exact (merge_loop rest [] first).
Qed.

Lemma sorted_by_start_facts self first rest :
  well_formed self → sorted fst (_intervals self) = first :: rest →
  proper first ∧ Forall proper rest
  ∧ Forall (λ current, first.1 <= current.1) rest
  ∧ StronglySorted (λ a b, a.1 <= b.1) rest.
Proof.
  intros Hwf Es.
  pose proof (sorted_sorted fst (_intervals self)) as Hs. rewrite Es in Hs.
  apply StronglySorted_inv in Hs as [Hs Hlow].
  assert (H : Forall proper (first :: rest)).
  { rewrite <- Es, sorted_perm. exact Hwf. }
  by apply Forall_cons in H as [? ?].
Qed.


(** X6: the intervals of an instance always have their start not behind
    their end: the constructor, [add_interval] (whatever the order of its
    arguments; the interval stored holds both), [add_intervals] (also when
    it raises), [set_intervals], [remove_interval] and
    [get_merged_intervals] keep it so. *)
Theorem intervals_stay_proper :
  (∀ intervals, well_formed (__init__ intervals).2)
  ∧ (∀ self a b,
       well_formed self →
       well_formed (add_interval self a b)
       ∧ ∃ interval, last (_intervals (add_interval self a b)) = Some interval
                     ∧ covers interval a ∧ covers interval b)
  ∧ (∀ self intervals,
       well_formed self → well_formed (add_intervals self intervals).2)
  ∧ (∀ self intervals, well_formed (set_intervals self intervals).2)
  ∧ (∀ self i, well_formed self → well_formed (remove_interval self i))
  ∧ (∀ self, well_formed self → well_formed (get_merged_intervals self).2).
Proof.
  repeat split.
  - intros [intervals|]; simpl; [|constructor].
    apply add_intervals_well_formed. constructor.
  - by apply add_interval_well_formed.
  - exists (Qmin a b, Qmax a b). simpl. rewrite last_snoc.
    split; [done|]. apply add_interval_proper.
  - intros self intervals. apply add_intervals_well_formed.
  - intros self intervals. apply add_intervals_well_formed. constructor.
  - intros self i Hwf. unfold remove_interval.
    destruct (_ && _)%bool; [|done]. by apply Forall_delete.
  - intros self Hwf. unfold get_merged_intervals.
    destruct (_merged_intervals_need_update self); [|done].
    destruct (length (_intervals self) <? 1)%nat; [done|].
    by destruct (get_intervals_sorted_by_start self).
Qed.

(** X7: the merged intervals that are computed are proper, ascending and
    apart: each one ends before the next one starts, so that no two of them
    overlap or touch. *)
Theorem merged_intervals_proper_and_apart self :
  _merged_intervals_need_update self = true → well_formed self →
  let merged := (get_merged_intervals self).1 in
  Forall proper merged ∧ StronglySorted apart merged.
Proof.
  intros E Hwf. simpl. rewrite (get_merged_intervals_fresh self E).
  destruct (sorted fst (_intervals self)) as [|first rest] eqn:Es.
  - split; constructor.
  - destruct (sorted_by_start_facts self first rest Hwf Es)
      as (Hp & Hall & Hlow & Hs).
    split; [by apply merge_from_proper | by apply merge_from_apart].
Qed.

Lemma covered_perm l l' x : l ≡ₚ l' → covered l x ↔ covered l' x.
Proof.
  intros Hp. unfold covered. rewrite !Exists_exists.
  split; intros (interval & Hin & Hc); exists interval; split; try done.
  - by rewrite <- Hp.
  - by rewrite Hp.
Qed.


(** *** The added lengths *)







Lemma merge_from_not_empty rest previous : merge_from previous rest ≠ [].
Proof.
  revert previous. induction rest as [|current rest IH]; intros previous; simpl.
  - done.
  - destruct (Qlt_le_dec previous.2 current.1); [done|].
    destruct (Qlt_le_dec previous.2 current.2); apply IH.
Qed.



(** *** The largest distance *)




(** *** The flag *)

(** X11: [set_intervals] with an empty list leaves the flag as it is, so
    that the merged intervals that were computed before are not dropped:
    the instance has no interval any more and [get_merged_intervals] still
    returns the old merged intervals. *)
Theorem set_intervals_empty_keeps_merged self :
  _merged_intervals_need_update self = true → _intervals self ≠ [] →
  let self1 := (get_merged_intervals self).2 in
  let self2 := (set_intervals self1 []).2 in
  (set_intervals self1 []).1 = None
  ∧ _intervals self2 = []
  ∧ add_up_intervals self2 = None
  ∧ (get_merged_intervals self2).1 = (get_merged_intervals self).1
  ∧ (get_merged_intervals self2).1 ≠ [].
Proof.
  intros E Hne. simpl.
  pose proof (get_merged_intervals_fresh self E) as Hfresh.
  pose proof (sorted_perm fst (_intervals self)) as Hperm.
  unfold get_merged_intervals in *. rewrite E in *.
  destruct (_intervals self) as [|i l] eqn:El; [done|].
  replace (length (i :: l) <? 1)%nat with false in *
    by (symmetry; apply Nat.ltb_ge; simpl; lia).
  unfold get_intervals_sorted_by_start in *. rewrite El in *.
  destruct (sorted fst (i :: l)) as [|first rest] eqn:Es.
  { by apply Permutation_nil_cons in Hperm. }
  simpl in *. repeat split; try done.
  rewrite Hfresh. apply merge_from_not_empty.
Qed.

(** X12: the merged intervals are kept: a second call of
    [get_merged_intervals] returns the list of the first one and leaves the
    instance as the first one left it; and [add_interval] drops what is
    kept: the merged intervals that are returned after it hold both
    numbers that were given. *)
Theorem merged_intervals_kept_until_added self :
  get_merged_intervals (get_merged_intervals self).2 = get_merged_intervals self
  ∧ ∀ a b, well_formed self →
      covered (get_merged_intervals (add_interval self a b)).1 a
      ∧ covered (get_merged_intervals (add_interval self a b)).1 b.
Proof.
  split.
  - unfold get_merged_intervals.
    destruct (_merged_intervals_need_update self) eqn:E.
    + destruct (length (_intervals self) <? 1)%nat eqn:El; simpl.
      * by rewrite E, El.
      * destruct (get_intervals_sorted_by_start self) eqn:Es; simpl.
        -- by rewrite E, El, Es.
        -- done.
    + simpl. by rewrite E.
  - intros a b Hwf.
    pose proof (add_interval_well_formed self a b Hwf) as Hwf'.
    assert (E : _merged_intervals_need_update (add_interval self a b) = true)
      by done.
    assert (Hcov : ∀ x, covers (Qmin a b, Qmax a b) x →
                        covered (get_merged_intervals (add_interval self a b)).1 x).
    { intros x Hx. rewrite (get_merged_intervals_fresh _ E).
      assert (Hin : covered (sorted fst (_intervals (add_interval self a b))) x).
      { apply (covered_perm _ _ x (sorted_perm fst _)). simpl.
        apply Exists_app. right. by constructor. }
      destruct (sorted fst (_intervals (add_interval self a b)))
        as [|first rest] eqn:Es; [done|].
      destruct (sorted_by_start_facts _ first rest Hwf' Es)
        as (Hp & Hall & Hlow & Hs).
      by apply merge_from_covered. }
    split; apply Hcov; apply add_interval_proper.
Qed.

(** *** An instance

    The extents of four atoms along an axis; the second one is given from
    its end to its start. *)
Definition extents : Intervals :=
  (__init__ (Some [[0; 2]; [5; 3]; [1; 4]; [8; 9]])).2.

Lemma extents_well_formed : well_formed extents.
Proof. apply add_intervals_well_formed. constructor. Qed.

Example extents_merged :
  (get_merged_intervals extents).1 = [(0, 5); (8, 9)]
  ∧ add_up_intervals extents = Some 8
  ∧ (add_up_merged_intervals extents).1 = Some 6
  ∧ (get_max_distance_between_intervals extents).1 = inr (Some 3).
Proof. repeat split; vm_compute; reflexivity. Qed.

Lemma merged_intervals_proper_and_apart_witness :
  _merged_intervals_need_update extents = true ∧ well_formed extents
  ∧ let merged := (get_merged_intervals extents).1 in
    Forall proper merged ∧ StronglySorted apart merged.
Proof.
  assert (E : _merged_intervals_need_update extents = true) by reflexivity.
  split; [exact E|]. split; [exact extents_well_formed|].
  exact (merged_intervals_proper_and_apart extents E extents_well_formed).
Defined.




Lemma set_intervals_empty_keeps_merged_witness :
  _merged_intervals_need_update extents = true
  ∧ let self1 := (get_merged_intervals extents).2 in
    let self2 := (set_intervals self1 []).2 in
    (set_intervals self1 []).1 = None
    ∧ _intervals self2 = []
    ∧ add_up_intervals self2 = None
    ∧ (get_merged_intervals self2).1 = (get_merged_intervals extents).1
    ∧ (get_merged_intervals self2).1 ≠ [].
Proof.
  assert (E : _merged_intervals_need_update extents = true) by reflexivity.
  assert (Hne : _intervals extents ≠ []) by discriminate.
  split; [exact E|].
  exact (set_intervals_empty_keeps_merged extents E Hne).
Defined.

End IntervalsProperties.

(** ** The centre of mass *)

Section CenterOfMassProperties.
Local Open Scope Q_scope.

(** The weight of an atom. *)
Definition weight_of (weight : bool) (atom : Atom) : Q :=
  if weight then atom.1 else 1.

(** The three coordinates of a position. *)
Inductive Axis := axis_0 | axis_1 | axis_2.

Definition coordinate (axis : Axis) (p : Vector) : Q :=
  let '(x, y, z) := p in
  match axis with axis_0 => x | axis_1 => y | axis_2 => z end.

(** Two vectors hold the same numbers. *)
Definition same_vector (u v : Vector) : Prop :=
  ∀ axis, coordinate axis u == coordinate axis v.

Definition translate (s p : Vector) : Vector :=
  let '(sx, sy, sz) := s in
  let '(x, y, z) := p in
  (x + sx, y + sy, z + sz).

(** The sum of [w * (f p / total)] over the atoms. *)
Definition weighted (weight : bool) (total : Q) (f : Vector → Q)
    (system : list Atom) : Q :=
  foldr (λ atom acc, weight_of weight atom * (f atom.2 / total) + acc) 0 system.

Definition total_weight (weight : bool) (system : list Atom) : Q :=
  foldr (λ atom acc, weight_of weight atom + acc) 0 system.

Lemma weights_fmap (weight : bool) (system : list Atom) :
  (if weight then get_masses system else replicate (length system) 1)
  = weight_of weight <$> system.
Proof.
  destruct weight; [done|].
  induction system as [|a l IH]; simpl; [done|]. by rewrite IH.
Qed.

Lemma sum_loop (l : list Q) (acc : Q) :
  foldl Qplus acc l == acc + foldr Qplus 0 l.
Proof.
  revert acc. induction l as [|x l IH]; intros acc; simpl; [ring|].
  rewrite IH. ring.
Qed.

Lemma sum_total weight (system : list Atom) :
  sum (weight_of weight <$> system) == total_weight weight system.
Proof.
  unfold sum. rewrite sum_loop.
  induction system as [|a l IH]; simpl; [ring|].
  simpl in IH. rewrite Qplus_0_l in IH. rewrite IH. ring.
Qed.

Lemma dot_weights_loop weight total (system : list Atom) (cx cy cz : Q) :
  same_vector
    (foldl (λ '(cx, cy, cz) '(w, (x, y, z)), (cx + w * x, cy + w * y, cz + w * z))
           (cx, cy, cz)
           (zip (weight_of weight <$> system)
                ((λ '(x, y, z), (x / total, y / total, z / total))
                   <$> get_positions system)))
    (cx + weighted weight total (coordinate axis_0) system,
     cy + weighted weight total (coordinate axis_1) system,
     cz + weighted weight total (coordinate axis_2) system).
Proof.
  revert cx cy cz. induction system as [|[w [[x y] z]] l IH]; intros cx cy cz.
  - intros [| |]; simpl; ring.
  - simpl. intros axis.
    rewrite (IH (cx + weight_of weight (w, (x, y, z)) * (x / total))
                (cy + weight_of weight (w, (x, y, z)) * (y / total))
                (cz + weight_of weight (w, (x, y, z)) * (z / total)) axis).
    destruct axis; unfold weight_of; simpl; ring.
Qed.

(** What the function returns. *)
Lemma get_center_of_mass_unfold (system : list Atom) (weight : bool) :
  system ≠ [] →
  let total := sum (weight_of weight <$> system) in
  if Qeq_bool total 0 then get_center_of_mass system weight = None
  else ∃ cm, get_center_of_mass system weight = Some cm
         ∧ ∀ axis, coordinate axis cm
                   == weighted weight total (coordinate axis) system.
Proof.
  intros Hne total. unfold get_center_of_mass. rewrite weights_fmap. fold total.
  rewrite bool_decide_true by (by destruct system).
  destruct (Qeq_bool total 0); simpl; [done|].
  eexists. split; [done|]. unfold dot_weights. intros axis.
  rewrite (dot_weights_loop weight total system 0 0 0 axis).
  destruct axis; simpl; ring.
Qed.

Lemma weighted_proper weight total total' f system :
  total == total' → weighted weight total f system == weighted weight total' f system.
Proof.
  intros E. induction system as [|a l IH]; simpl; [done|]. by rewrite IH, E.
Qed.

Lemma weighted_shift weight total f (s : Q) (g : Vector → Vector) system :
  ¬ total == 0 →
  (∀ p, f (g p) == f p + s) →
  weighted weight total f ((λ atom, (atom.1, g atom.2)) <$> system)
  == weighted weight total f system + s * (total_weight weight system / total).
Proof.
  intros Ht Hg. induction system as [|a l IH]; csimpl.
  - field. done.
  - unfold weighted, total_weight in *. csimpl. rewrite IH. rewrite Hg.
    replace (weight_of weight (a.1, g a.2)) with (weight_of weight a)
      by (by destruct weight).
    field. done.
Qed.

Lemma total_weight_shift weight (g : Vector → Vector) system :
  total_weight weight ((λ atom, (atom.1, g atom.2)) <$> system)
  = total_weight weight system.
Proof.
  induction system as [|a l IH]; csimpl; [done|].
  unfold total_weight in *. csimpl. rewrite IH. by destruct weight.
Qed.

Lemma Qmult_le_l_nonneg (w a b : Q) : a <= b → 0 <= w → w * a <= w * b.
Proof. intros Hab Hw. nra. Qed.

Lemma weighted_bounds weight total f (lo hi : Q) system :
  0 < total →
  Forall (λ atom, 0 <= weight_of weight atom ∧ lo <= f atom.2 ∧ f atom.2 <= hi)
         system →
  lo * (total_weight weight system / total) <= weighted weight total f system
  ∧ weighted weight total f system <= hi * (total_weight weight system / total).
Proof.
  intros Ht Hall. induction Hall as [|a l (Hw & Hlo & Hhi) _ [IH1 IH2]]; simpl.
  - assert (El : lo * (0 / total) == 0) by (field; lra).
    assert (Eh : hi * (0 / total) == 0) by (field; lra). lra.
  - set (w := weight_of weight a) in *. set (x := f a.2) in *.
    set (T := total_weight weight l) in *.
    assert (Hinv : 0 < / total) by by apply Qinv_lt_0_compat.
    assert (E1 : lo * ((w + T) / total) == w * (lo / total) + lo * (T / total))
      by (field; lra).
    assert (E2 : hi * ((w + T) / total) == w * (hi / total) + hi * (T / total))
      by (field; lra).
    assert (Hscale : ∀ u v, u <= v → w * (u / total) <= w * (v / total)).
    { intros u v Huv. apply Qmult_le_l_nonneg; [|done].
      unfold Qdiv. apply Qmult_le_compat_r; lra. }
    pose proof (Hscale _ _ Hlo) as H1. pose proof (Hscale _ _ Hhi) as H2.
    rewrite E1, E2. split; lra.
Qed.


(** [system.translate(s)] of [ase]: every position is moved by [s]. *)
Definition translated (s : Vector) (system : list Atom) : list Atom :=
  (λ atom, (atom.1, translate s atom.2)) <$> system.

Lemma weights_translated weight (s : Vector) (system : list Atom) :
  weight_of weight <$> translated s system = weight_of weight <$> system.
Proof.
  unfold translated. rewrite <- list_fmap_compose. apply list_fmap_ext.
  intros i atom _. by destruct weight.
Qed.

Lemma coordinate_translate axis (s p : Vector) :
  coordinate axis (translate s p) == coordinate axis p + coordinate axis s.
Proof.
  destruct s as [[sx sy] sz], p as [[x y] z]. destruct axis; simpl; ring.
Qed.

(** X22: the centre of mass moves with the atoms: when every atom of a
    system with a centre of mass is moved by [s], the centre of mass is
    moved by [s], with and without the weights. *)
Theorem center_of_mass_translates (system : list Atom) (weight : bool)
    (s cm : Vector) :
  system ≠ [] →
  get_center_of_mass system weight = Some cm →
  ∃ cm', get_center_of_mass (translated s system) weight = Some cm'
    ∧ same_vector cm' (translate s cm).
Proof.
  intros Hne Hcm.
  pose proof (get_center_of_mass_unfold system weight Hne) as H1.
  assert (Hne' : translated s system ≠ []) by (by destruct system).
  pose proof (get_center_of_mass_unfold (translated s system) weight Hne') as H2.
  simpl in H1, H2. rewrite weights_translated in H2.
  set (total := sum (weight_of weight <$> system)) in *.
  destruct (Qeq_bool total 0) eqn:Et; [congruence|].
  apply Qeq_bool_neq in Et.
  destruct H1 as (cm1 & Hcm1 & Hv1), H2 as (cm' & Hcm' & Hv').
  assert (cm1 = cm) as -> by congruence.
  exists cm'. split; [done|]. intros axis.
  rewrite Hv', coordinate_translate, Hv1. unfold translated.
  rewrite (weighted_shift weight total (coordinate axis) (coordinate axis s)
             (translate s) system Et) by (intros p; apply coordinate_translate).
  assert (E : total_weight weight system / total == 1).
  { unfold total. rewrite sum_total. fold total.
    unfold total in Et. rewrite sum_total in Et. field. exact Et. }
  rewrite E. ring.
Qed.

Lemma total_weight_positive weight (system : list Atom) :
  system ≠ [] →
  Forall (λ atom, 0 < weight_of weight atom) system →
  0 < total_weight weight system.
Proof.
  intros Hne Hall. destruct Hall as [|a l Ha Hall]; [done|]. simpl.
  assert (0 <= total_weight weight l); [|lra].
  clear Hne Ha. induction Hall as [|b l Hb _ IH]; simpl; [lra|]. lra.
Qed.

(** X23: the centre of mass of a system with atoms lies in every box that
    holds the atoms, when the masses are positive or the weights are not
    used; in particular it is a vector of numbers. *)
Theorem center_of_mass_within_bounds (system : list Atom) (weight : bool)
    (lo hi : Vector) :
  system ≠ [] →
  (weight = true → Forall (λ atom, 0 < atom.1) system) →
  Forall (λ atom, ∀ axis, coordinate axis lo <= coordinate axis atom.2
                          ∧ coordinate axis atom.2 <= coordinate axis hi)
         system →
  ∃ cm, get_center_of_mass system weight = Some cm
    ∧ ∀ axis, coordinate axis lo <= coordinate axis cm
              ∧ coordinate axis cm <= coordinate axis hi.
Proof.
  intros Hne Hmass Hbox.
  assert (Hw : Forall (λ atom, 0 < weight_of weight atom) system).
  { destruct weight; [by apply Hmass|]. apply Forall_forall. intros atom _.
    simpl. lra. }
  pose proof (total_weight_positive weight system Hne Hw) as Hpos.
  pose proof (get_center_of_mass_unfold system weight Hne) as H. simpl in H.
  set (total := sum (weight_of weight <$> system)) in *.
  assert (Et : total == total_weight weight system) by apply sum_total.
  destruct (Qeq_bool total 0) eqn:E0.
  { apply Qeq_bool_eq in E0. lra. }
  destruct H as (cm & Hcm & Hv). exists cm. split; [done|]. intros axis.
  rewrite Hv.
  destruct (weighted_bounds weight total (coordinate axis) (coordinate axis lo)
              (coordinate axis hi) system) as [H1 H2]; [lra| |].
  { rewrite Forall_forall in Hw, Hbox. apply Forall_forall. intros atom Hin.
    specialize (Hw atom Hin). destruct (Hbox atom Hin axis). split; [lra|done]. }
  assert (E : total_weight weight system / total == 1).
  { rewrite <- Et. field. lra. }
  rewrite E in H1, H2. lra.
Qed.
End CenterOfMassProperties.

(** An atom of mass 1 at the origin and an atom of mass 3 at (4, 0, 0). *)
Definition two_atoms : list Atom := [ (1, (0, 0, 0)); (3, (4, 0, 0)) ]%Q.

Example center_of_mass_two_atoms :
  ∃ cm cm',
    get_center_of_mass two_atoms true = Some cm
    ∧ same_vector cm (3, 0, 0)%Q
    ∧ get_center_of_mass two_atoms false = Some cm'
    ∧ same_vector cm' (2, 0, 0)%Q
    ∧ get_center_of_mass [] true = Some (0, 0, 0)%Q
    ∧ get_center_of_mass [(1, (0, 0, 0)); (-1, (4, 0, 0))]%Q true = None.
Proof.
  eexists _, _. split; [by vm_compute|]. split; [by intros []|].
  split; [by vm_compute|]. split; [by intros []|]. split; by vm_compute.
Qed.

Lemma center_of_mass_translates_witness :
  ∃ cm,
    two_atoms ≠ []
    ∧ get_center_of_mass two_atoms true = Some cm
    ∧ ∃ cm', get_center_of_mass (translated (1, 2, 3)%Q two_atoms) true = Some cm'
        ∧ same_vector cm' (translate (1, 2, 3)%Q cm).
Proof.
  assert (Hne : two_atoms ≠ []) by discriminate.
  destruct (get_center_of_mass two_atoms true) as [cm|] eqn:E;
    [|by vm_compute in E].
  exists cm. split; [exact Hne|]. split; [reflexivity|].
  exact (center_of_mass_translates two_atoms true (1, 2, 3)%Q cm Hne E).
Defined.

Lemma center_of_mass_within_bounds_witness :
  two_atoms ≠ []
  ∧ (true = true → Forall (λ atom, (0 < atom.1)%Q) two_atoms)
  ∧ Forall (λ atom, ∀ axis,
              (coordinate axis (0, 0, 0) <= coordinate axis atom.2
               ∧ coordinate axis atom.2 <= coordinate axis (4, 0, 0))%Q)
           two_atoms
  ∧ ∃ cm, get_center_of_mass two_atoms true = Some cm
      ∧ ∀ axis, (coordinate axis (0, 0, 0) <= coordinate axis cm
                 ∧ coordinate axis cm <= coordinate axis (4, 0, 0))%Q.
Proof.
  assert (Hne : two_atoms ≠ []) by discriminate.
  assert (Hmass : true = true → Forall (λ atom, (0 < atom.1)%Q) two_atoms).
  { intros _. by repeat constructor. }
  assert (Hbox : Forall (λ atom, ∀ axis,
              (coordinate axis (0, 0, 0) <= coordinate axis atom.2
               ∧ coordinate axis atom.2 <= coordinate axis (4, 0, 0))%Q)
           two_atoms).
  { repeat constructor; by destruct axis. }
  split; [exact Hne|]. split; [exact Hmass|]. split; [exact Hbox|].
  exact (center_of_mass_within_bounds two_atoms true (0, 0, 0)%Q (4, 0, 0)%Q
           Hne Hmass Hbox).
Defined.

End SystaxGeometryTheory.
